(** * Whiteboard geometry, erasure, transform and history engine

    A shallow embedding of [src/utils/geometry.ts] and of the erasure,
    transform and undo/redo logic of [src/App.tsx].

    JavaScript's [number] is modelled by the real numbers [R]: every
    arithmetic operator is the exact one, [Math.hypot] is the square root of
    the sum of squares, [Math.ceil] is [Zceil], [Math.cos]/[Math.sin] are
    [cos]/[sin].  Rounding, [NaN] and the infinities of IEEE doubles are
    outside the model.  Comparisons on [R] are decided by the classical
    [Rlt_dec]/[Req_dec_T]; they are boolean functions but do not reduce, so
    concrete runs are proved by rewriting with the order facts they need. *)

From Stdlib Require Import Reals Lra Psatz Lia ZArith List Ascii String Bool.
Import ListNotations.
Open Scope R_scope.

(* ================================================================== *)
(** ** Numbers *)

Module Num.

(** [a < b], [a <= b], [a === b] on numbers, as booleans. *)
Definition ltb (a b : R) : bool := if Rlt_dec a b then true else false.
Definition leb (a b : R) : bool := if Rle_dec a b then true else false.
Definition eqb (a b : R) : bool := if Req_dec_T a b then true else false.
(** [a > b] and [a >= b] are the flipped tests. *)
Definition gtb (a b : R) : bool := ltb b a.
Definition geb (a b : R) : bool := leb b a.

(** [Math.hypot(a, b)]. *)
Definition hypot (a b : R) : R := sqrt (a ^ 2 + b ^ 2).

(** [Math.atan2(y, x)], by quadrant. *)
Definition atan2 (y x : R) : R :=
  if Rlt_dec 0 x then atan (y / x)
  else if Rlt_dec x 0 then
    (if Rle_dec 0 y then atan (y / x) + PI else atan (y / x) - PI)
  else if Rlt_dec 0 y then PI / 2
  else if Rlt_dec y 0 then - (PI / 2)
  else 0.

End Num.

Infix "<?" := Num.ltb (at level 70, no associativity) : R_scope.
Infix "<=?" := Num.leb (at level 70, no associativity) : R_scope.
Infix "=?" := Num.eqb (at level 70, no associativity) : R_scope.
Infix ">?" := Num.gtb (at level 70, no associativity) : R_scope.
Infix ">=?" := Num.geb (at level 70, no associativity) : R_scope.

(* ================================================================== *)
(** ** Outcome of a call that may throw *)

(** The only exception the modelled code can raise is the [TypeError] of a
    property read on [undefined]. *)
Inductive result (A : Type) : Type :=
| Ok (a : A)
| TypeError.
Arguments Ok {A} a.
Arguments TypeError {A}.

(* ================================================================== *)
(** ** Data model ([src/types.ts]) *)

Inductive DrawingTool : Type :=
| pen | eraser | rectangle | circle | line | triangle | dashed_line.

Definition DrawingTool_eqb (a b : DrawingTool) : bool :=
  match a, b with
  | pen, pen | eraser, eraser | rectangle, rectangle | circle, circle
  | line, line | triangle, triangle | dashed_line, dashed_line => true
  | _, _ => false
  end.

(** [{ x: number; y: number }] *)
Record Point : Type := mkPoint { p_x : R; p_y : R }.

Record Stroke : Type := mkStroke {
  id : string;
  points : list Point;
  color : string;
  lineWidth : R;
  tool : DrawingTool
}.

Record ImageTransform : Type := mkImageTransform {
  t_x : R;
  t_y : R;
  t_width : R;
  t_height : R;
  t_rotation : R
}.

Record CanvasImage : Type := mkCanvasImage {
  img_id : string;
  dataUrl : string;
  transform : ImageTransform
}.

Record Project : Type := mkProject {
  proj_id : string;
  name : string;
  strokes : list Stroke;
  images : list CanvasImage
}.

(** [type Rect = { x; y; width; height }] of [geometry.ts]. *)
Record Rect : Type := mkRect { r_x : R; r_y : R; r_width : R; r_height : R }.

(* ================================================================== *)
(** ** Geometry library ([src/utils/geometry.ts]) *)

(** The running minimum / maximum of the [forEach] of [getStrokeBounds].  The
    source starts the accumulators at [Infinity] and [-Infinity]; the loop is
    only reached with at least one point, and [Math.min(Infinity, v) = v], so
    the fold starts from the first point's coordinate. *)
Definition minOver (f : Point -> R) (p0 : Point) (rest : list Point) : R :=
  fold_left (fun m p => Rmin m (f p)) rest (f p0).
Definition maxOver (f : Point -> R) (p0 : Point) (rest : list Point) : R :=
  fold_left (fun m p => Rmax m (f p)) rest (f p0).

Definition getStrokeBounds (stroke : Stroke) : option Rect :=
  match points stroke with
  | [] => None
  | p0 :: rest =>
    match tool stroke with
    | rectangle | line | triangle | dashed_line =>
      match rest with
      | [] => None
      | end_ :: _ =>
        let start := p0 in
        let minX := Rmin (p_x start) (p_x end_) in
        let minY := Rmin (p_y start) (p_y end_) in
        let maxX := Rmax (p_x start) (p_x end_) in
        let maxY := Rmax (p_y start) (p_y end_) in
        Some (mkRect minX minY (maxX - minX) (maxY - minY))
      end
    | circle =>
      match rest with
      | [] => None
      | edge :: _ =>
        let center := p0 in
        let radius := Num.hypot (p_x edge - p_x center) (p_y edge - p_y center) in
        Some (mkRect (p_x center - radius) (p_y center - radius)
                     (radius * 2) (radius * 2))
      end
    | pen | eraser =>
      let minX := minOver p_x p0 rest in
      let minY := minOver p_y p0 rest in
      let maxX := maxOver p_x p0 rest in
      let maxY := maxOver p_y p0 rest in
      Some (mkRect minX minY (maxX - minX) (maxY - minY))
    end
  end.

Definition unionRect (acc b : Rect) : Rect :=
  let minX := Rmin (r_x acc) (r_x b) in
  let minY := Rmin (r_y acc) (r_y b) in
  let maxX := Rmax (r_x acc + r_width acc) (r_x b + r_width b) in
  let maxY := Rmax (r_y acc + r_height acc) (r_y b + r_height b) in
  mkRect minX minY (maxX - minX) (maxY - minY).

Definition getBounds (strokes : list Stroke) : option Rect :=
  fold_left
    (fun acc stroke =>
       match getStrokeBounds stroke with
       | None => acc
       | Some strokeBounds =>
         match acc with
         | None => Some strokeBounds
         | Some a => Some (unionRect a strokeBounds)
         end
       end)
    strokes None.

Definition doRectsIntersect (r1 r2 : Rect) : bool :=
  negb ((r_x r2 >? r_x r1 + r_width r1)
        || (r_x r2 + r_width r2 <? r_x r1)
        || (r_y r2 >? r_y r1 + r_height r1)
        || (r_y r2 + r_height r2 <? r_y r1)).

Definition pDistanceToSegmentSquared (p a b : Point) : R :=
  let l2 := (p_x a - p_x b) ^ 2 + (p_y a - p_y b) ^ 2 in
  if l2 =? 0 then (p_x p - p_x a) ^ 2 + (p_y p - p_y a) ^ 2
  else
    let t := ((p_x p - p_x a) * (p_x b - p_x a)
              + (p_y p - p_y a) * (p_y b - p_y a)) / l2 in
    let t := Rmax 0 (Rmin 1 t) in
    let projection :=
      mkPoint (p_x a + t * (p_x b - p_x a)) (p_y a + t * (p_y b - p_y a)) in
    (p_x p - p_x projection) ^ 2 + (p_y p - p_y projection) ^ 2.

Definition isPointInTransformedRect (point : Point) (tr : ImageTransform) : bool :=
  let translatedX := p_x point - t_x tr in
  let translatedY := p_y point - t_y tr in
  let sin_ := sin (- t_rotation tr) in
  let cos_ := cos (- t_rotation tr) in
  let rotatedX := translatedX * cos_ - translatedY * sin_ in
  let rotatedY := translatedX * sin_ + translatedY * cos_ in
  let halfWidth := t_width tr / 2 in
  let halfHeight := t_height tr / 2 in
  (rotatedX >=? - halfWidth) && (rotatedX <=? halfWidth)
  && (rotatedY >=? - halfHeight) && (rotatedY <=? halfHeight).

(** [for (i = 0; i < pts.length - 1; i++) if (test(pts[i], pts[i+1])) return true]
    followed by a fall-through to [false]. *)
Fixpoint anySegment (test : Point -> Point -> bool) (pts : list Point) : bool :=
  match pts with
  | a :: ((b :: _) as tl) => test a b || anySegment test tl
  | _ => false
  end.

Definition isPointErased (point : Point) (eraserStroke : Stroke)
           (pointRadius : R) : bool :=
  let totalRadius := lineWidth eraserStroke / 2 + pointRadius in
  let totalRadiusSq := totalRadius * totalRadius in
  match points eraserStroke with
  | [p] =>
    let distSq := (p_x point - p_x p) ^ 2 + (p_y point - p_y p) ^ 2 in
    distSq <? totalRadiusSq
  | pts =>
    anySegment
      (fun segmentStart segmentEnd =>
         pDistanceToSegmentSquared point segmentStart segmentEnd <? totalRadiusSq)
      pts
  end.

Definition rotatePoint (point center : Point) (angle : R) : Point :=
  let cos_ := cos angle in
  let sin_ := sin angle in
  let translatedX := p_x point - p_x center in
  let translatedY := p_y point - p_y center in
  let rotatedX := translatedX * cos_ - translatedY * sin_ in
  let rotatedY := translatedX * sin_ + translatedY * cos_ in
  mkPoint (rotatedX + p_x center) (rotatedY + p_y center).

Definition scalePoint (point origin : Point) (scale : R) : Point :=
  let translatedX := p_x point - p_x origin in
  let translatedY := p_y point - p_y origin in
  let scaledX := translatedX * scale in
  let scaledY := translatedY * scale in
  mkPoint (scaledX + p_x origin) (scaledY + p_y origin).

(** [isPointOnStroke].  [const [start, end] = stroke.points] binds a missing
    element to [undefined], and the first read of [.x] on it throws. *)
Definition isPointOnStroke (point : Point) (stroke : Stroke) (tolerance : R)
  : result bool :=
  let pointRadius := lineWidth stroke / 2 in
  let totalRadius := tolerance + pointRadius in
  let totalRadiusSq := totalRadius * totalRadius in
  let near a b := pDistanceToSegmentSquared point a b <? totalRadiusSq in
  match tool stroke with
  | pen | line | dashed_line => Ok (anySegment near (points stroke))
  | rectangle =>
    match points stroke with
    | start :: end_ :: _ =>
      let p1 := mkPoint (p_x start) (p_y start) in
      let p2 := mkPoint (p_x end_) (p_y start) in
      let p3 := mkPoint (p_x end_) (p_y end_) in
      let p4 := mkPoint (p_x start) (p_y end_) in
      Ok (near p1 p2 || near p2 p3 || near p3 p4 || near p4 p1)
    | _ => TypeError
    end
  | triangle =>
    match points stroke with
    | start :: end_ :: _ =>
      let minX := Rmin (p_x start) (p_x end_) in
      let minY := Rmin (p_y start) (p_y end_) in
      let maxX := Rmax (p_x start) (p_x end_) in
      let maxY := Rmax (p_y start) (p_y end_) in
      let p1 := mkPoint ((minX + maxX) / 2) minY in
      let p2 := mkPoint maxX maxY in
      let p3 := mkPoint minX maxY in
      Ok (near p1 p2 || near p2 p3 || near p3 p1)
    | _ => TypeError
    end
  | circle =>
    match points stroke with
    | center :: edge :: _ =>
      let radius := Num.hypot (p_x edge - p_x center) (p_y edge - p_y center) in
      let distToCenterSq :=
        (p_x point - p_x center) ^ 2 + (p_y point - p_y center) ^ 2 in
      Ok (Rabs (sqrt distToCenterSq - radius) <? totalRadius)
    | _ => TypeError
    end
  | eraser => Ok false
  end.

(* ================================================================== *)
(** ** Erasure engine ([applyErasure] of [src/App.tsx]) *)

(** [{ p1, p2 }] *)
Record Segment : Type := mkSegment { seg_p1 : Point; seg_p2 : Point }.

(** A number built from a loop counter. *)
Definition ofNat (k : nat) : R := IZR (Z.of_nat k).

(** [Set<string>] with its insertion order; [add] keeps the first copy. *)
Definition StringSet : Type := list string.
Definition set_has (s : StringSet) (k : string) : bool :=
  existsb (String.eqb k) s.
Definition set_add (s : StringSet) (k : string) : StringSet :=
  if set_has s k then s else s ++ [k].

Definition interpolationStep : R := 1.

(** [{ x: p1.x + (p2.x - p1.x) * t, y: p1.y + (p2.y - p1.y) * t }] *)
Definition interpolate (p1 p2 : Point) (t : R) : Point :=
  mkPoint (p_x p1 + (p_x p2 - p_x p1) * t) (p_y p1 + (p_y p2 - p_y p1) * t).

(** [Math.max(1, Math.ceil(segmentLength / interpolationStep))] *)
Definition numStepsOf (p1 p2 : Point) : nat :=
  let segmentLength := Num.hypot (p_x p2 - p_x p1) (p_y p2 - p_y p1) in
  Z.to_nat (Z.max 1 (Zceil (segmentLength / interpolationStep))).

(** Consecutive pairs [(points[i], points[i+1])]. *)
Fixpoint consecutive (pts : list Point) : list Segment :=
  match pts with
  | a :: ((b :: _) as tl) => mkSegment a b :: consecutive tl
  | _ => []
  end.

(** Step 1 of the loop body: the stroke as line segments.  [None] is the
    [continue] taken when the stroke has fewer than two points. *)
Definition strokeSegments (stroke : Stroke) : option (list Segment) :=
  match points stroke with
  | start :: end_ :: _ =>
    match tool stroke with
    | pen => Some (consecutive (points stroke))
    | line | dashed_line => Some [mkSegment start end_]
    | rectangle =>
      let p1 := mkPoint (Rmin (p_x start) (p_x end_)) (Rmin (p_y start) (p_y end_)) in
      let p3 := mkPoint (Rmax (p_x start) (p_x end_)) (Rmax (p_y start) (p_y end_)) in
      let p2 := mkPoint (p_x p3) (p_y p1) in
      let p4 := mkPoint (p_x p1) (p_y p3) in
      Some [mkSegment p1 p2; mkSegment p2 p3; mkSegment p3 p4; mkSegment p4 p1]
    | triangle =>
      let minX := Rmin (p_x start) (p_x end_) in
      let minY := Rmin (p_y start) (p_y end_) in
      let maxX := Rmax (p_x start) (p_x end_) in
      let maxY := Rmax (p_y start) (p_y end_) in
      let p1 := mkPoint ((minX + maxX) / 2) minY in
      let p2 := mkPoint maxX maxY in
      let p3 := mkPoint minX maxY in
      Some [mkSegment p1 p2; mkSegment p2 p3; mkSegment p3 p1]
    | circle =>
      let center := start in
      let edge := end_ in
      let radius := Num.hypot (p_x edge - p_x center) (p_y edge - p_y center) in
      let numSegments := Z.to_nat (Z.max 30 (Zceil (radius / 3))) in
      Some (map (fun i =>
                   let angle1 := ofNat i / ofNat numSegments * 2 * PI in
                   let angle2 := ofNat (i + 1) / ofNat numSegments * 2 * PI in
                   mkSegment
                     (mkPoint (p_x center + radius * cos angle1)
                              (p_y center + radius * sin angle1))
                     (mkPoint (p_x center + radius * cos angle2)
                              (p_y center + radius * sin angle2)))
                (seq 0 numSegments))
    | eraser => Some []
    end
  | _ =>
    match tool stroke with
    | eraser => Some []
    | _ => None
    end
  end.

(** [if (currentFragment.length > 1) newFragments.push(currentFragment)] *)
Definition pushFragment (newFragments : list (list Point))
           (currentFragment : list Point) : list (list Point) :=
  if (1 <? List.length currentFragment)%nat then newFragments ++ [currentFragment]
  else newFragments.

Section Fragmenting.

Variable eraserStroke : Stroke.
Variable pointRadius : R.

(** The inner loop of the pen branch: some interior sample of [p1 p2], at
    [step / numSteps] for [1 <= step < numSteps], is erased. *)
Definition isSegmentErased (p1 p2 : Point) : bool :=
  let numSteps := numStepsOf p1 p2 in
  existsb
    (fun step =>
       isPointErased (interpolate p1 p2 (ofNat step / ofNat numSteps))
                     eraserStroke pointRadius)
    (seq 1 (numSteps - 1)).

(** The pen branch: the loop over [points], from index [i] on, with the
    loop-carried [currentFragment], [newFragments] and [madeCut]; the last
    [pushFragment] is the one after the loop. *)
Fixpoint penFragments (pts : list Point) (currentFragment : list Point)
         (newFragments : list (list Point)) (madeCut : bool)
  : list (list Point) * bool :=
  match pts with
  | [] => (pushFragment newFragments currentFragment, madeCut)
  | p1 :: rest =>
    let isP1Erased := isPointErased p1 eraserStroke pointRadius in
    let isSegmentErased_ :=
      match rest with
      | p2 :: _ => isSegmentErased p1 p2
      | [] => false
      end in
    let currentFragment :=
      if isP1Erased then currentFragment else currentFragment ++ [p1] in
    if isP1Erased || isSegmentErased_
    then penFragments rest [] (pushFragment newFragments currentFragment) true
    else penFragments rest currentFragment newFragments madeCut
  end.

(** The samples [i / numSteps], [0 <= i <= numSteps], of one segment. *)
Definition samplesOf (seg : Segment) : list Point :=
  let numSteps := numStepsOf (seg_p1 seg) (seg_p2 seg) in
  map (fun i => interpolate (seg_p1 seg) (seg_p2 seg) (ofNat i / ofNat numSteps))
      (seq 0 (numSteps + 1)).

(** The shape branch on one segment: the loop over its samples and the
    [pushFragment] after it. *)
Fixpoint segmentFragments (samples : list Point) (currentFragment : list Point)
         (newFragments : list (list Point)) : list (list Point) :=
  match samples with
  | [] => pushFragment newFragments currentFragment
  | point :: rest =>
    if negb (isPointErased point eraserStroke pointRadius)
    then segmentFragments rest (currentFragment ++ [point]) newFragments
    else segmentFragments rest [] (pushFragment newFragments currentFragment)
  end.

Definition shapeFragments (segments : list Segment) : list (list Point) :=
  fold_left (fun newFragments seg => segmentFragments (samplesOf seg) [] newFragments)
            segments [].

End Fragmenting.

Definition segmentLengthOf (seg : Segment) : R :=
  Num.hypot (p_x (seg_p2 seg) - p_x (seg_p1 seg)) (p_y (seg_p2 seg) - p_y (seg_p1 seg)).

(** [for (i = 1; i < frag.length; i++) fragLength += hypot(frag[i] - frag[i-1])] *)
Fixpoint fragLength (frag : list Point) : R :=
  match frag with
  | a :: ((b :: _) as tl) =>
    Num.hypot (p_x b - p_x a) (p_y b - p_y a) + fragLength tl
  | _ => 0
  end.

(** Steps 1 and 2 of the loop body for one stroke.  [None]: the stroke is
    left alone (a [continue], or no cut was made); [Some frags]: a cut was
    made and [frags] are the surviving fragments. *)
Definition fragmentStroke (eraserStroke : Stroke) (eraserBounds : Rect)
           (stroke : Stroke) : option (list (list Point)) :=
  if DrawingTool_eqb (tool stroke) eraser then None
  else
    match getStrokeBounds stroke with
    | None => None
    | Some strokeBounds =>
      if negb (doRectsIntersect eraserBounds strokeBounds) then None
      else
        let pointRadius := lineWidth stroke / 2 in
        match strokeSegments stroke with
        | None => None
        | Some [] => None
        | Some segments =>
          let '(newFragments, madeCut) :=
            match tool stroke with
            | pen => penFragments eraserStroke pointRadius (points stroke) [] [] false
            | _ =>
              let newFragments := shapeFragments eraserStroke pointRadius segments in
              let originalPerimeter :=
                fold_left (fun acc seg => acc + segmentLengthOf seg) segments 0 in
              let newPerimeter :=
                fold_left (fun acc frag => acc + fragLength frag) newFragments 0 in
              (newFragments, Rabs (originalPerimeter - newPerimeter) >? 1)
            end in
          if madeCut then Some newFragments else None
        end
    end.

Record Erasure : Type := mkErasure {
  strokesToDelete : StringSet;
  strokesToAdd : list Stroke
}.

Section ApplyErasure.

(** [randomUUID k] is the value of the [k]-th call of [crypto.randomUUID()]
    made by the invocation. *)
Variable randomUUID : nat -> string.

(** Step 3 of the loop body: the fragments become fresh pen strokes. *)
Definition fragmentStrokes (stroke : Stroke) (calls : nat)
           (frags : list (list Point)) : list Stroke :=
  map (fun '(k, fragPoints) =>
         mkStroke (String.append "stroke_" (randomUUID (calls + k)))
                  fragPoints (color stroke) (lineWidth stroke) pen)
      (combine (seq 0 (List.length frags)) frags).

(** One iteration of [for (const stroke of currentStrokes)]; [calls] counts
    the UUIDs drawn so far. *)
Definition erasureStep (eraserStroke : Stroke) (eraserBounds : Rect)
           (acc : Erasure * nat) (stroke : Stroke) : Erasure * nat :=
  let '(e, calls) := acc in
  match fragmentStroke eraserStroke eraserBounds stroke with
  | None => acc
  | Some newFragments =>
    (mkErasure (set_add (strokesToDelete e) (id stroke))
               (strokesToAdd e ++ fragmentStrokes stroke calls newFragments),
     (calls + List.length newFragments)%nat)
  end.

Definition applyErasure (eraserStroke : Stroke) (currentStrokes : list Stroke)
  : Erasure :=
  match getStrokeBounds eraserStroke with
  | None => mkErasure [] []
  | Some eraserBounds =>
    fst (fold_left (erasureStep eraserStroke eraserBounds) currentStrokes
                   (mkErasure [] [], 0%nat))
  end.

End ApplyErasure.

(* ================================================================== *)
(** ** Transform engine ([src/App.tsx]) *)

Inductive Action : Type :=
| none | drawing | panning | selecting | dragging
| resizing_image | rotating_image | rotating_strokes | resizing_strokes.

Definition Action_eqb (a b : Action) : bool :=
  match a, b with
  | none, none | drawing, drawing | panning, panning | selecting, selecting
  | dragging, dragging | resizing_image, resizing_image
  | rotating_image, rotating_image | rotating_strokes, rotating_strokes
  | resizing_strokes, resizing_strokes => true
  | _, _ => false
  end.

(** The value held by [transformStartRef.current] during a gesture; an
    absent optional field is [None]. *)
Record TransformStart : Type := mkTransformStart {
  startPoint : Point;
  initialTransform : option ImageTransform;
  selectionCenter : option Point;
  initialBounds : option Rect;
  handle : option string;
  imageId : option string;
  strokeIds : option StringSet;
  imageIds : option StringSet
}.

(** [handle.includes(c)] for a one-character [c]. *)
Fixpoint includes (s : string) (c : ascii) : bool :=
  match s with
  | EmptyString => false
  | String a rest => Ascii.eqb a c || includes rest c
  end.

(** A string-valued optional field used as a condition: [undefined] and the
    empty string are falsy. *)
Definition truthy (s : option string) : bool :=
  match s with
  | None | Some EmptyString => false
  | Some _ => true
  end.

(** [Map<string, V>]: [set] overwrites in place or appends, [get] finds the
    entry of the key. *)
Definition JsMap (V : Type) : Type := list (string * V).

Fixpoint map_set {V : Type} (m : JsMap V) (k : string) (v : V) : JsMap V :=
  match m with
  | [] => [(k, v)]
  | (k', v') :: rest =>
    if String.eqb k' k then (k, v) :: rest else (k', v') :: map_set rest k v
  end.

Fixpoint map_get {V : Type} (m : JsMap V) (k : string) : option V :=
  match m with
  | [] => None
  | (k', v') :: rest => if String.eqb k' k then Some v' else map_get rest k
  end.

(** [new Map(entries)] *)
Definition map_of {V : Type} (entries : list (string * V)) : JsMap V :=
  fold_left (fun m kv => map_set m (fst kv) (snd kv)) entries [].

(** [{ points, lineWidth }], the entries of [lastStrokeProperties]. *)
Record StrokeProperties : Type := mkStrokeProperties {
  sp_points : list Point;
  sp_lineWidth : R
}.

(** [new Map(selected.map(s => [s.id, { points: s.points, lineWidth: s.lineWidth }]))],
    as [handleMouseDown] stores it in [lastStrokeProperties] at gesture start. *)
Definition strokePropertiesOf (selected : list Stroke) : JsMap StrokeProperties :=
  map_of (map (fun s => (id s, mkStrokeProperties (points s) (lineWidth s))) selected).

(** The gesture parameters [dx, dy, rotation, scale, anchor] that the
    [switch (currentAction)] of [calculateTransformedStrokes] computes. *)
Record GestureParams : Type := mkGestureParams {
  g_dx : R;
  g_dy : R;
  g_rotation : R;
  g_scale : R;
  g_anchor : option Point
}.

Definition identityParams : GestureParams := mkGestureParams 0 0 0 1 None.

(** The anchor of a stroke resize: the corner opposite the grabbed handle. *)
Definition resizeAnchor (initialBounds : Rect) (handle : string) : Point :=
  mkPoint
    (if includes handle "l"%char then r_x initialBounds + r_width initialBounds
     else r_x initialBounds)
    (if includes handle "t"%char then r_y initialBounds + r_height initialBounds
     else r_y initialBounds).

Definition gestureParams (currentCoords : Point) (startState : TransformStart)
           (currentAction : Action) : GestureParams :=
  match currentAction with
  | dragging =>
    mkGestureParams (p_x currentCoords - p_x (startPoint startState))
                    (p_y currentCoords - p_y (startPoint startState)) 0 1 None
  | rotating_strokes =>
    match selectionCenter startState with
    | Some center =>
      let angleStart :=
        Num.atan2 (p_y (startPoint startState) - p_y center)
                  (p_x (startPoint startState) - p_x center) in
      let angleCurrent :=
        Num.atan2 (p_y currentCoords - p_y center) (p_x currentCoords - p_x center) in
      mkGestureParams 0 0 (angleCurrent - angleStart) 1 None
    | None => identityParams
    end
  | resizing_strokes =>
    match initialBounds startState, handle startState with
    | Some bounds, Some h =>
      if negb (truthy (Some h)) then identityParams
      else
        let anchor := resizeAnchor bounds h in
        let initialDist :=
          Num.hypot (p_x (startPoint startState) - p_x anchor)
                    (p_y (startPoint startState) - p_y anchor) in
        if initialDist >? 0 then
          let currentDist :=
            Num.hypot (p_x currentCoords - p_x anchor) (p_y currentCoords - p_y anchor) in
          mkGestureParams 0 0 0 (Rmax (1 / 100) (currentDist / initialDist)) (Some anchor)
        else mkGestureParams 0 0 0 1 (Some anchor)
    | _, _ => identityParams
    end
  | _ => identityParams
  end.

(** The body of [originalPoints.map(p => ...)]. *)
Definition transformPoint (g : GestureParams) (selectionCenter : option Point)
           (p : Point) : Point :=
  let x := p_x p in
  let y := p_y p in
  let '(x, y) :=
    match g_anchor g with
    | Some anchor =>
      if negb (g_scale g =? 1)
      then (p_x anchor + (x - p_x anchor) * g_scale g,
            p_y anchor + (y - p_y anchor) * g_scale g)
      else (x, y)
    | None => (x, y)
    end in
  let '(x, y) :=
    match selectionCenter with
    | Some center =>
      if negb (g_rotation g =? 0)
      then
        let tx := x - p_x center in
        let ty := y - p_y center in
        (tx * cos (g_rotation g) - ty * sin (g_rotation g) + p_x center,
         tx * sin (g_rotation g) + ty * cos (g_rotation g) + p_y center)
      else (x, y)
    | None => (x, y)
    end in
  mkPoint (x + g_dx g) (y + g_dy g).

(** The body of [corners.map(p => ...)] of the rotated-rectangle case; it
    reads [selectionCenter.x] without a guard. *)
Definition transformCorner (g : GestureParams) (center : Point) (p : Point) : Point :=
  let tx := p_x p - p_x center in
  let ty := p_y p - p_y center in
  mkPoint (tx * cos (g_rotation g) - ty * sin (g_rotation g) + p_x center + g_dx g)
          (tx * sin (g_rotation g) + ty * cos (g_rotation g) + p_y center + g_dy g).

(** One iteration of [for (const id of strokeIds)]: [Ok None] is the
    [continue], [Ok (Some s)] the stroke pushed on [newStrokes]. *)
Definition transformStroke (projectStrokes : list Stroke)
           (lastStrokeProperties : JsMap StrokeProperties)
           (g : GestureParams) (startState : TransformStart)
           (currentAction : Action) (id_ : string) : result (option Stroke) :=
  match find (fun s => String.eqb (id s) id_) projectStrokes,
        map_get lastStrokeProperties id_ with
  | Some originalStroke, Some originalProperties =>
    let originalPoints := sp_points originalProperties in
    let originalLineWidth := sp_lineWidth originalProperties in
    let newPoints := map (transformPoint g (selectionCenter startState)) originalPoints in
    let newLineWidth :=
      if Action_eqb currentAction resizing_strokes
      then originalLineWidth * g_scale g else originalLineWidth in
    if Action_eqb currentAction rotating_strokes
       && DrawingTool_eqb (tool originalStroke) rectangle
       && Nat.eqb (List.length newPoints) 2
    then
      match originalPoints with
      | start :: end_ :: _ =>
        let p1 := mkPoint (Rmin (p_x start) (p_x end_)) (Rmin (p_y start) (p_y end_)) in
        let p3 := mkPoint (Rmax (p_x start) (p_x end_)) (Rmax (p_y start) (p_y end_)) in
        let p2 := mkPoint (p_x p3) (p_y p1) in
        let p4 := mkPoint (p_x p1) (p_y p3) in
        let corners := [p1; p2; p3; p4] in
        match selectionCenter startState with
        | Some center =>
          let transformedCorners := map (transformCorner g center) corners in
          let transformedCorners :=
            transformedCorners ++ [nth 0 transformedCorners (mkPoint 0 0)] in
          Ok (Some (mkStroke (id originalStroke) transformedCorners
                             (color originalStroke) newLineWidth pen))
        | None => TypeError
        end
      | _ => TypeError
      end
    else
      Ok (Some (mkStroke (id originalStroke) newPoints (color originalStroke)
                         newLineWidth (tool originalStroke)))
  | _, _ => Ok None
  end.

(** The loop over [strokeIds], pushing on [newStrokes]; a throw aborts it. *)
Fixpoint transformStrokes (step : string -> result (option Stroke))
         (ids : list string) (newStrokes : list Stroke) : result (list Stroke) :=
  match ids with
  | [] => Ok newStrokes
  | id_ :: rest =>
    match step id_ with
    | TypeError => TypeError
    | Ok None => transformStrokes step rest newStrokes
    | Ok (Some s) => transformStrokes step rest (newStrokes ++ [s])
    end
  end.

Definition isIdentity (g : GestureParams) : bool :=
  (g_dx g =? 0) && (g_dy g =? 0) && (g_rotation g =? 0) && (g_scale g =? 1).

Definition calculateTransformedStrokes
           (currentProject : option Project)
           (lastStrokeProperties : JsMap StrokeProperties)
           (currentCoords : Point) (startState : option TransformStart)
           (currentAction : Action) : result (list Stroke) :=
  match startState, currentProject with
  | Some st, Some project =>
    let g := gestureParams currentCoords st currentAction in
    if isIdentity g then
      Ok (filter (fun s => match strokeIds st with
                           | Some ids => set_has ids (id s)
                           | None => false
                           end)
                 (strokes project))
    else
      match strokeIds st with
      | None => Ok []
      | Some ids =>
        transformStrokes
          (transformStroke (strokes project) lastStrokeProperties g st currentAction)
          ids []
      end
  | _, _ => Ok []
  end.

(** The ['resizing-image'] case of [handleMouseUp]: the [finalTransform] it
    commits for the image. *)
Definition isCornerHandle (h : string) : bool :=
  String.eqb h "tr"%string || String.eqb h "tl"%string || String.eqb h "br"%string || String.eqb h "bl"%string.

(** [newWidth] and [newHeight] after the aspect-ratio step, before the two
    [Math.max(20, .)].  [aspectRatio = width / height] and
    [newWidth / aspectRatio] divide by the sides of the image: for an image
    of width or height zero JavaScript computes with [Infinity] and [NaN],
    which are outside the model, so every property of the image resize is
    stated for [0 < width] and [0 < height], where no division by zero
    occurs. *)
Definition proposedSize (initialTransform : ImageTransform) (handle : option string)
           (startPoint finalCoords : Point) : R * R :=
  let width := t_width initialTransform in
  let height := t_height initialTransform in
  let rotation := t_rotation initialTransform in
  let dx := p_x finalCoords - p_x startPoint in
  let dy := p_y finalCoords - p_y startPoint in
  let sin_ := sin (- rotation) in
  let cos_ := cos (- rotation) in
  let localDx := dx * cos_ - dy * sin_ in
  let localDy := dx * sin_ + dy * cos_ in
  let aspectRatio := width / height in
  let hasName n := match handle with Some h => String.eqb h n | None => false end in
  let '(newWidth, newHeight) :=
    if hasName "tr"%string then (width + localDx, height - localDy)
    else if hasName "tl"%string then (width - localDx, height - localDy)
    else if hasName "br"%string then (width + localDx, height + localDy)
    else if hasName "bl"%string then (width - localDx, height + localDy)
    else (width, height) in
  if match handle with Some h => isCornerHandle h | None => false end then
    if Rabs (newWidth - width) >? Rabs (newHeight - height)
    then (newWidth, newWidth / aspectRatio)
    else (newHeight * aspectRatio, newHeight)
  else (newWidth, newHeight).

Definition resizedImageTransform (initialTransform : ImageTransform)
           (handle : option string) (startPoint finalCoords : Point) : ImageTransform :=
  let width := t_width initialTransform in
  let height := t_height initialTransform in
  let rotation := t_rotation initialTransform in
  let '(newWidth, newHeight) :=
    proposedSize initialTransform handle startPoint finalCoords in
  let newWidth := Rmax 20 newWidth in
  let newHeight := Rmax 20 newHeight in
  let dWidth := newWidth - width in
  let dHeight := newHeight - height in
  let has c := match handle with Some h => includes h c | None => false end in
  let dxCenter := 0 in
  let dyCenter := 0 in
  let dxCenter := if has "l"%char then dxCenter - dWidth / 2 else dxCenter in
  let dxCenter := if has "r"%char then dxCenter + dWidth / 2 else dxCenter in
  let dyCenter := if has "t"%char then dyCenter - dHeight / 2 else dyCenter in
  let dyCenter := if has "b"%char then dyCenter + dHeight / 2 else dyCenter in
  let sinR := sin rotation in
  let cosR := cos rotation in
  let worldDxCenter := dxCenter * cosR - dyCenter * sinR in
  let worldDyCenter := dxCenter * sinR + dyCenter * cosR in
  mkImageTransform (t_x initialTransform + worldDxCenter)
                   (t_y initialTransform + worldDyCenter)
                   newWidth newHeight (t_rotation initialTransform).

(** The ['rotating-image'] case. *)
Definition rotatedImageTransform (initialTransform : ImageTransform)
           (startPoint finalCoords : Point) : ImageTransform :=
  let x := t_x initialTransform in
  let y := t_y initialTransform in
  let angleStart := Num.atan2 (p_y startPoint - y) (p_x startPoint - x) in
  let angleCurrent := Num.atan2 (p_y finalCoords - y) (p_x finalCoords - x) in
  let angleDelta := angleCurrent - angleStart in
  mkImageTransform x y (t_width initialTransform) (t_height initialTransform)
                   (t_rotation initialTransform + angleDelta).

(** [finalTransform] of the ['resizing-image'] / ['rotating-image'] branch
    of [handleMouseUp]; [None] when the guard
    [startState.initialTransform && startState.imageId] fails and nothing is
    committed. *)
Definition finalImageTransform (currentAction : Action) (startState : TransformStart)
           (finalCoords : Point) : option ImageTransform :=
  match initialTransform startState with
  | Some it =>
    if truthy (imageId startState) then
      match currentAction with
      | rotating_image =>
        Some (rotatedImageTransform it (startPoint startState) finalCoords)
      | resizing_image =>
        Some (resizedImageTransform it (handle startState) (startPoint startState)
                                    finalCoords)
      | _ => None
      end
    else None
  | None => None
  end.

(** The preview of the same gesture in [transformAnimationLoop]; the resize
    preview is also skipped without a [handle]. *)
Definition previewImageTransform (currentAction : Action) (startState : TransformStart)
           (coords : Point) : option ImageTransform :=
  match currentAction, initialTransform startState with
  | rotating_image, Some it =>
    if truthy (imageId startState)
    then Some (rotatedImageTransform it (startPoint startState) coords)
    else None
  | resizing_image, Some it =>
    if truthy (handle startState) && truthy (imageId startState)
    then Some (resizedImageTransform it (handle startState) (startPoint startState)
                                     coords)
    else None
  | _, _ => None
  end.

(* ================================================================== *)
(** ** History store ([src/App.tsx]) *)

(** [{ strokes, images }] *)
Record Snapshot : Type := mkSnapshot {
  snap_strokes : list Stroke;
  snap_images : list CanvasImage
}.

(** The part of the component state that undo/redo reads and writes. *)
Record AppState : Type := mkAppState {
  projects : list Project;
  currentProjectId : option string;
  history : list Snapshot;
  historyIndex : nat;
  selectedStrokeIds : StringSet;
  selectedImageIds : StringSet
}.

Definition isCurrent (st : AppState) (p : Project) : bool :=
  match currentProjectId st with
  | Some cid => String.eqb (proj_id p) cid
  | None => false
  end.

(** [history.slice(0, historyIndex + 1)], then [push], and the index moves on. *)
Definition recordNewHistoryState (st : AppState) (newStrokes : list Stroke)
           (newImages : list CanvasImage) : AppState :=
  let newHistory := firstn (historyIndex st + 1) (history st) in
  let newHistory := newHistory ++ [mkSnapshot newStrokes newImages] in
  mkAppState (projects st) (currentProjectId st) newHistory
             (historyIndex st + 1) (selectedStrokeIds st) (selectedImageIds st).

Definition resetHistory (st : AppState) (strokes_ : list Stroke)
           (images_ : list CanvasImage) : AppState :=
  mkAppState (projects st) (currentProjectId st) [mkSnapshot strokes_ images_] 0
             (selectedStrokeIds st) (selectedImageIds st).

(** The common tail of [handleUndo] and [handleRedo]: destructure
    [history[newIndex]] (a throw when it is [undefined]), move the index,
    install the snapshot in the current project, clear the selection. *)
Definition goTo (st : AppState) (newIndex : nat) : result AppState :=
  match nth_error (history st) newIndex with
  | None => TypeError
  | Some snap =>
    Ok (mkAppState
          (map (fun p =>
                  if isCurrent st p
                  then mkProject (proj_id p) (name p) (snap_strokes snap) (snap_images snap)
                  else p)
               (projects st))
          (currentProjectId st) (history st) newIndex [] [])
  end.

Definition handleUndo (st : AppState) : result AppState :=
  if (0 <? historyIndex st)%nat then goTo st (historyIndex st - 1) else Ok st.

Definition handleRedo (st : AppState) : result AppState :=
  if (Z.of_nat (historyIndex st) <? Z.of_nat (List.length (history st)) - 1)%Z
  then goTo st (historyIndex st + 1) else Ok st.

(** The snapshot at the current index. *)
Definition currentSnapshot (st : AppState) : option Snapshot :=
  nth_error (history st) (historyIndex st).

(* ================================================================== *)
(** ** Image bounds and handles *)

(** The world position of a corner given in the image's local frame:
    [rotatePoint(corner, {0,0}, rotation)] moved to the image centre. *)
Definition worldCorner (tr : ImageTransform) (corner : Point) : Point :=
  let rotated := rotatePoint corner (mkPoint 0 0) (t_rotation tr) in
  mkPoint (p_x rotated + t_x tr) (p_y rotated + t_y tr).

(** [getTransformedImageBounds] of [geometry.ts].  The four corners are
    always present, so the running minimum and maximum start from the first
    one (see [minOver]). *)
Definition getTransformedImageBounds (tr : ImageTransform) : Rect :=
  let halfWidth := t_width tr / 2 in
  let halfHeight := t_height tr / 2 in
  let tl := worldCorner tr (mkPoint (- halfWidth) (- halfHeight)) in
  let tr_ := worldCorner tr (mkPoint halfWidth (- halfHeight)) in
  let br := worldCorner tr (mkPoint halfWidth halfHeight) in
  let bl := worldCorner tr (mkPoint (- halfWidth) halfHeight) in
  let rest := [tr_; br; bl] in
  let minX := minOver p_x tl rest in
  let minY := minOver p_y tl rest in
  let maxX := maxOver p_x tl rest in
  let maxY := maxOver p_y tl rest in
  mkRect minX minY (maxX - minX) (maxY - minY).

Definition HANDLE_SIZE : R := 10.
Definition ROTATION_HANDLE_OFFSET : R := 25.

(** [getHandles]: the handle positions in the image's local frame, in the
    order [Object.entries] visits them. *)
Definition getHandles (tr : ImageTransform) (zoom : R) : list (string * Point) :=
  let width := t_width tr in
  let height := t_height tr in
  let rotHandleOffset := ROTATION_HANDLE_OFFSET / zoom in
  [("tl"%string, mkPoint (- width / 2) (- height / 2));
   ("tr"%string, mkPoint (width / 2) (- height / 2));
   ("bl"%string, mkPoint (- width / 2) (height / 2));
   ("br"%string, mkPoint (width / 2) (height / 2));
   ("rot"%string, mkPoint 0 (- height / 2 - rotHandleOffset))].

(** [getHandleAtPoint]: the first handle whose square contains the point,
    taken to the local frame. *)
Definition getHandleAtPoint (point : Point) (tr : ImageTransform) (zoom : R)
  : option string :=
  let handles := getHandles tr zoom in
  let handleSize := HANDLE_SIZE / zoom in
  let translatedX := p_x point - t_x tr in
  let translatedY := p_y point - t_y tr in
  let sin_ := sin (- t_rotation tr) in
  let cos_ := cos (- t_rotation tr) in
  let localX := translatedX * cos_ - translatedY * sin_ in
  let localY := translatedX * sin_ + translatedY * cos_ in
  option_map fst
    (find (fun entry =>
             let pos := snd entry in
             (localX >=? p_x pos - handleSize / 2)
             && (localX <=? p_x pos + handleSize / 2)
             && (localY >=? p_y pos - handleSize / 2)
             && (localY <=? p_y pos + handleSize / 2))
          handles).

(** The resize handles of a stroke selection: [corners] of
    [handleMouseDown], with [padding = 5 / zoom].  Each handle sits
    [padding] outside one corner of the selection's bounds, and the name of
    the one clicked becomes [handle] of the start state of the resize.  With
    no padding the table lists the four corners of the bounds themselves. *)
Definition selectionCorners (bounds : Rect) (padding : R) : list (string * Point) :=
  [("tl"%string, mkPoint (r_x bounds - padding) (r_y bounds - padding));
   ("tr"%string, mkPoint (r_x bounds + r_width bounds + padding)
                         (r_y bounds - padding));
   ("bl"%string, mkPoint (r_x bounds - padding)
                         (r_y bounds + r_height bounds + padding));
   ("br"%string, mkPoint (r_x bounds + r_width bounds + padding)
                         (r_y bounds + r_height bounds + padding))].

(* ================================================================== *)
(** ** View: pan and zoom *)

(** The world coordinates of a screen position ([getCoordinates]). *)
Definition toWorld (pan : Point) (zoom : R) (screen : Point) : Point :=
  mkPoint ((p_x screen - p_x pan) / zoom) ((p_y screen - p_y pan) / zoom).

(** The view state [zoom], [pan]. *)
Record View : Type := mkView { v_zoom : R; v_pan : Point }.

(** [handleWheel]: zoom about the mouse position. *)
Definition handleWheel (v : View) (deltaY : R) (mouse : Point) : View :=
  let zoom := v_zoom v in
  let pan := v_pan v in
  let scaleAmount := - deltaY * (1 / 1000) in
  let newZoom := Rmax (1 / 10) (Rmin 10 (zoom * (1 + scaleAmount))) in
  mkView newZoom
         (mkPoint (p_x mouse - (p_x mouse - p_x pan) * (newZoom / zoom))
                  (p_y mouse - (p_y mouse - p_y pan) * (newZoom / zoom))).

(** [resetView]: back to zoom 1, keeping the point at the viewport centre. *)
Definition resetView (v : View) (viewportWidth viewportHeight : R) : View :=
  let centerX := viewportWidth / 2 in
  let centerY := viewportHeight / 2 in
  let canvasPointX := (centerX - p_x (v_pan v)) / v_zoom v in
  let canvasPointY := (centerY - p_y (v_pan v)) / v_zoom v in
  let newPanX := centerX - canvasPointX in
  let newPanY := centerY - canvasPointY in
  mkView 1 (mkPoint newPanX newPanY).

(** The zoom buttons: [setZoom(z => Math.min(10, z + 0.1))] and
    [setZoom(z => Math.max(0.1, z - 0.1))]. *)
Definition zoomIn (v : View) : View :=
  mkView (Rmin 10 (v_zoom v + 1 / 10)) (v_pan v).
Definition zoomOut (v : View) : View :=
  mkView (Rmax (1 / 10) (v_zoom v - 1 / 10)) (v_pan v).

(** The placement of an uploaded image of the given size
    ([image.onload] of [handleImageUpload], after the optional downscale):
    centred in the viewport and fitted to 80% of it. *)
Definition initialImageTransform (imageToProcessWidth imageToProcessHeight : R)
           (viewportWidth viewportHeight : R) (v : View) : ImageTransform :=
  let imageAspectRatio := imageToProcessWidth / imageToProcessHeight in
  let viewportAspectRatio := viewportWidth / viewportHeight in
  let '(renderWidth, renderHeight) :=
    if imageAspectRatio >? viewportAspectRatio
    then (viewportWidth * (8 / 10), viewportWidth * (8 / 10) / imageAspectRatio)
    else (viewportHeight * (8 / 10) * imageAspectRatio, viewportHeight * (8 / 10)) in
  let screenCenterX := viewportWidth / 2 in
  let screenCenterY := viewportHeight / 2 in
  let canvasCenterX := (screenCenterX - p_x (v_pan v)) / v_zoom v in
  let canvasCenterY := (screenCenterY - p_y (v_pan v)) / v_zoom v in
  mkImageTransform canvasCenterX canvasCenterY
                   (renderWidth / v_zoom v) (renderHeight / v_zoom v) 0.

(* ================================================================== *)
(** ** Editing the current project *)

(** [projects.find(p => p.id === currentProjectId)] *)
Definition currentProject (st : AppState) : option Project :=
  find (isCurrent st) (projects st).

(** [setProjects(prev => prev.map(p => p.id === currentProjectId ?
    { ...p, strokes, images } : p))] *)
Definition setCurrentContent (st : AppState) (newStrokes : list Stroke)
           (newImages : list CanvasImage) : AppState :=
  mkAppState
    (map (fun p => if isCurrent st p
                   then mkProject (proj_id p) (name p) newStrokes newImages
                   else p)
         (projects st))
    (currentProjectId st) (history st) (historyIndex st)
    (selectedStrokeIds st) (selectedImageIds st).

(** The same with [{ ...p, strokes }] only. *)
Definition setCurrentStrokes (st : AppState) (newStrokes : list Stroke) : AppState :=
  mkAppState
    (map (fun p => if isCurrent st p
                   then mkProject (proj_id p) (name p) newStrokes (images p)
                   else p)
         (projects st))
    (currentProjectId st) (history st) (historyIndex st)
    (selectedStrokeIds st) (selectedImageIds st).

(** [setSelectedStrokeIds(new Set()); setSelectedImageIds(new Set())] *)
Definition clearSelection (st : AppState) : AppState :=
  mkAppState (projects st) (currentProjectId st) (history st) (historyIndex st) [] [].

(** [hasSelection] *)
Definition hasSelection (st : AppState) : bool :=
  (0 <? List.length (selectedStrokeIds st))%nat
  || (0 <? List.length (selectedImageIds st))%nat.

Definition handleDeleteSelection (st : AppState) : AppState :=
  match currentProject st with
  | None => st
  | Some project =>
    if negb (hasSelection st) then st
    else
      let newStrokes :=
        filter (fun s => negb (set_has (selectedStrokeIds st) (id s)))
               (strokes project) in
      let newImages :=
        filter (fun i => negb (set_has (selectedImageIds st) (img_id i)))
               (images project) in
      let strokesChanged :=
        negb (Nat.eqb (List.length newStrokes) (List.length (strokes project))) in
      let imagesChanged :=
        negb (Nat.eqb (List.length newImages) (List.length (images project))) in
      if strokesChanged || imagesChanged
      then clearSelection
             (recordNewHistoryState (setCurrentContent st newStrokes newImages)
                                    newStrokes newImages)
      else st
  end.

(** [clearCanvas]; [confirmed] is the answer of [window.confirm]. *)
Definition clearCanvas (st : AppState) (confirmed : bool) : AppState :=
  match currentProject st with
  | None => st
  | Some _ =>
    if confirmed
    then clearSelection (setCurrentContent (recordNewHistoryState st [] []) [] [])
    else st
  end.

(* ================================================================== *)
(** ** Drawing a stroke *)

(** The tools whose strokes are polylines grown point by point. *)
Definition isFreehand (t : DrawingTool) : bool :=
  match t with
  | pen | eraser => true
  | _ => false
  end.

(** [newStroke] of [handleMouseDown]; [id_] is the value of
    [crypto.randomUUID()]. *)
Definition newStroke (id_ : string) (t : DrawingTool) (color_ : string)
           (lineWidth_ : R) (coords : Point) : Stroke :=
  mkStroke id_ (if isFreehand t then [coords] else [coords; coords])
           color_ lineWidth_ t.


(** One frame of [drawingAnimationLoop] on the stroke in progress, with
    [coords] the last pointer position; the result is the new
    [currentStrokeRef.current].  A freehand stroke without points throws on
    [lastPoint.x].  A shape without points would get [undefined] as its
    first point, which is not a value of [Stroke]: the model reports that
    case as the failure too. *)
Definition drawingFrame (current : Stroke) (coords : Point) : result Stroke :=
  if isFreehand (tool current) then
    let currentPoints := points current in
    match nth_error currentPoints (List.length currentPoints - 1) with
    | None => TypeError
    | Some lastPoint =>
      if negb (p_x lastPoint =? p_x coords) || negb (p_y lastPoint =? p_y coords)
      then Ok (mkStroke (id current) (currentPoints ++ [coords]) (color current)
                        (lineWidth current) (tool current))
      else Ok current
    end
  else
    match points current with
    | startPoint :: _ =>
      Ok (mkStroke (id current) [startPoint; coords] (color current)
                   (lineWidth current) (tool current))
    | [] => TypeError
    end.

(** The frames of a gesture, one per pointer position seen. *)
Fixpoint drawingFrames (current : Stroke) (moves : list Point) : result Stroke :=
  match moves with
  | [] => Ok current
  | coords :: rest =>
    match drawingFrame current coords with
    | Ok next => drawingFrames next rest
    | TypeError => TypeError
    end
  end.

(** [history[historyIndex] || { strokes: [], images: [] }] *)
Definition currentHistoryState (st : AppState) : Snapshot :=
  match nth_error (history st) (historyIndex st) with
  | Some snap => snap
  | None => mkSnapshot [] []
  end.

(** The stroke that the ['drawing'] case of [handleMouseUp] adds for a pen
    or shape: [Ok None] when the stroke is too small to keep. *)
Definition strokeToAdd (finishedStroke : Stroke) : result (option Stroke) :=
  if DrawingTool_eqb (tool finishedStroke) pen then
    if (1 <? List.length (points finishedStroke))%nat
    then Ok (Some finishedStroke) else Ok None
  else
    match points finishedStroke with
    | start :: end_ :: _ =>
      let distance := Num.hypot (p_x end_ - p_x start) (p_y end_ - p_y start) in
      if distance >? 2 then Ok (Some finishedStroke) else Ok None
    | _ => TypeError
    end.

Section FinishDrawing.

Variable randomUUID : nat -> string.

(** The ['drawing'] case of [handleMouseUp]. *)
Definition finishDrawing (st : AppState) (finishedStroke : Stroke) : result AppState :=
  match currentProject st with
  | None => Ok st
  | Some _ =>
    let current := currentHistoryState st in
    if DrawingTool_eqb (tool finishedStroke) eraser then
      if (1 <? List.length (points finishedStroke))%nat then
        let e := applyErasure randomUUID finishedStroke (snap_strokes current) in
        if (0 <? List.length (strokesToDelete e))%nat
           || (0 <? List.length (strokesToAdd e))%nat
        then
          let newStrokes :=
            filter (fun s => negb (set_has (strokesToDelete e) (id s)))
                   (snap_strokes current)
            ++ strokesToAdd e in
          Ok (setCurrentStrokes
                (recordNewHistoryState st newStrokes (snap_images current))
                newStrokes)
        else Ok st
      else Ok st
    else
      match strokeToAdd finishedStroke with
      | TypeError => TypeError
      | Ok None => Ok st
      | Ok (Some s) =>
        let newStrokes := snap_strokes current ++ [s] in
        Ok (setCurrentStrokes
              (recordNewHistoryState st newStrokes (snap_images current))
              newStrokes)
      end
  end.

End FinishDrawing.

(* ================================================================== *)
(** ** Committing a transform gesture *)

(** [new Map(finalStrokes.map(s => [s.id, s]))] *)
Definition strokesById (finalStrokes : list Stroke) : JsMap Stroke :=
  map_of (map (fun s => (id s, s)) finalStrokes).

(** [currentProject.strokes.map(s => finalStrokesById.get(s.id) || s)] *)
Definition updatedStrokes (projectStrokes finalStrokes : list Stroke) : list Stroke :=
  map (fun s => match map_get (strokesById finalStrokes) (id s) with
                | Some s' => s'
                | None => s
                end)
      projectStrokes.

(** The images after a drag: the selected ones move by the pointer's
    displacement from their stored transform. *)
Definition updatedImages (projectImages : list CanvasImage)
           (lastImageProperties : JsMap ImageTransform)
           (startState : TransformStart) (finalCoords : Point) : list CanvasImage :=
  let dx := p_x finalCoords - p_x (startPoint startState) in
  let dy := p_y finalCoords - p_y (startPoint startState) in
  map (fun img =>
         if match imageIds startState with
            | Some ids => set_has ids (img_id img)
            | None => false
            end
         then
           match map_get lastImageProperties (img_id img) with
           | Some initial =>
             mkCanvasImage (img_id img) (dataUrl img)
                           (mkImageTransform (t_x initial + dx) (t_y initial + dy)
                                             (t_width initial) (t_height initial)
                                             (t_rotation initial))
           | None => img
           end
         else img)
      projectImages.

(** The ['dragging'] / ['rotating-strokes'] / ['resizing-strokes'] case of
    [handleMouseUp]. *)
Definition finishTransform (st : AppState)
           (lastStrokeProperties : JsMap StrokeProperties)
           (lastImageProperties : JsMap ImageTransform)
           (finalCoords : option Point) (startState : option TransformStart)
           (currentAction : Action) : result AppState :=
  match currentProject st, finalCoords, startState with
  | Some project, Some coords, Some start =>
    match calculateTransformedStrokes (Some project) lastStrokeProperties coords
                                      (Some start) currentAction with
    | TypeError => TypeError
    | Ok finalStrokes =>
      let newStrokes := updatedStrokes (strokes project) finalStrokes in
      let newImages :=
        if Action_eqb currentAction dragging
        then updatedImages (images project) lastImageProperties start coords
        else images project in
      Ok (recordNewHistoryState (setCurrentContent st newStrokes newImages)
                                newStrokes newImages)
    end
  | _, _, _ => Ok st
  end.

(* ================================================================== *)
(** ** Finishing a marquee selection *)

(** The mouse event as [handleMouseUp] reads it.  React's event carries the
    DOM event as [nativeEvent]; the [new MouseEvent('mouseup')] that
    [handleMouseLeave] passes is a DOM event itself: it has no [nativeEvent]
    and its [shiftKey] is [false]. *)
Record NativeEvent : Type := mkNativeEvent { ctrlKey : bool; metaKey : bool }.
Record MouseEvent : Type := mkMouseEvent {
  shiftKey : bool;
  nativeEvent : option NativeEvent
}.

(** [new MouseEvent('mouseup')] *)
Definition mouseLeaveEvent : MouseEvent := mkMouseEvent false None.

(** [e.shiftKey || e.nativeEvent.ctrlKey || e.nativeEvent.metaKey]: the
    read of [ctrlKey] throws when [nativeEvent] is [undefined]. *)
Definition isMultiSelect (e : MouseEvent) : result bool :=
  if shiftKey e then Ok true
  else match nativeEvent e with
       | None => TypeError
       | Some n => Ok (ctrlKey n || metaKey n)
       end.

(** [new Set([...prev, ...ids])] *)
Definition set_union (prev : StringSet) (ids : list string) : StringSet :=
  fold_left set_add ids prev.

(** [setSelectedStrokeIds(...); setSelectedImageIds(...)] *)
Definition setSelection (st : AppState) (strokeIds_ imageIds_ : StringSet) : AppState :=
  mkAppState (projects st) (currentProjectId st) (history st) (historyIndex st)
             strokeIds_ imageIds_.

(** [strokesInRect] and [imagesInRect] *)
Definition strokesInRect (selectionRect : Rect) (project : Project) : list string :=
  map id
      (filter (fun stroke =>
                 if DrawingTool_eqb (tool stroke) eraser then false
                 else match getStrokeBounds stroke with
                      | Some strokeBounds => doRectsIntersect selectionRect strokeBounds
                      | None => false
                      end)
              (strokes project)).

Definition imagesInRect (selectionRect : Rect) (project : Project) : list string :=
  map img_id
      (filter (fun image =>
                 doRectsIntersect selectionRect
                                  (getTransformedImageBounds (transform image)))
              (images project)).

(** The ['selecting'] case of [handleMouseUp]; [selectionRect] is the state
    of that name, [null] as long as the pointer has not moved. *)
Definition finishSelecting (st : AppState) (selectionRect : option Rect)
           (e : MouseEvent) : result AppState :=
  match selectionRect, currentProject st with
  | Some rect, Some project =>
    match isMultiSelect e with
    | TypeError => TypeError
    | Ok true =>
      Ok (setSelection st
                       (set_union (selectedStrokeIds st) (strokesInRect rect project))
                       (set_union (selectedImageIds st) (imagesInRect rect project)))
    | Ok false =>
      Ok (setSelection st (set_union [] (strokesInRect rect project))
                       (set_union [] (imagesInRect rect project)))
    end
  | _, _ => Ok st
  end.

(* ================================================================== *)
(** ** Vocabulary of the properties *)

(** The words of the specification: Euclidean distance, the points of a
    segment, and being within a radius of a segment or of some segment of a
    polyline. *)
Module Spec.

Definition distance (p q : Point) : R :=
  sqrt ((p_x p - p_x q) ^ 2 + (p_y p - p_y q) ^ 2).

(** The point of parameter [t] on the segment from [a] to [b]. *)
Definition along (a b : Point) (t : R) : Point :=
  mkPoint (p_x a + t * (p_x b - p_x a)) (p_y a + t * (p_y b - p_y a)).

Definition withinOfSegment (p a b : Point) (radius : R) : Prop :=
  exists t, 0 <= t <= 1 /\ distance p (along a b t) < radius.

(** Some segment [(pts[i], pts[i+1])] of the path is within [radius]. *)
Definition withinOfPath (p : Point) (pts : list Point) (radius : R) : Prop :=
  exists i a b,
    nth_error pts i = Some a /\ nth_error pts (S i) = Some b
    /\ withinOfSegment p a b radius.

End Spec.

(** The number of points a tool needs to define a shape. *)
Definition requiredPoints (t : DrawingTool) : nat :=
  match t with
  | pen | eraser => 1
  | _ => 2
  end.

(** The store's invariant: the current index points at a snapshot. *)
Definition historyOk (st : AppState) : Prop :=
  (historyIndex st < List.length (history st))%nat.

(** *** The worked erasure example *)

(** The eraser of the example: one point at (15,0), line width 4. *)
Definition dotEraser : Stroke :=
  mkStroke "e" [mkPoint 15 0] "#000000" 4 eraser.

(** The pen stroke of the example: four points on the x axis, line width 2. *)
Definition axisStroke : Stroke :=
  mkStroke "s" [mkPoint 0 0; mkPoint 10 0; mkPoint 20 0; mkPoint 30 0]
           "#000000" 2 pen.

(** The line stroke from (0,0) to (30,0), line width 2. *)
Definition axisLine : Stroke :=
  mkStroke "l" [mkPoint 0 0; mkPoint 30 0] "#000000" 2 line.

(** The sample at whole distance [i] from the origin on the x axis. *)
Definition axisPoint (i : nat) : Point := mkPoint (ofNat i) 0.

(** *** Rectangles and points *)

(** The closed rectangle [r] contains [p]. *)
Definition inRect (p : Point) (r : Rect) : Prop :=
  r_x r <= p_x p <= r_x r + r_width r /\ r_y r <= p_y p <= r_y r + r_height r.

(** The rectangle [a] lies within [b]. *)
Definition rectWithin (a b : Rect) : Prop :=
  r_x b <= r_x a /\ r_x a + r_width a <= r_x b + r_width b
  /\ r_y b <= r_y a /\ r_y a + r_height a <= r_y b + r_height b.

(** The points of a stroke that its tool reads: all of them for a freehand
    stroke, the first two for a shape. *)
Definition definingPoints (s : Stroke) : list Point :=
  if isFreehand (tool s) then points s else firstn 2 (points s).

(** [p] is a point of the segment from [a] to [b]. *)
Definition onSegment (p a b : Point) : Prop :=
  exists t, 0 <= t <= 1 /\ p = Spec.along a b t.

(** The function folded by [getBounds]. *)
Definition boundsStep (acc : option Rect) (stroke : Stroke) : option Rect :=
  match getStrokeBounds stroke with
  | None => acc
  | Some strokeBounds =>
    match acc with
    | None => Some strokeBounds
    | Some a => Some (unionRect a strokeBounds)
    end
  end.

(** The corner handle diagonally opposite a corner handle. *)
Definition oppositeHandle (h : string) : string :=
  if String.eqb h "tl" then "br"%string
  else if String.eqb h "tr" then "bl"%string
  else if String.eqb h "bl" then "tr"%string
  else "tl"%string.

(** The square test of [getHandleAtPoint] for local coordinates [lx], [ly]. *)
Definition inHandleSquare (lx ly handleSize : R) (entry : string * Point) : bool :=
  let pos := snd entry in
  (lx >=? p_x pos - handleSize / 2) && (lx <=? p_x pos + handleSize / 2)
  && (ly >=? p_y pos - handleSize / 2) && (ly <=? p_y pos + handleSize / 2).

(** *** Erasure *)

(** The id given to the [k]-th replacement stroke of an erasure. *)
Definition fragmentId (randomUUID : nat -> string) (k : nat) : string :=
  String.append "stroke_" (randomUUID k).

(** A UUID source that never repeats, for examples: [k] strokes of a pen. *)
Fixpoint tally (k : nat) : string :=
  match k with
  | O => EmptyString
  | S k' => String "|" (tally k')
  end.

(** A finished fragment: at least two points, each with the property
    [kept]. *)
Definition goodFragment (kept : Point -> Prop) (frag : list Point) : Prop :=
  (2 <= List.length frag)%nat /\ Forall kept frag.

(** *** Strokes in progress and in the project *)

(** No two consecutive points of the list are equal. *)
Fixpoint noRepeat (pts : list Point) : Prop :=
  match pts with
  | a :: ((b :: _) as tl) => a <> b /\ noRepeat tl
  | _ => True
  end.

(** No stroke of the list is an eraser stroke. *)
Definition noEraser (l : list Stroke) : Prop :=
  forall s, In s l -> tool s <> eraser.

(** *** Sessions *)

(** The current project shows the current snapshot. *)
Definition inSync (st : AppState) : Prop :=
  forall p, currentProject st = Some p ->
            currentSnapshot st = Some (mkSnapshot (strokes p) (images p)).

(** What the user can do to the current project: finish a marquee
    selection, finish drawing a stroke (with the UUIDs drawn meanwhile),
    finish a transform gesture of strokes, delete the selection, clear the
    canvas, undo, redo.  Each one runs the handler of the program. *)
Inductive UserOp : Type :=
| OpSelect (selectionRect : option Rect) (e : MouseEvent)
| OpDraw (randomUUID : nat -> string) (finishedStroke : Stroke)
| OpTransform (lastStrokeProperties : JsMap StrokeProperties)
              (lastImageProperties : JsMap ImageTransform)
              (finalCoords : option Point) (startState : option TransformStart)
              (currentAction : Action)
| OpDeleteSelection
| OpClearCanvas (confirmed : bool)
| OpUndo
| OpRedo.

Definition runOp (st : AppState) (op : UserOp) : result AppState :=
  match op with
  | OpSelect selectionRect e => finishSelecting st selectionRect e
  | OpDraw randomUUID finishedStroke => finishDrawing randomUUID st finishedStroke
  | OpTransform props iprops coords start a =>
    finishTransform st props iprops coords start a
  | OpDeleteSelection => Ok (handleDeleteSelection st)
  | OpClearCanvas confirmed => Ok (clearCanvas st confirmed)
  | OpUndo => handleUndo st
  | OpRedo => handleRedo st
  end.

Fixpoint runOps (st : AppState) (ops : list UserOp) : result AppState :=
  match ops with
  | [] => Ok st
  | op :: rest =>
    match runOp st op with
    | Ok st' => runOps st' rest
    | TypeError => TypeError
    end
  end.

(** The operations as the user interface produces them: a marquee
    selection is finished by a mouse-up of React, whose event has its
    [nativeEvent] (not by the event that [handleMouseLeave] makes up), and a
    drawn stroke is as the drawing loop leaves it, a shape with its two
    points. *)
Definition drawnOp (op : UserOp) : Prop :=
  match op with
  | OpSelect _ e => nativeEvent e <> None
  | OpDraw _ finishedStroke =>
    isFreehand (tool finishedStroke) = true
    \/ (2 <= List.length (points finishedStroke))%nat
  | _ => True
  end.

(* ================================================================== *)
(** * Properties *)

(** ** Deciding the number comparisons *)

Lemma ltb_true (a b : R) : a < b -> (a <? b) = true.
Proof. intros H. unfold Num.ltb. destruct (Rlt_dec a b); [reflexivity | contradiction]. Qed.

Lemma ltb_false (a b : R) : b <= a -> (a <? b) = false.
Proof. intros H. unfold Num.ltb. destruct (Rlt_dec a b); [lra | reflexivity]. Qed.

Lemma ltb_iff (a b : R) : (a <? b) = true <-> a < b.
Proof.
  unfold Num.ltb. destruct (Rlt_dec a b); split; intros; try reflexivity;
    try assumption; try discriminate; contradiction.
Qed.

Lemma gtb_true (a b : R) : b < a -> (a >? b) = true.
Proof. apply ltb_true. Qed.

Lemma gtb_false (a b : R) : a <= b -> (a >? b) = false.
Proof. apply ltb_false. Qed.

Lemma eqb_refl (a : R) : (a =? a) = true.
Proof. unfold Num.eqb. destruct (Req_dec_T a a); [reflexivity | contradiction]. Qed.

Lemma eqb_true (a b : R) : a = b -> (a =? b) = true.
Proof. intros ->. apply eqb_refl. Qed.

Lemma eqb_false (a b : R) : a <> b -> (a =? b) = false.
Proof. intros H. unfold Num.eqb. destruct (Req_dec_T a b); [contradiction | reflexivity]. Qed.

Lemma eqb_iff (a b : R) : (a =? b) = true <-> a = b.
Proof.
  unfold Num.eqb. destruct (Req_dec_T a b); split; intros; try reflexivity;
    try assumption; try discriminate; contradiction.
Qed.

Lemma hypot_nonneg (a b : R) : 0 <= Num.hypot a b.
Proof. apply sqrt_pos. Qed.

Lemma hypot_horizontal (a : R) : 0 <= a -> Num.hypot a 0 = a.
Proof.
  intros H. unfold Num.hypot.
  replace (a ^ 2 + 0 ^ 2) with (a ^ 2) by ring. now apply sqrt_pow2.
Qed.

(* ================================================================== *)
(** ** The eraser test [isPointErased] *)

(** C10.  With an eraser stroke that has no points, [isPointErased] answers
    [false] for every query point and every point radius: the list is not of
    length one and the loop over segments has nothing to visit. *)
Theorem isPointErased_no_points :
  forall (id_ color_ : string) (lineWidth_ : R) (tool_ : DrawingTool)
         (point : Point) (pointRadius : R),
    isPointErased point (mkStroke id_ [] color_ lineWidth_ tool_) pointRadius = false.
Proof. intros. reflexivity. Qed.

Lemma sum_sq_nonneg (a b : R) : 0 <= a ^ 2 + b ^ 2.
Proof. nra. Qed.

Lemma sum_sq_zero (a b : R) : a ^ 2 + b ^ 2 = 0 -> a = 0 /\ b = 0.
Proof.
  intros H. split.
  - destruct (Rtotal_order a 0) as [Ha | [Ha | Ha]];
      [exfalso; nra | assumption | exfalso; nra].
  - destruct (Rtotal_order b 0) as [Hb | [Hb | Hb]];
      [exfalso; nra | assumption | exfalso; nra].
Qed.

(** Comparing a distance with a non-negative radius is comparing squares. *)
Lemma sqrt_lt_radius (d2 r : R) :
  0 <= d2 -> 0 <= r -> (sqrt d2 < r <-> d2 < r * r).
Proof.
  intros Hd Hr. split; intros H.
  - assert (Hs := sqrt_pos d2).
    rewrite <- (sqrt_sqrt d2 Hd). nra.
  - rewrite <- (sqrt_square r Hr).
    apply sqrt_lt_1; nra.
Qed.

Lemma distance_lt_radius (p q : Point) (r : R) :
  0 <= r ->
  (Spec.distance p q < r
   <-> (p_x p - p_x q) ^ 2 + (p_y p - p_y q) ^ 2 < r * r).
Proof. intros Hr. apply sqrt_lt_radius; [apply sum_sq_nonneg | assumption]. Qed.

(** [pDistanceToSegmentSquared] is attained on the segment ... *)
Lemma pDistance_attained (p a b : Point) :
  exists t, 0 <= t <= 1
            /\ pDistanceToSegmentSquared p a b
               = (p_x p - p_x (Spec.along a b t)) ^ 2
                 + (p_y p - p_y (Spec.along a b t)) ^ 2.
Proof.
  unfold pDistanceToSegmentSquared, Spec.along. cbn [p_x p_y].
  destruct (Num.eqb _ 0) eqn:E.
  - exists 0. split; [lra |]. f_equal; f_equal; ring.
  - set (t := _ / _). exists (Rmax 0 (Rmin 1 t)). split; [| reflexivity].
    split.
    + apply Rmax_l.
    + apply Rmax_lub; [lra | apply Rmin_l].
Qed.

(** ... and no point of the segment is closer. *)
Lemma pDistance_minimal (p a b : Point) (t : R) :
  0 <= t <= 1 ->
  pDistanceToSegmentSquared p a b
  <= (p_x p - p_x (Spec.along a b t)) ^ 2 + (p_y p - p_y (Spec.along a b t)) ^ 2.
Proof.
  intros Ht. unfold pDistanceToSegmentSquared, Spec.along. cbn [p_x p_y].
  destruct p as [px py], a as [ax ay], b as [bx by_]. cbn [p_x p_y].
  destruct (Num.eqb _ 0) eqn:E.
  - apply eqb_iff in E.
    apply sum_sq_zero in E. destruct E.
    replace bx with ax by lra. replace by_ with ay by lra.
    right. ring.
  - assert (Hne : (ax - bx) ^ 2 + (ay - by_) ^ 2 <> 0).
    { intros H. rewrite (eqb_true _ _ H) in E. discriminate. }
    set (l2 := (ax - bx) ^ 2 + (ay - by_) ^ 2) in *.
    assert (Hl2 : 0 < l2).
    { destruct (sum_sq_nonneg (ax - bx) (ay - by_)) as [H | H];
        [exact H | exfalso; apply Hne; symmetry; exact H]. }
    set (s := (px - ax) * (bx - ax) + (py - ay) * (by_ - ay)).
    assert (Hs : s / l2 * l2 = s) by (field; lra).
    set (ts := s / l2) in *.
    assert (Hl2' : l2 = (bx - ax) ^ 2 + (by_ - ay) ^ 2) by (unfold l2; ring).
    set (t0 := Rmax 0 (Rmin 1 ts)).
    (* the difference of the two squared distances *)
    assert (Hdiff :
              (px - (ax + t * (bx - ax))) ^ 2 + (py - (ay + t * (by_ - ay))) ^ 2
              - ((px - (ax + t0 * (bx - ax))) ^ 2 + (py - (ay + t0 * (by_ - ay))) ^ 2)
              = (t - t0) * ((t + t0) * l2 - 2 * s)).
    { rewrite Hl2'. unfold s. ring. }
    assert (Hgoal : 0 <= (t - t0) * ((t + t0) * l2 - 2 * s)).
    { rewrite <- Hs. unfold t0.
      destruct (Rle_dec ts 0) as [Hlo | Hlo].
      - (* clamped at 0 *)
        rewrite Rmin_right by lra. rewrite Rmax_left by lra.
        assert (0 <= t * l2) by nra. assert (0 <= - (ts * l2)) by nra. nra.
      - destruct (Rle_dec 1 ts) as [Hhi | Hhi].
        + (* clamped at 1 *)
          rewrite Rmin_left by lra. rewrite Rmax_right by lra.
          assert (l2 <= ts * l2) by nra.
          assert (0 <= (1 - t) * l2) by nra. nra.
        + (* the projection falls inside *)
          rewrite Rmin_right by lra. rewrite Rmax_right by lra.
          replace ((t - ts) * ((t + ts) * l2 - 2 * (ts * l2)))
            with (l2 * (t - ts) ^ 2) by ring.
          apply Rmult_le_pos; [lra | apply pow2_ge_0]. }
    lra.
Qed.

(** The segment test of the code against the specification's words. *)
Lemma pDistance_lt_iff (p a b : Point) (r : R) :
  0 <= r ->
  (pDistanceToSegmentSquared p a b < r * r <-> Spec.withinOfSegment p a b r).
Proof.
  intros Hr. unfold Spec.withinOfSegment. split.
  - intros H. destruct (pDistance_attained p a b) as [t [Ht Heq]].
    exists t. split; [assumption |].
    apply distance_lt_radius; [assumption |]. rewrite <- Heq. assumption.
  - intros [t [Ht Hd]].
    apply distance_lt_radius in Hd; [| assumption].
    eapply Rle_lt_trans; [apply (pDistance_minimal p a b t Ht) | exact Hd].
Qed.

(** [anySegment] finds a test-passing pair of neighbours. *)
Lemma anySegment_iff (test : Point -> Point -> bool) (pts : list Point) :
  anySegment test pts = true
  <-> exists i a b, nth_error pts i = Some a /\ nth_error pts (S i) = Some b
                    /\ test a b = true.
Proof.
  induction pts as [| a [| b tl] IH].
  - cbn. split; [discriminate |]. intros (i & a & b & H & _). destruct i; discriminate.
  - cbn. split; [discriminate |].
    intros (i & x & y & _ & H & _). destruct i as [| [| i]]; discriminate.
  - change (anySegment test (a :: b :: tl))
      with (test a b || anySegment test (b :: tl)).
    rewrite orb_true_iff, IH. split.
    + intros [H | (i & x & y & Hx & Hy & Ht)].
      * exists 0%nat, a, b. auto.
      * exists (S i), x, y. auto.
    + intros (i & x & y & Hx & Hy & Ht). destruct i as [| i].
      * cbn in Hx, Hy. inversion Hx; inversion Hy; subst. now left.
      * right. exists i, x, y. auto.
Qed.

(** C7.  For a non-negative combined radius [lineWidth/2 + pointRadius]:
    with an eraser stroke of exactly one point, [isPointErased] is [true]
    exactly when the query point is within that radius of the point (a
    static circle); with two or more points it is [true] exactly when the
    query point is within that radius of at least one segment of the
    eraser's polyline. *)
Theorem isPointErased_circle_or_capsule_path :
  forall (point : Point) (eraserStroke : Stroke) (pointRadius : R),
    0 <= lineWidth eraserStroke / 2 + pointRadius ->
    (forall p, points eraserStroke = [p] ->
               (isPointErased point eraserStroke pointRadius = true
                <-> Spec.distance point p < lineWidth eraserStroke / 2 + pointRadius))
    /\ ((2 <= List.length (points eraserStroke))%nat ->
        (isPointErased point eraserStroke pointRadius = true
         <-> Spec.withinOfPath point (points eraserStroke)
                               (lineWidth eraserStroke / 2 + pointRadius))).
Proof.
  intros point e r Hr. split.
  - intros p Hp. unfold isPointErased. rewrite Hp.
    rewrite ltb_iff. symmetry. now apply distance_lt_radius.
  - intros Hlen. unfold isPointErased, Spec.withinOfPath.
    destruct (points e) as [| a [| b tl]] eqn:Hp; cbn in Hlen; try lia.
    rewrite anySegment_iff. split.
    + intros (i & x & y & Hx & Hy & Ht). exists i, x, y.
      repeat split; try assumption.
      apply pDistance_lt_iff; [assumption |]. now apply ltb_iff.
    + intros (i & x & y & Hx & Hy & Ht). exists i, x, y.
      repeat split; try assumption.
      apply ltb_iff. now apply pDistance_lt_iff.
Qed.

Lemma isPointErased_circle_or_capsule_path_witness :
  let e := mkStroke "e" [mkPoint 15 0] "#000" 4 eraser in
  0 <= lineWidth e / 2 + 1
  /\ (isPointErased (mkPoint 14 0) e 1 = true
      <-> Spec.distance (mkPoint 14 0) (mkPoint 15 0) < lineWidth e / 2 + 1).
Proof.
  intros e. split.
  - cbn. lra.
  - apply (isPointErased_circle_or_capsule_path (mkPoint 14 0) e 1).
    + cbn. lra.
    + reflexivity.
Defined.

(* ================================================================== *)
(** ** Strokes with too few points *)

(** [getStrokeBounds] answers [null] on every stroke with too few points. *)
Lemma getStrokeBounds_too_few_points (stroke : Stroke) :
  (List.length (points stroke) < requiredPoints (tool stroke))%nat ->
  getStrokeBounds stroke = None.
Proof.
  unfold getStrokeBounds, requiredPoints.
  destruct (points stroke) as [| p0 [| p1 rest]]; destruct (tool stroke);
    cbn; intros H; try reflexivity; lia.
Qed.

(** The polyline tools answer [false]: their loop has no segment to test. *)
Lemma isPointOnStroke_polyline_too_few_points (point : Point) (stroke : Stroke)
      (tolerance : R) :
  tool stroke = pen \/ tool stroke = line \/ tool stroke = dashed_line
  \/ tool stroke = eraser ->
  (List.length (points stroke) < 2)%nat ->
  isPointOnStroke point stroke tolerance = Ok false.
Proof.
  unfold isPointOnStroke.
  intros [H | [H | [H | H]]] Hlen; rewrite H;
    destruct (points stroke) as [| p0 [| p1 rest]]; cbn in Hlen; try lia;
      reflexivity.
Qed.

(** The rectangle, triangle and circle cases destructure two points without
    a length check and throw when one is missing. *)
Lemma isPointOnStroke_shape_too_few_points (point : Point) (stroke : Stroke)
      (tolerance : R) :
  tool stroke = rectangle \/ tool stroke = triangle \/ tool stroke = circle ->
  (List.length (points stroke) < 2)%nat ->
  isPointOnStroke point stroke tolerance = TypeError.
Proof.
  unfold isPointOnStroke.
  intros [H | [H | H]] Hlen; rewrite H;
    destruct (points stroke) as [| p0 [| p1 rest]]; cbn in Hlen; try lia;
      reflexivity.
Qed.

(** C2, on the code.  A rectangle stroke with the single point (0,0): its
    bounds are [null] as the claim says, but the hit test throws a
    [TypeError] for every query point and tolerance instead of answering
    [false]. *)
Theorem isPointOnStroke_one_point_rectangle_throws :
  forall (point : Point) (tolerance : R),
    let stroke := mkStroke "r1" [mkPoint 0 0] "#000000" 2 rectangle in
    getStrokeBounds stroke = None
    /\ isPointOnStroke point stroke tolerance = TypeError
    /\ isPointOnStroke point stroke tolerance <> Ok false.
Proof.
  intros point tolerance stroke. repeat split.
  intros H. cbn in H. discriminate.
Qed.

(* ================================================================== *)
(** ** History store *)

Lemma resetHistory_ok (st : AppState) (s : list Stroke) (i : list CanvasImage) :
  historyOk (resetHistory st s i).
Proof. unfold historyOk. cbn. lia. Qed.

Lemma recordNewHistoryState_history (st : AppState) (s : list Stroke)
      (i : list CanvasImage) :
  historyOk st ->
  history (recordNewHistoryState st s i)
  = firstn (historyIndex st + 1) (history st) ++ [mkSnapshot s i]
  /\ List.length (history (recordNewHistoryState st s i)) = (historyIndex st + 2)%nat
  /\ historyIndex (recordNewHistoryState st s i) = (historyIndex st + 1)%nat.
Proof.
  unfold historyOk. intros H. cbn. repeat split.
  rewrite length_app, firstn_length_le by lia. cbn. lia.
Qed.

Lemma recordNewHistoryState_ok (st : AppState) (s : list Stroke)
      (i : list CanvasImage) :
  historyOk st -> historyOk (recordNewHistoryState st s i).
Proof.
  intros H. destruct (recordNewHistoryState_history st s i H) as (_ & Hl & Hi).
  unfold historyOk. rewrite Hl, Hi. lia.
Qed.

(** Committing makes the new snapshot the current one. *)
Lemma recordNewHistoryState_current (st : AppState) (s : list Stroke)
      (i : list CanvasImage) :
  historyOk st ->
  currentSnapshot (recordNewHistoryState st s i) = Some (mkSnapshot s i).
Proof.
  unfold historyOk, currentSnapshot. intros H. cbn.
  rewrite nth_error_app2; rewrite firstn_length_le by lia; [| lia].
  replace (historyIndex st + 1 - (historyIndex st + 1))%nat with 0%nat by lia.
  reflexivity.
Qed.

Lemma goTo_ok (st : AppState) (n : nat) :
  (n < List.length (history st))%nat ->
  exists st', goTo st n = Ok st'
              /\ history st' = history st /\ historyIndex st' = n
              /\ currentSnapshot st' = nth_error (history st) n.
Proof.
  intros H. unfold goTo.
  destruct (nth_error (history st) n) as [snap |] eqn:E.
  - eexists. split; [reflexivity |]. cbn. repeat split.
    unfold currentSnapshot. cbn. assumption.
  - apply nth_error_None in E. lia.
Qed.

(** Undo and redo keep the invariant and never throw under it. *)
Lemma handleUndo_ok (st : AppState) :
  historyOk st -> exists st', handleUndo st = Ok st' /\ historyOk st'.
Proof.
  unfold historyOk, handleUndo. intros H.
  destruct (Nat.ltb_spec 0 (historyIndex st)).
  - destruct (goTo_ok st (historyIndex st - 1)) as (st' & E & Hh & Hi & _); [lia |].
    exists st'. split; [assumption |]. rewrite Hh, Hi. lia.
  - exists st. auto.
Qed.

Lemma handleRedo_ok (st : AppState) :
  historyOk st -> exists st', handleRedo st = Ok st' /\ historyOk st'.
Proof.
  unfold historyOk, handleRedo. intros H.
  destruct (Z.ltb_spec (Z.of_nat (historyIndex st))
                       (Z.of_nat (List.length (history st)) - 1)).
  - destruct (goTo_ok st (historyIndex st + 1)) as (st' & E & Hh & Hi & _); [lia |].
    exists st'. split; [assumption |]. rewrite Hh, Hi. lia.
  - exists st. auto.
Qed.

(** C3.  From a history state whose index points at a snapshot: commit [A],
    commit [B], undo, and the current snapshot is [A]; a commit of [C] then
    drops [B] (the history is the old prefix, [A], [C]), the current
    snapshot is [C], and redo changes nothing. *)
Theorem history_is_linear :
  forall (st : AppState) (A B C : Snapshot),
    (historyIndex st < List.length (history st))%nat ->
    let sA := recordNewHistoryState st (snap_strokes A) (snap_images A) in
    let sB := recordNewHistoryState sA (snap_strokes B) (snap_images B) in
    exists sU,
      handleUndo sB = Ok sU
      /\ currentSnapshot sU = Some A
      /\ historyIndex sU = (historyIndex st + 1)%nat
      /\ let sC := recordNewHistoryState sU (snap_strokes C) (snap_images C) in
         history sC = firstn (historyIndex st + 1) (history st) ++ [A; C]
         /\ currentSnapshot sC = Some C
         /\ handleRedo sC = Ok sC.
Proof.
  intros st A B C Hok sA sB.
  assert (HokA : historyOk sA) by now apply recordNewHistoryState_ok.
  assert (HokB : historyOk sB) by now apply recordNewHistoryState_ok.
  destruct (recordNewHistoryState_history st (snap_strokes A) (snap_images A) Hok)
    as (HhA & HlA & HiA).
  destruct (recordNewHistoryState_history sA (snap_strokes B) (snap_images B) HokA)
    as (HhB & HlB & HiB).
  fold sA in HhA, HlA, HiA. fold sB in HhB, HlB, HiB.
  assert (HA : mkSnapshot (snap_strokes A) (snap_images A) = A) by now destruct A.
  assert (HC : mkSnapshot (snap_strokes C) (snap_images C) = C) by now destruct C.
  assert (Hpre : List.length (firstn (historyIndex st + 1) (history st))
                 = (historyIndex st + 1)%nat)
    by (apply firstn_length_le; lia).
  (* the history after the two commits: the old prefix, then A, then B *)
  assert (HhB' : history sB
                 = firstn (historyIndex st + 1) (history st) ++ [A]
                   ++ [mkSnapshot (snap_strokes B) (snap_images B)]).
  { rewrite HhB, HiA, HhA, HA.
    rewrite firstn_all2 by (rewrite length_app, Hpre; cbn; lia).
    now rewrite <- app_assoc. }
  unfold handleUndo. rewrite HiB, HiA.
  replace (0 <? historyIndex st + 1 + 1)%nat with true
    by (symmetry; apply Nat.ltb_lt; lia).
  replace (historyIndex st + 1 + 1 - 1)%nat with (historyIndex st + 1)%nat by lia.
  destruct (goTo_ok sB (historyIndex st + 1)) as (sU & EU & HhU & HiU & HcU);
    [rewrite HlB, HiA; lia |].
  exists sU. split; [assumption |].
  assert (HcurU : currentSnapshot sU = Some A).
  { rewrite HcU, HhB'. rewrite nth_error_app2 by lia.
    rewrite Hpre, Nat.sub_diag. reflexivity. }
  split; [assumption |]. split; [assumption |].
  assert (HokU : historyOk sU).
  { unfold historyOk. rewrite HhU, HiU, HlB, HiA. lia. }
  destruct (recordNewHistoryState_history sU (snap_strokes C) (snap_images C) HokU)
    as (HhC & HlC & HiC).
  cbv zeta. split; [| split].
  - rewrite HhC, HC, HiU, HhU, HhB'.
    rewrite app_assoc.
    rewrite firstn_app. rewrite length_app, Hpre. cbn [List.length].
    replace (historyIndex st + 1 + 1 - (historyIndex st + 1 + 1))%nat with 0%nat by lia.
    rewrite firstn_O, app_nil_r.
    rewrite firstn_all2 by (rewrite length_app, Hpre; cbn; lia).
    now rewrite <- app_assoc.
  - rewrite recordNewHistoryState_current by assumption. now rewrite HC.
  - unfold handleRedo. rewrite HlC, HiC.
    replace (Z.of_nat (historyIndex sU + 1) <? Z.of_nat (historyIndex sU + 2) - 1)%Z
      with false by (symmetry; apply Z.ltb_ge; lia).
    reflexivity.
Qed.

Lemma history_is_linear_witness :
  let st := resetHistory (mkAppState [] None [] 0 [] []) [] [] in
  let A := mkSnapshot [mkStroke "a" [] "#000000" 1 pen] [] in
  let B := mkSnapshot [mkStroke "b" [] "#000000" 1 pen] [] in
  let C := mkSnapshot [mkStroke "c" [] "#000000" 1 pen] [] in
  (historyIndex st < List.length (history st))%nat
  /\ exists sU,
      handleUndo (recordNewHistoryState
                    (recordNewHistoryState st (snap_strokes A) (snap_images A))
                    (snap_strokes B) (snap_images B)) = Ok sU
      /\ currentSnapshot sU = Some A.
Proof.
  intros st A B C. split.
  - cbn. lia.
  - destruct (history_is_linear st A B C) as (sU & H1 & H2 & _).
    + cbn. lia.
    + exists sU. split; assumption.
Defined.

(* ================================================================== *)
(** ** Single-image resize *)

Lemma isCornerHandle_cases (h : string) :
  isCornerHandle h = true ->
  h = "tr"%string \/ h = "tl"%string \/ h = "br"%string \/ h = "bl"%string.
Proof.
  unfold isCornerHandle. rewrite !orb_true_iff, !String.eqb_eq. tauto.
Qed.

(** The preview and the committed transform are the same computation. *)
Lemma previewImageTransform_eq_final (a : Action) (st : TransformStart)
      (coords : Point) :
  truthy (handle st) = true ->
  previewImageTransform a st coords = finalImageTransform a st coords.
Proof.
  intros Hh. unfold previewImageTransform, finalImageTransform.
  rewrite Hh. destruct a, (initialTransform st), (truthy (imageId st)); reflexivity.
Qed.

(** Before the two minimum clamps the proposed size has the original aspect
    ratio (stated without division: [w' * height = h' * width]). *)
Lemma proposedSize_aspect (it : ImageTransform) (h : string)
      (startPoint_ finalCoords : Point) :
  isCornerHandle h = true ->
  0 < t_width it -> 0 < t_height it ->
  fst (proposedSize it (Some h) startPoint_ finalCoords) * t_height it
  = snd (proposedSize it (Some h) startPoint_ finalCoords) * t_width it.
Proof.
  intros Hc Hw Hh. unfold proposedSize. rewrite Hc.
  destruct (String.eqb h "tr"), (String.eqb h "tl"), (String.eqb h "br"),
    (String.eqb h "bl");
    match goal with
    | |- context [if ?c then _ else _] => destruct c
    end; cbn [fst snd]; field; lra.
Qed.

Lemma resizedImageTransform_size (it : ImageTransform) (h : option string)
      (startPoint_ finalCoords : Point) :
  t_width (resizedImageTransform it h startPoint_ finalCoords)
  = Rmax 20 (fst (proposedSize it h startPoint_ finalCoords))
  /\ t_height (resizedImageTransform it h startPoint_ finalCoords)
     = Rmax 20 (snd (proposedSize it h startPoint_ finalCoords)).
Proof.
  unfold resizedImageTransform.
  destruct (proposedSize it h startPoint_ finalCoords) as [w' h']. cbn. auto.
Qed.

(** C4, as the code has it.  For a resize from any corner handle of an image
    of positive width and height: the committed width and height are never
    below 20, and the aspect ratio is preserved whenever neither minimum
    clamp applies, that is whenever the aspect-derived width and height are
    both at least 20 -- in particular whenever the committed width and
    height are both above 20. *)
Theorem resize_image_min_size_and_aspect :
  forall (st : TransformStart) (it : ImageTransform) (h id_ : string)
         (finalCoords : Point),
    initialTransform st = Some it ->
    handle st = Some h ->
    isCornerHandle h = true ->
    imageId st = Some id_ -> id_ <> EmptyString ->
    0 < t_width it -> 0 < t_height it ->
    exists ft,
      finalImageTransform resizing_image st finalCoords = Some ft
      /\ 20 <= t_width ft /\ 20 <= t_height ft
      /\ (20 <= fst (proposedSize it (Some h) (startPoint st) finalCoords) ->
          20 <= snd (proposedSize it (Some h) (startPoint st) finalCoords) ->
          t_width ft / t_height ft = t_width it / t_height it)
      /\ (20 < t_width ft -> 20 < t_height ft ->
          t_width ft / t_height ft = t_width it / t_height it).
Proof.
  intros st it h id_ fc Hit Hh Hc Hid Hne Hw Hht.
  unfold finalImageTransform. rewrite Hit, Hid, Hh.
  replace (truthy (Some id_)) with true by (destruct id_; [contradiction | reflexivity]).
  eexists. split; [reflexivity |].
  destruct (resizedImageTransform_size it (Some h) (startPoint st) fc) as [Ew Eh].
  assert (Hasp := proposedSize_aspect it h (startPoint st) fc Hc Hw Hht).
  rewrite Ew, Eh.
  set (w' := fst (proposedSize it (Some h) (startPoint st) fc)) in *.
  set (h' := snd (proposedSize it (Some h) (startPoint st) fc)) in *.
  assert (Hratio : 20 <= w' -> 20 <= h' ->
                   Rmax 20 w' / Rmax 20 h' = t_width it / t_height it).
  { intros H1 H2. rewrite !Rmax_right by assumption.
    apply (Rmult_eq_reg_r (h' * t_height it)); [| nra].
    field_simplify; [| lra | lra]. lra. }
  split; [apply Rmax_l |]. split; [apply Rmax_l |]. split; [exact Hratio |].
  intros H1 H2. apply Hratio.
  - unfold Rmax in H1. destruct (Rle_dec 20 w'); lra.
  - unfold Rmax in H2. destruct (Rle_dec 20 h'); lra.
Qed.

(** A 100 x 50 image, unrotated, shrunk from its bottom-right handle by a
    pointer move of 70 to the left: the aspect step proposes 30 x 15. *)
Lemma proposedSize_shrink_example :
  proposedSize (mkImageTransform 0 0 100 50 0) (Some "br"%string)
               (mkPoint 0 0) (mkPoint (-70) 0) = (30, 15).
Proof.
  unfold proposedSize.
  cbn [t_width t_height t_rotation p_x p_y].
  rewrite Ropp_0, sin_0, cos_0.
  change (isCornerHandle "br") with true.
  change (String.eqb "br" "tr") with false.
  change (String.eqb "br" "tl") with false.
  change (String.eqb "br" "br") with true.
  cbv iota.
  rewrite gtb_true.
  - f_equal; field.
  - rewrite !Rabs_left1 by lra. lra.
Qed.

(** C4 fails as stated: on that gesture the height is clamped from 15 up to
    20 while the width stays 30, so the committed ratio is 30/20 and not the
    original 100/50. *)
Lemma resize_image_clamp_breaks_aspect :
  let it := mkImageTransform 0 0 100 50 0 in
  let st := mkTransformStart (mkPoint 0 0) (Some it) None None (Some "br"%string)
                             (Some "img1"%string) None None in
  exists ft,
    finalImageTransform resizing_image st (mkPoint (-70) 0) = Some ft
    /\ t_width ft = 30 /\ t_height ft = 20
    /\ t_width ft / t_height ft <> t_width it / t_height it.
Proof.
  intros it st. eexists. split; [reflexivity |].
  destruct (resizedImageTransform_size it (Some "br"%string) (mkPoint 0 0)
                                       (mkPoint (-70) 0)) as [Ew Eh].
  cbn [startPoint handle st].
  unfold it in *. rewrite proposedSize_shrink_example in Ew, Eh. cbn [fst snd] in Ew, Eh.
  rewrite Rmax_right in Ew by lra. rewrite Rmax_left in Eh by lra.
  rewrite Ew, Eh. cbn [t_width t_height]. repeat split. lra.
Qed.

Lemma resize_image_min_size_and_aspect_witness :
  let it := mkImageTransform 0 0 100 50 0 in
  let st := mkTransformStart (mkPoint 0 0) (Some it) None None (Some "br"%string)
                             (Some "img1"%string) None None in
  exists ft,
    finalImageTransform resizing_image st (mkPoint 20 10) = Some ft
    /\ 20 <= t_width ft /\ 20 <= t_height ft.
Proof.
  intros it st.
  destruct (resize_image_min_size_and_aspect st it "br" "img1" (mkPoint 20 10))
    as (ft & E & Hw & Hh & _).
  - reflexivity.
  - reflexivity.
  - reflexivity.
  - reflexivity.
  - discriminate.
  - cbn. lra.
  - cbn. lra.
  - exists ft. auto.
Defined.

(* ================================================================== *)
(** ** Stroke transforms *)

(** At the gesture start point every gesture has the identity parameters. *)
Lemma gestureParams_at_start (st : TransformStart) (a : Action) :
  isIdentity (gestureParams (startPoint st) st a) = true.
Proof.
  assert (Hid : isIdentity identityParams = true).
  { unfold isIdentity, identityParams. cbn [g_dx g_dy g_rotation g_scale].
    now rewrite !eqb_refl. }
  unfold gestureParams.
  destruct a; try exact Hid.
  - (* dragging *)
    unfold isIdentity. cbn [g_dx g_dy g_rotation g_scale].
    rewrite !eqb_refl, !eqb_true by ring. reflexivity.
  - (* rotating-strokes *)
    destruct (selectionCenter st); [| exact Hid].
    unfold isIdentity. cbn [g_dx g_dy g_rotation g_scale].
    rewrite !eqb_refl, !eqb_true by ring. reflexivity.
  - (* resizing-strokes *)
    destruct (initialBounds st) as [b |], (handle st) as [h |]; try exact Hid.
    destruct (negb (truthy (Some h))); [exact Hid |].
    match goal with |- context [?d >? 0] => destruct (d >? 0) eqn:E end.
    + apply ltb_iff in E.
      unfold isIdentity. cbn [g_dx g_dy g_rotation g_scale].
      rewrite !eqb_refl.
      rewrite (eqb_true (Rmax _ _) 1); [reflexivity |].
      unfold Rdiv at 2. rewrite Rinv_r by lra. apply Rmax_right. lra.
    + unfold isIdentity. cbn [g_dx g_dy g_rotation g_scale].
      now rewrite !eqb_refl.
Qed.

(** C9.  When the current pointer position is the gesture start point,
    [calculateTransformedStrokes] returns, for every action and every target
    set, exactly the project's strokes whose id is in the target set, as
    they are (no stroke in the set when the start state has none). *)
Theorem calculateTransformedStrokes_identity_at_start :
  forall (project : Project) (lastStrokeProperties : JsMap StrokeProperties)
         (st : TransformStart) (a : Action),
    calculateTransformedStrokes (Some project) lastStrokeProperties
                                (startPoint st) (Some st) a
    = Ok (filter (fun s => match strokeIds st with
                           | Some ids => set_has ids (id s)
                           | None => false
                           end)
                 (strokes project)).
Proof.
  intros project props st a. unfold calculateTransformedStrokes.
  now rewrite gestureParams_at_start.
Qed.

(** The anchor of a resize is the corner opposite the grabbed handle. *)
Lemma resizeAnchor_opposite (b : Rect) :
  resizeAnchor b "tr" = mkPoint (r_x b) (r_y b + r_height b)
  /\ resizeAnchor b "tl" = mkPoint (r_x b + r_width b) (r_y b + r_height b)
  /\ resizeAnchor b "br" = mkPoint (r_x b) (r_y b)
  /\ resizeAnchor b "bl" = mkPoint (r_x b + r_width b) (r_y b).
Proof. repeat split. Qed.

(** The parameters of a resize gesture: scaling about the anchor only. *)
Lemma gestureParams_resize (cur : Point) (st : TransformStart) (b : Rect)
      (h : string) :
  initialBounds st = Some b -> handle st = Some h -> h <> EmptyString ->
  let g := gestureParams cur st resizing_strokes in
  g_anchor g = Some (resizeAnchor b h)
  /\ g_dx g = 0 /\ g_dy g = 0 /\ g_rotation g = 0 /\ 1 / 100 <= g_scale g.
Proof.
  intros Hb Hh Hne. unfold gestureParams. rewrite Hb, Hh.
  replace (truthy (Some h)) with true by (destruct h; [contradiction | reflexivity]).
  cbn [negb].
  match goal with |- context [?d >? 0] => destruct (d >? 0) end;
    cbn [g_anchor g_dx g_dy g_rotation g_scale].
  - repeat split. apply Rmax_l.
  - repeat split. lra.
Qed.

(** Scaling about the anchor fixes the anchor, whatever the scale. *)
Lemma transformPoint_fixes_anchor (anchor : Point) (scale : R)
      (center : option Point) :
  transformPoint (mkGestureParams 0 0 0 scale (Some anchor)) center anchor = anchor.
Proof.
  unfold transformPoint. cbn [g_anchor g_scale g_rotation g_dx g_dy].
  rewrite eqb_refl. cbn [negb].
  destruct anchor as [ax ay]. cbn [p_x p_y].
  destruct (negb (scale =? 1)); destruct center; f_equal; ring.
Qed.

(** The same map as [scalePoint] of the geometry library, whose origin is
    its fixed point. *)
Lemma scalePoint_origin (origin : Point) (scale : R) :
  scalePoint origin origin scale = origin.
Proof. destruct origin as [ox oy]. unfold scalePoint. cbn [p_x p_y]. f_equal; ring. Qed.

Lemma transformPoint_is_scalePoint (anchor p : Point) (scale : R)
      (center : option Point) :
  transformPoint (mkGestureParams 0 0 0 scale (Some anchor)) center p
  = scalePoint p anchor scale.
Proof.
  unfold transformPoint, scalePoint. cbn [g_anchor g_scale g_rotation g_dx g_dy].
  rewrite eqb_refl. cbn [negb]. destruct p as [x y]. cbn [p_x p_y].
  destruct (scale =? 1) eqn:E; cbn [negb].
  - apply eqb_iff in E. subst scale. destruct center; f_equal; ring.
  - destruct center; f_equal; ring.
Qed.

(** A resize leaves every stroke's tool alone and maps its stored points
    one by one. *)
Lemma transformStroke_resize (ps : list Stroke) (props : JsMap StrokeProperties)
      (g : GestureParams) (st : TransformStart) (id_ : string) (s' : Stroke) :
  transformStroke ps props g st resizing_strokes id_ = Ok (Some s') ->
  exists s op,
    find (fun x => String.eqb (id x) id_) ps = Some s
    /\ map_get props id_ = Some op
    /\ s' = mkStroke (id s)
                     (map (transformPoint g (selectionCenter st)) (sp_points op))
                     (color s) (sp_lineWidth op * g_scale g) (tool s).
Proof.
  unfold transformStroke.
  destruct (find _ ps) as [s |]; [| discriminate].
  destruct (map_get props id_) as [op |]; [| discriminate].
  cbn [Action_eqb andb]. intros H. inversion H; subst. eauto.
Qed.

(** C6.  In a stroke-resize gesture the anchor is the corner of the initial
    bounds diagonally opposite the grabbed handle: whichever of the four
    handles of [selectionCorners] was grabbed, the anchor is the corner of
    the bounds that carries the opposite handle, the mirror image through
    the centre of the bounds of the corner that carries the grabbed one.
    The anchor is a fixed point of the per-point map: for the gesture's own
    scale and for any scale factor a point at the anchor maps to itself, so
    every stored point of a resized stroke that lies at the anchor keeps its
    coordinates. *)
Theorem resize_anchor_is_fixed_point :
  forall (cur : Point) (st : TransformStart) (b : Rect) (h : string),
    initialBounds st = Some b -> handle st = Some h -> h <> EmptyString ->
    let g := gestureParams cur st resizing_strokes in
    let anchor := resizeAnchor b h in
    (forall padding pos,
        In (h, pos) (selectionCorners b padding) ->
        exists corner,
          In (h, corner) (selectionCorners b 0)
          /\ In (oppositeHandle h, anchor) (selectionCorners b 0)
          /\ p_x anchor + p_x corner = 2 * r_x b + r_width b
          /\ p_y anchor + p_y corner = 2 * r_y b + r_height b
          /\ (h = "tl"%string ->
              anchor = mkPoint (r_x b + r_width b) (r_y b + r_height b))
          /\ (h = "tr"%string -> anchor = mkPoint (r_x b) (r_y b + r_height b))
          /\ (h = "bl"%string -> anchor = mkPoint (r_x b + r_width b) (r_y b))
          /\ (h = "br"%string -> anchor = mkPoint (r_x b) (r_y b)))
    /\ g_anchor g = Some anchor
    /\ transformPoint g (selectionCenter st) anchor = anchor
    /\ (forall scale center,
           transformPoint (mkGestureParams 0 0 0 scale (Some anchor)) center anchor
           = anchor)
    /\ (forall ps props id_ s',
           transformStroke ps props g st resizing_strokes id_ = Ok (Some s') ->
           exists op,
             map_get props id_ = Some op
             /\ forall i, nth_error (sp_points op) i = Some anchor ->
                          nth_error (points s') i = Some anchor).
Proof.
  intros cur st b h Hb Hh Hne g anchor.
  destruct (gestureParams_resize cur st b h Hb Hh Hne) as (Ha & Hdx & Hdy & Hrot & _).
  fold g in Ha, Hdx, Hdy, Hrot. fold anchor in Ha.
  assert (Hg : g = mkGestureParams 0 0 0 (g_scale g) (Some anchor)).
  { destruct g; cbn in *; subst; reflexivity. }
  assert (Hfix : transformPoint g (selectionCenter st) anchor = anchor).
  { rewrite Hg. apply transformPoint_fixes_anchor. }
  split.
  { intros padding pos Hin.
    destruct (resizeAnchor_opposite b) as (Etr & Etl & Ebr & Ebl).
    cbn [selectionCorners In] in Hin.
    destruct Hin as [E | [E | [E | [E | []]]]]; inversion E; subst h pos;
      unfold anchor; cbn [selectionCorners In oppositeHandle String.eqb Ascii.eqb
                          Bool.eqb andb];
      [ exists (mkPoint (r_x b - 0) (r_y b - 0)); rewrite Etl
      | exists (mkPoint (r_x b + r_width b + 0) (r_y b - 0)); rewrite Etr
      | exists (mkPoint (r_x b - 0) (r_y b + r_height b + 0)); rewrite Ebl
      | exists (mkPoint (r_x b + r_width b + 0) (r_y b + r_height b + 0));
        rewrite Ebr ];
      cbn [p_x p_y];
      (split; [tauto |]); (split; [| repeat split; try discriminate; try lra]).
    - right; right; right; left. do 2 f_equal; lra.
    - right; right; left. do 2 f_equal; lra.
    - right; left. do 2 f_equal; lra.
    - left. do 2 f_equal; lra. }
  split; [assumption |]. split; [assumption |]. split.
  - intros scale center. apply transformPoint_fixes_anchor.
  - intros ps props id_ s' Hs.
    destruct (transformStroke_resize ps props g st id_ s' Hs) as (s & op & _ & Hop & ->).
    exists op. split; [assumption |]. intros i Hi. cbn [points].
    rewrite nth_error_map, Hi. cbn [option_map]. now rewrite Hfix.
Qed.

Lemma resize_anchor_is_fixed_point_witness :
  let b := mkRect 0 0 10 10 in
  let st := mkTransformStart (mkPoint 10 0) None None (Some b) (Some "tr"%string)
                             None (Some ["s1"%string]) None in
  resizeAnchor b "tr" = mkPoint 0 (0 + 10)
  /\ transformPoint (gestureParams (mkPoint 20 (-10)) st resizing_strokes)
                    (selectionCenter st) (resizeAnchor b "tr")
     = resizeAnchor b "tr".
Proof.
  intros b st.
  destruct (resize_anchor_is_fixed_point (mkPoint 20 (-10)) st b "tr")
    as (Hcorner & _ & Hfix & _).
  - reflexivity.
  - reflexivity.
  - discriminate.
  - split; [| exact Hfix].
    destruct (Hcorner 0 (mkPoint (0 + 10 + 0) (0 - 0))) as (corner & _ & _ & _ & _ & _ & Htr & _).
    + cbn [selectionCorners In r_x r_y r_width r_height b]. right; left. reflexivity.
    + exact (Htr eq_refl).
Defined.

(** *** The stroke table and the stored properties *)

Lemma find_by_id (l : list Stroke) (s : Stroke) :
  NoDup (map id l) -> In s l ->
  find (fun x => String.eqb (id x) (id s)) l = Some s.
Proof.
  induction l as [| x l IH]; intros Hnd Hin; [contradiction |].
  cbn [map] in Hnd. inversion Hnd as [| ? ? Hx Hnd']; subst.
  cbn [find]. destruct Hin as [-> | Hin].
  - now rewrite String.eqb_refl.
  - destruct (String.eqb (id x) (id s)) eqn:E.
    + apply String.eqb_eq in E. exfalso. apply Hx. rewrite E. now apply in_map.
    + now apply IH.
Qed.

Lemma NoDup_map_filter {A B : Type} (f : A -> B) (keep : A -> bool) (l : list A) :
  NoDup (map f l) -> NoDup (map f (filter keep l)).
Proof.
  induction l as [| x l IH]; intros Hnd; [constructor |].
  cbn [map] in Hnd. inversion Hnd as [| ? ? Hx Hnd']; subst.
  cbn [filter]. destruct (keep x); [| now apply IH].
  cbn [map]. constructor; [| now apply IH].
  intros Hin. apply Hx. apply in_map_iff in Hin. destruct Hin as (y & <- & Hy).
  apply in_map. apply filter_In in Hy. tauto.
Qed.

Lemma map_get_set {V : Type} (m : JsMap V) (k k' : string) (v : V) :
  map_get (map_set m k v) k' = if String.eqb k k' then Some v else map_get m k'.
Proof.
  induction m as [| [k0 v0] m IH]; cbn [map_set map_get].
  - reflexivity.
  - destruct (String.eqb k0 k) eqn:E0; cbn [map_get].
    + apply String.eqb_eq in E0. subst k0. destruct (String.eqb k k'); reflexivity.
    + destruct (String.eqb k0 k') eqn:E1.
      * apply String.eqb_eq in E1. subst k0.
        rewrite String.eqb_sym in E0. now rewrite E0.
      * apply IH.
Qed.

Lemma map_get_fold_other {V : Type} (entries : list (string * V)) (m : JsMap V)
      (k : string) :
  ~ In k (map fst entries) ->
  map_get (fold_left (fun m kv => map_set m (fst kv) (snd kv)) entries m) k
  = map_get m k.
Proof.
  revert m. induction entries as [| [k0 v0] entries IH]; intros m Hk; [reflexivity |].
  cbn [fold_left fst snd]. cbn [map fst In] in Hk.
  rewrite IH by tauto. rewrite map_get_set.
  destruct (String.eqb k0 k) eqn:E; [| reflexivity].
  apply String.eqb_eq in E. tauto.
Qed.

Lemma map_get_fold_in {V : Type} (entries : list (string * V)) (m : JsMap V)
      (k : string) (v : V) :
  NoDup (map fst entries) -> In (k, v) entries ->
  map_get (fold_left (fun m kv => map_set m (fst kv) (snd kv)) entries m) k = Some v.
Proof.
  revert m. induction entries as [| [k0 v0] entries IH]; intros m Hnd Hin;
    [contradiction |].
  cbn [map fst] in Hnd. inversion Hnd as [| ? ? Hx Hnd']; subst.
  cbn [fold_left fst snd]. destruct Hin as [E | Hin].
  - inversion E; subst. rewrite map_get_fold_other by assumption.
    rewrite map_get_set. now rewrite String.eqb_refl.
  - now apply IH.
Qed.

(** With unique ids, the properties stored at gesture start for a selected
    stroke are that stroke's own points and line width. *)
Lemma strokePropertiesOf_get (selected : list Stroke) (s : Stroke) :
  NoDup (map id selected) -> In s selected ->
  map_get (strokePropertiesOf selected) (id s)
  = Some (mkStrokeProperties (points s) (lineWidth s)).
Proof.
  intros Hnd Hin. unfold strokePropertiesOf, map_of.
  apply map_get_fold_in.
  - rewrite map_map. cbn [fst]. exact Hnd.
  - apply in_map_iff. exists s. auto.
Qed.

Lemma set_has_In (s : StringSet) (k : string) : set_has s k = true <-> In k s.
Proof.
  unfold set_has. rewrite existsb_exists. split.
  - intros (x & Hx & E). apply String.eqb_eq in E. now subst.
  - intros H. exists k. split; [assumption | apply String.eqb_refl].
Qed.

(** *** The loop over the target ids *)

Lemma transformStrokes_app (step : string -> result (option Stroke))
      (ids : list string) (acc : list Stroke) :
  (forall i, step i <> TypeError) ->
  exists out, transformStrokes step ids acc = Ok (acc ++ out)
              /\ forall i s, In i ids -> step i = Ok (Some s) -> In s out.
Proof.
  intros Hno. revert acc. induction ids as [| i0 ids IH]; intros acc.
  - exists []. split; [cbn; now rewrite app_nil_r | intros ? ? []].
  - cbn [transformStrokes]. destruct (step i0) as [[s0 |] |] eqn:E.
    + destruct (IH (acc ++ [s0])) as (out & Hout & Hin).
      exists (s0 :: out). split.
      * rewrite Hout. now rewrite <- app_assoc.
      * intros i s [-> | Hi] Hs.
        -- rewrite E in Hs. inversion Hs. now left.
        -- right. eauto.
    + destruct (IH acc) as (out & Hout & Hin).
      exists out. split; [assumption |].
      intros i s [-> | Hi] Hs; [rewrite E in Hs; discriminate | eauto].
    + exfalso. now apply (Hno i0).
Qed.

(** The unguarded read of [selectionCenter.x] is only reached with a
    rotation in progress, and then a centre is present. *)
Lemma transformStroke_no_throw (ps : list Stroke) (props : JsMap StrokeProperties)
      (g : GestureParams) (st : TransformStart) (a : Action) (id_ : string) :
  (a = rotating_strokes -> selectionCenter st <> None) ->
  transformStroke ps props g st a id_ <> TypeError.
Proof.
  intros Hc. unfold transformStroke.
  destruct (find _ ps) as [s |]; [| discriminate].
  destruct (map_get props id_) as [op |]; [| discriminate].
  destruct (Action_eqb a rotating_strokes) eqn:Ea; [| discriminate].
  destruct (DrawingTool_eqb (tool s) rectangle); [| discriminate].
  rewrite length_map. cbn [andb].
  destruct (sp_points op) as [| p0 [| p1 [| p2 rest]]]; cbn [List.length Nat.eqb];
    try discriminate.
  destruct (selectionCenter st) eqn:Es; [discriminate |].
  exfalso. apply Hc; [destruct a; (reflexivity || discriminate) | reflexivity].
Qed.

Lemma gestureParams_rotate_no_center (cur : Point) (st : TransformStart) :
  selectionCenter st = None ->
  gestureParams cur st rotating_strokes = identityParams.
Proof. intros H. unfold gestureParams. now rewrite H. Qed.

(** [calculateTransformedStrokes] never throws. *)
Lemma calculateTransformedStrokes_total (project : option Project)
      (props : JsMap StrokeProperties) (cur : Point) (st : option TransformStart)
      (a : Action) :
  exists out, calculateTransformedStrokes project props cur st a = Ok out.
Proof.
  unfold calculateTransformedStrokes.
  destruct st as [st |]; [| eauto]. destruct project as [project |]; [| eauto].
  destruct (isIdentity _) eqn:Ei; [eauto |].
  destruct (strokeIds st) as [ids |]; [| eauto].
  edestruct (transformStrokes_app
               (transformStroke (strokes project) props (gestureParams cur st a) st a)
               ids []) as (out & Hout & _).
  - intros i. apply transformStroke_no_throw. intros -> Hn.
    rewrite (gestureParams_rotate_no_center cur st Hn) in Ei.
    unfold isIdentity, identityParams in Ei. cbn [g_dx g_dy g_rotation g_scale] in Ei.
    rewrite !eqb_refl in Ei. discriminate.
  - eauto.
Qed.

Lemma transformCorner_rotate (g : GestureParams) (center p : Point) :
  g_dx g = 0 -> g_dy g = 0 ->
  transformCorner g center p = rotatePoint p center (g_rotation g).
Proof.
  intros Hx Hy. unfold transformCorner, rotatePoint. rewrite Hx, Hy.
  f_equal; ring.
Qed.

(** C5.  In a rotate gesture whose computed angle is not zero, a rectangle
    stroke of the target set with exactly two points comes out as a ['pen']
    stroke with the same id, color and line width, whose points are the
    rectangle's four corners rotated about the selection centre by that
    angle, followed by the first rotated corner again.  The stroke table has
    unique ids and the stored properties are those taken at gesture start. *)
Theorem rotate_rectangle_becomes_closed_pen :
  forall (project : Project) (cur : Point) (st : TransformStart)
         (ids : StringSet) (s : Stroke) (a b : Point),
    NoDup (map id (strokes project)) ->
    In s (strokes project) ->
    tool s = rectangle -> points s = [a; b] ->
    strokeIds st = Some ids -> In (id s) ids ->
    g_rotation (gestureParams cur st rotating_strokes) <> 0 ->
    let lastStrokeProperties :=
      strokePropertiesOf (filter (fun x => set_has ids (id x)) (strokes project)) in
    let angle := g_rotation (gestureParams cur st rotating_strokes) in
    exists center out,
      selectionCenter st = Some center
      /\ calculateTransformedStrokes (Some project) lastStrokeProperties cur
                                     (Some st) rotating_strokes = Ok out
      /\ let p1 := mkPoint (Rmin (p_x a) (p_x b)) (Rmin (p_y a) (p_y b)) in
         let p2 := mkPoint (Rmax (p_x a) (p_x b)) (Rmin (p_y a) (p_y b)) in
         let p3 := mkPoint (Rmax (p_x a) (p_x b)) (Rmax (p_y a) (p_y b)) in
         let p4 := mkPoint (Rmin (p_x a) (p_x b)) (Rmax (p_y a) (p_y b)) in
         let r p := rotatePoint p center angle in
         In (mkStroke (id s) [r p1; r p2; r p3; r p4; r p1] (color s)
                      (lineWidth s) pen)
            out.
Proof.
  intros project cur st ids s a b Hnd Hin Htool Hpts Hids Hsel Hrot props angle.
  destruct (selectionCenter st) as [center |] eqn:Hc.
  2:{ exfalso. apply Hrot. now rewrite gestureParams_rotate_no_center. }
  set (g := gestureParams cur st rotating_strokes) in *.
  assert (Hg : g_dx g = 0 /\ g_dy g = 0).
  { unfold g, gestureParams. rewrite Hc. now cbn. }
  destruct Hg as [Hdx Hdy].
  assert (Hni : isIdentity g = false).
  { unfold isIdentity. rewrite (eqb_false (g_rotation g) 0) by assumption.
    now rewrite !andb_false_r. }
  set (step := transformStroke (strokes project) props g st rotating_strokes).
  destruct (transformStrokes_app step ids []) as (out & Hout & Hall).
  { intros i. apply transformStroke_no_throw. intros _. now rewrite Hc. }
  exists center, out. split; [reflexivity |]. split.
  - unfold calculateTransformedStrokes. fold g. rewrite Hni, Hids. exact Hout.
  - cbv zeta. apply (Hall (id s)); [assumption |].
    unfold step, transformStroke.
    rewrite (find_by_id _ _ Hnd Hin).
    unfold props. rewrite strokePropertiesOf_get.
    + cbn [sp_points sp_lineWidth]. rewrite Htool, Hpts, Hc.
      cbn [Action_eqb DrawingTool_eqb andb map List.length Nat.eqb nth app p_x p_y].
      rewrite !transformCorner_rotate by assumption.
      reflexivity.
    + now apply NoDup_map_filter.
    + apply filter_In. split; [assumption | now apply set_has_In].
Qed.

Lemma atan2_right (y x : R) : 0 < x -> Num.atan2 y x = atan (y / x).
Proof. intros H. unfold Num.atan2. destruct (Rlt_dec 0 x); [reflexivity | contradiction]. Qed.

Lemma atan2_up (y x : R) : x = 0 -> 0 < y -> Num.atan2 y x = PI / 2.
Proof.
  intros -> H. unfold Num.atan2.
  destruct (Rlt_dec 0 0); [lra |]. destruct (Rlt_dec 0 y); [reflexivity | contradiction].
Qed.

(** A quarter turn: the pointer goes from the right of the centre to below
    it (y grows downwards). *)
Lemma quarter_turn_angle :
  Num.atan2 (2 - 1) (1 - 1) - Num.atan2 (1 - 1) (2 - 1) = PI / 2.
Proof.
  rewrite (atan2_up (2 - 1) (1 - 1)) by lra.
  rewrite (atan2_right (1 - 1) (2 - 1)) by lra.
  replace ((1 - 1) / (2 - 1)) with 0 by field.
  rewrite atan_0. ring.
Qed.

Lemma rotate_rectangle_becomes_closed_pen_witness :
  let s := mkStroke "s1" [mkPoint 0 0; mkPoint 2 2] "#000000" 1 rectangle in
  let project := mkProject "p" "Drawing 1" [s] [] in
  let st := mkTransformStart (mkPoint 2 1) None (Some (mkPoint 1 1)) None None None
                             (Some ["s1"%string]) None in
  exists center out,
    selectionCenter st = Some center
    /\ calculateTransformedStrokes
         (Some project)
         (strokePropertiesOf (filter (fun x => set_has ["s1"%string] (id x))
                                     (strokes project)))
         (mkPoint 1 2) (Some st) rotating_strokes = Ok out.
Proof.
  intros s project st.
  destruct (rotate_rectangle_becomes_closed_pen
              project (mkPoint 1 2) st ["s1"%string] s (mkPoint 0 0) (mkPoint 2 2))
    as (center & out & Hc & Hout & _).
  - cbn. constructor; [intros [] | constructor].
  - cbn. now left.
  - reflexivity.
  - reflexivity.
  - reflexivity.
  - cbn. now left.
  - unfold gestureParams. cbn [selectionCenter startPoint st g_rotation p_x p_y].
    rewrite quarter_turn_angle. assert (H := PI_RGT_0). lra.
  - exists center, out. split; assumption.
Defined.

(* ================================================================== *)
(** ** Erasure *)

(** The broad phase: an eraser stroke, or a stroke whose bounds miss the
    eraser's, is passed over. *)
Lemma fragmentStroke_skips (eraserStroke : Stroke) (eraserBounds : Rect)
      (stroke : Stroke) :
  tool stroke = eraser
  \/ (exists strokeBounds,
         getStrokeBounds stroke = Some strokeBounds
         /\ doRectsIntersect eraserBounds strokeBounds = false) ->
  fragmentStroke eraserStroke eraserBounds stroke = None.
Proof.
  unfold fragmentStroke. intros [H | (sb & Hsb & Hno)].
  - now rewrite H.
  - rewrite Hsb, Hno. cbn [negb]. now destruct (DrawingTool_eqb _ _).
Qed.

Lemma set_add_In (s : StringSet) (k x : string) :
  In x (set_add s k) -> In x s \/ x = k.
Proof.
  unfold set_add. destruct (set_has s k); [now left |].
  intros H. apply in_app_or in H. destruct H as [H | [H | []]]; auto.
Qed.

(** Only ids of visited strokes are ever marked for deletion. *)
Lemma strokesToDelete_visited (randomUUID : nat -> string) (eraserStroke : Stroke)
      (eraserBounds : Rect) (l : list Stroke) (acc : Erasure * nat) (k : string) :
  In k (strokesToDelete
          (fst (fold_left (erasureStep randomUUID eraserStroke eraserBounds) l acc))) ->
  In k (strokesToDelete (fst acc)) \/ In k (map id l).
Proof.
  revert acc. induction l as [| s l IH]; intros acc H; [now left |].
  cbn [fold_left] in H. apply IH in H. destruct H as [H | H].
  - unfold erasureStep in H. destruct acc as [e calls].
    destruct (fragmentStroke eraserStroke eraserBounds s); [| now left].
    cbn [fst strokesToDelete] in H. apply set_add_In in H.
    destruct H as [H | ->]; [now left | right; now left].
  - right. now right.
Qed.

(** C8.  A stroke of tool ['eraser'], or one whose bounding box does not
    intersect the eraser's, is left untouched by [applyErasure]: the result
    is the one obtained without that stroke in the list (so no fragment
    comes from it and it causes no deletion), and with ids unique in the
    list its id is not in the set of strokes to delete. *)
Theorem applyErasure_skips_disjoint_and_eraser_strokes :
  forall (randomUUID : nat -> string) (eraserStroke : Stroke)
         (before after : list Stroke) (s : Stroke),
    (tool s = eraser
     \/ exists eraserBounds strokeBounds,
         getStrokeBounds eraserStroke = Some eraserBounds
         /\ getStrokeBounds s = Some strokeBounds
         /\ doRectsIntersect eraserBounds strokeBounds = false) ->
    applyErasure randomUUID eraserStroke (before ++ s :: after)
    = applyErasure randomUUID eraserStroke (before ++ after)
    /\ (NoDup (map id (before ++ s :: after)) ->
        ~ In (id s)
             (strokesToDelete
                (applyErasure randomUUID eraserStroke (before ++ s :: after)))).
Proof.
  intros uuid e before after s Hs.
  assert (Heq : applyErasure uuid e (before ++ s :: after)
                = applyErasure uuid e (before ++ after)).
  { unfold applyErasure. destruct (getStrokeBounds e) as [eb |] eqn:Heb; [| reflexivity].
    rewrite !fold_left_app. cbn [fold_left].
    replace (erasureStep uuid e eb
                         (fold_left (erasureStep uuid e eb) before
                                    (mkErasure [] [], 0%nat)) s)
      with (fold_left (erasureStep uuid e eb) before (mkErasure [] [], 0%nat));
      [reflexivity |].
    unfold erasureStep at 2.
    destruct (fold_left _ before _) as [acc calls].
    rewrite fragmentStroke_skips; [reflexivity |].
    destruct Hs as [H | (eb' & sb & Heb' & Hsb & Hno)]; [now left | right].
    inversion Heb'; subst. eauto. }
  split; [exact Heq |].
  intros Hnd Hin. rewrite Heq in Hin.
  unfold applyErasure in Hin.
  destruct (getStrokeBounds e) as [eb |]; [| contradiction].
  apply strokesToDelete_visited in Hin. destruct Hin as [[] | Hin].
  rewrite map_app in Hnd. cbn [map] in Hnd.
  apply NoDup_remove_2 in Hnd. apply Hnd. now rewrite <- map_app.
Qed.

Lemma applyErasure_skips_disjoint_and_eraser_strokes_witness :
  let e := mkStroke "e" [mkPoint 100 100] "#000000" 4 eraser in
  let s := mkStroke "s" [mkPoint 0 0; mkPoint 10 0] "#000000" 2 line in
  let randomUUID := fun _ : nat => "u"%string in
  applyErasure randomUUID e ([] ++ s :: []) = applyErasure randomUUID e ([] ++ []).
Proof.
  intros e s randomUUID.
  apply (applyErasure_skips_disjoint_and_eraser_strokes randomUUID e [] [] s).
  right. eexists. eexists.
  split; [reflexivity |]. split; [reflexivity |].
  unfold doRectsIntersect. cbn [r_x r_y r_width r_height minOver maxOver fold_left p_x p_y].
  rewrite (gtb_false (Rmin 0 10)) by (rewrite Rmin_left; lra).
  rewrite (ltb_true (Rmin 0 10 + (Rmax 0 10 - Rmin 0 10))) by
      (rewrite Rmin_left, Rmax_right; lra).
  reflexivity.
Defined.

(** *** A pen stroke cut by a one-point eraser *)

(** Against [dotEraser] and ink of half-width 1, a point is erased exactly
    when it is less than 3 away from (15,0). *)
Lemma dotEraser_erases (x y : R) :
  isPointErased (mkPoint x y) dotEraser (2 / 2)
  = ((x - 15) ^ 2 + (y - 0) ^ 2 <? (4 / 2 + 2 / 2) * (4 / 2 + 2 / 2)).
Proof. reflexivity. Qed.

Lemma dotEraser_misses (x : R) :
  x <= 12 \/ 18 <= x -> isPointErased (mkPoint x 0) dotEraser (2 / 2) = false.
Proof. intros H. rewrite dotEraser_erases. apply ltb_false. nra. Qed.

Lemma dotEraser_hits (x : R) :
  12 < x < 18 -> isPointErased (mkPoint x 0) dotEraser (2 / 2) = true.
Proof. intros H. rewrite dotEraser_erases. apply ltb_true. nra. Qed.

(** A horizontal segment of whole length [n] is walked in [n] steps. *)
Lemma numStepsOf_whole (x1 x2 y : R) (n : Z) :
  x2 - x1 = IZR n -> (1 <= n)%Z ->
  numStepsOf (mkPoint x1 y) (mkPoint x2 y) = Z.to_nat n.
Proof.
  intros H Hn. unfold numStepsOf, interpolationStep. cbn [p_x p_y].
  replace (y - y) with 0 by ring. rewrite H.
  assert (0 <= IZR n) by (apply (IZR_le 0); lia).
  rewrite hypot_horizontal by assumption.
  rewrite (Zceil_eq n) by lra. f_equal. lia.
Qed.

Lemma numStepsOf_ten (x1 x2 y : R) :
  x2 - x1 = 10 -> numStepsOf (mkPoint x1 y) (mkPoint x2 y) = 10%nat.
Proof. intros H. now rewrite (numStepsOf_whole x1 x2 y 10) by (assumption || lia). Qed.

(** The interior samples of such a segment are at whole distances from its
    start. *)
Lemma interpolate_tenth (x1 x2 : R) (k : nat) :
  x2 - x1 = 10 ->
  interpolate (mkPoint x1 0) (mkPoint x2 0) (ofNat k / ofNat 10)
  = mkPoint (x1 + ofNat k) 0.
Proof.
  intros H. unfold interpolate, ofNat. cbn [p_x p_y Z.of_nat Pos.of_succ_nat Pos.succ].
  rewrite H. f_equal; field.
Qed.

Lemma ofNat_bounds (k a n : nat) :
  In k (seq a n) -> IZR (Z.of_nat a) <= ofNat k <= IZR (Z.of_nat (a + n)) - 1.
Proof.
  intros H. apply in_seq in H. unfold ofNat.
  replace (IZR (Z.of_nat (a + n)) - 1) with (IZR (Z.of_nat (a + n) - 1))
    by (rewrite minus_IZR; reflexivity).
  split; apply IZR_le; lia.
Qed.

(** A segment with no interior sample within reach of the eraser. *)
Lemma isSegmentErased_far (x1 x2 : R) :
  x2 - x1 = 10 -> x2 <= 13 \/ 17 <= x1 ->
  isSegmentErased dotEraser (2 / 2) (mkPoint x1 0) (mkPoint x2 0) = false.
Proof.
  intros H Hfar. unfold isSegmentErased. rewrite numStepsOf_ten by assumption.
  apply not_true_is_false. intros Hex. apply existsb_exists in Hex.
  destruct Hex as (k & Hk & Hhit).
  apply ofNat_bounds in Hk. cbn [Z.of_nat Nat.sub Nat.add Pos.of_succ_nat Pos.succ] in Hk.
  rewrite interpolate_tenth in Hhit by assumption.
  rewrite dotEraser_misses in Hhit; [discriminate | lra].
Qed.

(** The segment from (10,0) to (20,0) has the sample (13,0), which is
    within reach. *)
Lemma isSegmentErased_middle :
  isSegmentErased dotEraser (2 / 2) (mkPoint 10 0) (mkPoint 20 0) = true.
Proof.
  unfold isSegmentErased. rewrite numStepsOf_ten by lra.
  apply existsb_exists. exists 3%nat. split.
  - apply in_seq. lia.
  - rewrite interpolate_tenth by lra. apply dotEraser_hits.
    unfold ofNat. cbn [Z.of_nat Pos.of_succ_nat Pos.succ]. lra.
Qed.

(** The pen walk over the example: the fragment in progress is closed at
    (10,0), whose outgoing segment is hit, and the next one starts at
    (20,0). *)
Lemma penFragments_axisStroke :
  penFragments dotEraser (2 / 2)
               [mkPoint 0 0; mkPoint 10 0; mkPoint 20 0; mkPoint 30 0] [] [] false
  = ([[mkPoint 0 0; mkPoint 10 0]; [mkPoint 20 0; mkPoint 30 0]], true).
Proof.
  cbn [penFragments].
  rewrite !dotEraser_misses by lra.
  rewrite (isSegmentErased_far 0 10), (isSegmentErased_far 20 30) by lra.
  rewrite isSegmentErased_middle.
  reflexivity.
Qed.

Lemma getStrokeBounds_axisStroke :
  getStrokeBounds axisStroke = Some (mkRect 0 0 30 0).
Proof.
  cbn [getStrokeBounds axisStroke points tool minOver maxOver fold_left p_x p_y].
  rewrite (Rmin_left 0 10), (Rmin_left 0 20), (Rmin_left 0 30) by lra.
  rewrite !(Rmin_left 0 0) by lra.
  rewrite (Rmax_right 0 10), (Rmax_right 10 20), (Rmax_right 20 30) by lra.
  rewrite !(Rmax_left 0 0) by lra.
  f_equal. f_equal; ring.
Qed.

Lemma fragmentStroke_axisStroke :
  fragmentStroke dotEraser (mkRect 15 0 (15 - 15) (0 - 0)) axisStroke
  = Some [[mkPoint 0 0; mkPoint 10 0]; [mkPoint 20 0; mkPoint 30 0]].
Proof.
  unfold fragmentStroke. rewrite getStrokeBounds_axisStroke.
  cbn [tool axisStroke DrawingTool_eqb].
  replace (doRectsIntersect _ _) with true.
  - cbn [negb strokeSegments points lineWidth tool axisStroke consecutive].
    rewrite penFragments_axisStroke. reflexivity.
  - symmetry. unfold doRectsIntersect. cbn [r_x r_y r_width r_height].
    rewrite !gtb_false by lra. rewrite !ltb_false by lra. reflexivity.
Qed.

(** C1, on the code.  The straight pen stroke (0,0),(10,0),(20,0),(30,0) of
    line width 2, erased by the one-point eraser of line width 4 at (15,0):
    the stroke's id is marked for deletion and exactly two pen fragments of
    two points each replace it, but they are (0,0),(10,0) and
    (20,0),(30,0): the pen walk keeps original points only, so the cut
    segment is dropped whole and the fragments end at x = 10 and x = 20
    instead of near x = 13 and x = 17. *)
Theorem applyErasure_pen_drops_whole_segment :
  forall randomUUID : nat -> string,
    applyErasure randomUUID dotEraser [axisStroke]
    = mkErasure
        ["s"%string]
        [mkStroke (String.append "stroke_" (randomUUID 0%nat))
                  [mkPoint 0 0; mkPoint 10 0] "#000000" 2 pen;
         mkStroke (String.append "stroke_" (randomUUID 1%nat))
                  [mkPoint 20 0; mkPoint 30 0] "#000000" 2 pen].
Proof.
  intros randomUUID. unfold applyErasure.
  change (getStrokeBounds dotEraser) with (Some (mkRect 15 0 (15 - 15) (0 - 0))).
  cbn [fold_left]. unfold erasureStep.
  rewrite fragmentStroke_axisStroke. reflexivity.
Qed.

(** *** The same cut on a line stroke: the shape branch *)

Lemma segmentFragments_erased_run (e : Stroke) (r : R) (run rest : list Point)
      (newFragments : list (list Point)) :
  Forall (fun p => isPointErased p e r = true) run ->
  segmentFragments e r (run ++ rest) [] newFragments
  = segmentFragments e r rest [] newFragments.
Proof.
  induction 1 as [| p run Hp _ IH]; [reflexivity |].
  cbn [app segmentFragments]. rewrite Hp. cbn [negb]. exact IH.
Qed.

Lemma segmentFragments_kept_run (e : Stroke) (r : R) (run rest : list Point)
      (currentFragment : list Point) (newFragments : list (list Point)) :
  Forall (fun p => isPointErased p e r = false) run ->
  segmentFragments e r (run ++ rest) currentFragment newFragments
  = segmentFragments e r rest (currentFragment ++ run) newFragments.
Proof.
  intros H. revert currentFragment.
  induction H as [| p run Hp _ IH]; intros cf.
  - now rewrite app_nil_r.
  - cbn [app segmentFragments]. rewrite Hp. cbn [negb]. rewrite IH.
    now rewrite <- app_assoc.
Qed.

Lemma samplesOf_axisLine :
  samplesOf (mkSegment (mkPoint 0 0) (mkPoint 30 0)) = map axisPoint (seq 0 31).
Proof.
  unfold samplesOf. cbn [seg_p1 seg_p2].
  rewrite (numStepsOf_whole 0 30 0 30) by (lra || lia).
  change (Z.to_nat 30) with 30%nat. change (30 + 1)%nat with 31%nat.
  apply map_ext. intros i. unfold interpolate, axisPoint.
  change (ofNat 30) with 30. cbn [p_x p_y].
  f_equal; field.
Qed.

Lemma axisPoint_run (a n : nat) (keep : bool) :
  (if keep
   then IZR (Z.of_nat (a + n)) - 1 <= 12 \/ 18 <= IZR (Z.of_nat a)
   else 12 < IZR (Z.of_nat a) /\ IZR (Z.of_nat (a + n)) - 1 < 18) ->
  Forall (fun p => isPointErased p dotEraser (2 / 2) = negb keep)
         (map axisPoint (seq a n)).
Proof.
  intros H. apply Forall_forall. intros p Hp.
  apply in_map_iff in Hp. destruct Hp as (i & <- & Hi).
  apply ofNat_bounds in Hi. unfold axisPoint. destruct keep; cbn [negb].
  - apply dotEraser_misses. lra.
  - apply dotEraser_hits. lra.
Qed.

Lemma ofNat_succ (i : nat) : ofNat (S i) = ofNat i + 1.
Proof. unfold ofNat. rewrite Nat2Z.inj_succ. apply succ_IZR. Qed.

Lemma fragLength_cons2 (a b : Point) (tl : list Point) :
  fragLength (a :: b :: tl)
  = Num.hypot (p_x b - p_x a) (p_y b - p_y a) + fragLength (b :: tl).
Proof. reflexivity. Qed.

(** Evenly spaced samples: the length of a run is the number of its steps. *)
Lemma fragLength_axis_run (a n : nat) :
  fragLength (map axisPoint (seq a (S n))) = ofNat n.
Proof.
  revert a. induction n as [| n IH]; intros a; [reflexivity |].
  change (seq a (S (S n))) with (a :: S a :: seq (S (S a)) n).
  cbn [map]. rewrite fragLength_cons2.
  change (axisPoint (S a) :: map axisPoint (seq (S (S a)) n))
    with (map axisPoint (seq (S a) (S n))).
  rewrite IH. unfold axisPoint. cbn [p_x p_y].
  rewrite (ofNat_succ a), (ofNat_succ n).
  replace (ofNat a + 1 - ofNat a) with 1 by ring.
  replace (0 - 0) with 0 by ring.
  rewrite hypot_horizontal by lra. ring.
Qed.

(** The shape branch keeps the samples up to the erased ones: the two
    fragments stop at x = 12 and resume at x = 18, within one sampling step
    of the eraser's reach at 15 - 3 and 15 + 3. *)
Lemma fragmentStroke_axisLine :
  fragmentStroke dotEraser (mkRect 15 0 (15 - 15) (0 - 0)) axisLine
  = Some [map axisPoint (seq 0 13); map axisPoint (seq 18 13)].
Proof.
  unfold fragmentStroke.
  replace (getStrokeBounds axisLine)
    with (Some (mkRect 0 0 (30 - 0) (0 - 0))).
  2:{ cbn [getStrokeBounds axisLine points tool p_x p_y].
      rewrite (Rmin_left 0 30), (Rmax_right 0 30) by lra.
      rewrite (Rmin_left 0 0), (Rmax_left 0 0) by lra. reflexivity. }
  change (tool axisLine) with line. cbn [DrawingTool_eqb].
  replace (doRectsIntersect _ _) with true.
  2:{ symmetry. unfold doRectsIntersect. cbn [r_x r_y r_width r_height].
      rewrite !gtb_false by lra. rewrite !ltb_false by lra. reflexivity. }
  cbn [negb strokeSegments points lineWidth tool axisLine].
  assert (Hfr : shapeFragments dotEraser (2 / 2)
                               [mkSegment (mkPoint 0 0) (mkPoint 30 0)]
                = [map axisPoint (seq 0 13); map axisPoint (seq 18 13)]).
  { unfold shapeFragments. cbn [fold_left]. rewrite samplesOf_axisLine.
    change (seq 0 31) with (seq 0 13 ++ seq 13 5 ++ seq 18 13).
    rewrite !map_app.
    rewrite segmentFragments_kept_run
      by (apply (axisPoint_run 0 13 true); cbn; lra).
    change (map axisPoint (seq 13 5))
      with (axisPoint 13 :: map axisPoint (seq 14 4)).
    cbn [app segmentFragments].
    assert (H5 := axisPoint_run 13 5 false).
    change (seq 13 5) with (13%nat :: seq 14 4) in H5. cbn [map negb] in H5.
    assert (H5' : 12 < IZR (Z.of_nat 13) /\ IZR (Z.of_nat (13 + 5)) - 1 < 18)
      by (cbn; lra).
    specialize (H5 H5'). inversion H5 as [| ? ? Hhead Htail]; subst.
    rewrite Hhead. cbn [negb].
    rewrite segmentFragments_erased_run by exact Htail.
    rewrite <- (app_nil_r (map axisPoint (seq 18 13))) at 1.
    rewrite segmentFragments_kept_run
      by (apply (axisPoint_run 18 13 true); cbn; lra).
    reflexivity. }
  rewrite Hfr. cbn [fold_left segmentLengthOf seg_p1 seg_p2 p_x p_y].
  rewrite (fragLength_axis_run 0 12), (fragLength_axis_run 18 12).
  unfold segmentLengthOf. cbn [seg_p1 seg_p2 p_x p_y].
  replace (0 - 0) with 0 by ring. rewrite hypot_horizontal by lra.
  rewrite gtb_true; [reflexivity |].
  unfold ofNat. cbn [Z.of_nat Pos.of_succ_nat Pos.succ].
  rewrite Rabs_right; lra.
Qed.

(* ================================================================== *)
(** * Further properties of the code *)

(** ** Bounding boxes *)

Lemma fold_Rmin_le (f : Point -> R) (rest : list Point) (m : R) :
  fold_left (fun m p => Rmin m (f p)) rest m <= m
  /\ forall p, In p rest -> fold_left (fun m p => Rmin m (f p)) rest m <= f p.
Proof.
  revert m. induction rest as [| q rest IH]; intros m; cbn [fold_left].
  - split; [lra | intros ? []].
  - destruct (IH (Rmin m (f q))) as [H1 H2]. split.
    + eapply Rle_trans; [exact H1 | apply Rmin_l].
    + intros p [-> | Hp]; [| now apply H2].
      eapply Rle_trans; [exact H1 | apply Rmin_r].
Qed.

Lemma fold_Rmax_ge (f : Point -> R) (rest : list Point) (m : R) :
  m <= fold_left (fun m p => Rmax m (f p)) rest m
  /\ forall p, In p rest -> f p <= fold_left (fun m p => Rmax m (f p)) rest m.
Proof.
  revert m. induction rest as [| q rest IH]; intros m; cbn [fold_left].
  - split; [lra | intros ? []].
  - destruct (IH (Rmax m (f q))) as [H1 H2]. split.
    + eapply Rle_trans; [apply Rmax_l | exact H1].
    + intros p [-> | Hp]; [| now apply H2].
      eapply Rle_trans; [apply Rmax_r | exact H1].
Qed.

Lemma minOver_le (f : Point -> R) (p0 : Point) (rest : list Point) (p : Point) :
  In p (p0 :: rest) -> minOver f p0 rest <= f p.
Proof.
  unfold minOver. destruct (fold_Rmin_le f rest (f p0)) as [H1 H2].
  intros [<- | Hp]; [exact H1 | now apply H2].
Qed.

Lemma maxOver_ge (f : Point -> R) (p0 : Point) (rest : list Point) (p : Point) :
  In p (p0 :: rest) -> f p <= maxOver f p0 rest.
Proof.
  unfold maxOver. destruct (fold_Rmax_ge f rest (f p0)) as [H1 H2].
  intros [<- | Hp]; [exact H1 | now apply H2].
Qed.

Lemma Rabs_bound (x b : R) : Rabs x <= b -> - b <= x <= b.
Proof.
  intros H. assert (H1 := Rle_abs x). assert (H2 := Rle_abs (- x)).
  rewrite Rabs_Ropp in H2. lra.
Qed.

Lemma hypot_ge_abs_l (a b : R) : Rabs a <= Num.hypot a b.
Proof.
  unfold Num.hypot. rewrite <- sqrt_Rsqr_abs. apply sqrt_le_1_alt.
  unfold Rsqr. nra.
Qed.

Lemma hypot_ge_abs_r (a b : R) : Rabs b <= Num.hypot a b.
Proof.
  unfold Num.hypot. rewrite <- sqrt_Rsqr_abs. apply sqrt_le_1_alt.
  unfold Rsqr. nra.
Qed.

(** X1.  Whenever [getStrokeBounds] returns a rectangle, its width and
    height are not negative and it contains every point the stroke's tool
    reads: all the points of a pen or eraser stroke, the first two points
    of a rectangle, line, dashed line, triangle or circle. *)
Theorem getStrokeBounds_encloses_points :
  forall (stroke : Stroke) (bounds : Rect),
    getStrokeBounds stroke = Some bounds ->
    0 <= r_width bounds /\ 0 <= r_height bounds
    /\ forall p, In p (definingPoints stroke) -> inRect p bounds.
Proof.
  intros stroke bounds. unfold getStrokeBounds, definingPoints, inRect.
  destruct (points stroke) as [| p0 rest] eqn:Hp; [discriminate |].
  destruct (tool stroke) eqn:Ht; cbn [isFreehand].
  1,2: (* pen, eraser *)
    intros H; inversion H; subst; clear H; cbn [r_x r_y r_width r_height];
    assert (Hx0 := minOver_le p_x p0 rest p0 (or_introl eq_refl));
    assert (Hx1 := maxOver_ge p_x p0 rest p0 (or_introl eq_refl));
    assert (Hy0 := minOver_le p_y p0 rest p0 (or_introl eq_refl));
    assert (Hy1 := maxOver_ge p_y p0 rest p0 (or_introl eq_refl));
    (split; [lra |]); (split; [lra |]); intros p Hin;
    assert (Hpx0 := minOver_le p_x p0 rest p Hin);
    assert (Hpx1 := maxOver_ge p_x p0 rest p Hin);
    assert (Hpy0 := minOver_le p_y p0 rest p Hin);
    assert (Hpy1 := maxOver_ge p_y p0 rest p Hin); lra.
  2: { (* circle *)
    destruct rest as [| edge rest']; [discriminate |].
    intros H; inversion H; subst; clear H. cbn [r_x r_y r_width r_height firstn].
    set (radius := Num.hypot (p_x edge - p_x p0) (p_y edge - p_y p0)).
    assert (Hr : 0 <= radius) by apply hypot_nonneg.
    assert (Hdx := hypot_ge_abs_l (p_x edge - p_x p0) (p_y edge - p_y p0)).
    assert (Hdy := hypot_ge_abs_r (p_x edge - p_x p0) (p_y edge - p_y p0)).
    fold radius in Hdx, Hdy.
    split; [lra |]. split; [lra |].
    intros p [<- | [<- | []]]; [lra |].
    apply Rabs_bound in Hdx. apply Rabs_bound in Hdy. lra. }
  all: (* rectangle, line, triangle, dashed line *)
    destruct rest as [| end_ rest']; [discriminate |];
    intros H; inversion H; subst; clear H; cbn [r_x r_y r_width r_height firstn];
    assert (Hx0 := Rmin_l (p_x p0) (p_x end_));
    assert (Hx1 := Rmin_r (p_x p0) (p_x end_));
    assert (Hx2 := Rmax_l (p_x p0) (p_x end_));
    assert (Hx3 := Rmax_r (p_x p0) (p_x end_));
    assert (Hy0 := Rmin_l (p_y p0) (p_y end_));
    assert (Hy1 := Rmin_r (p_y p0) (p_y end_));
    assert (Hy2 := Rmax_l (p_y p0) (p_y end_));
    assert (Hy3 := Rmax_r (p_y p0) (p_y end_));
    (split; [lra |]); (split; [lra |]);
    intros p [<- | [<- | []]]; lra.
Qed.

Lemma getStrokeBounds_encloses_points_witness :
  let s := mkStroke "s" [mkPoint 3 4] "#000000" 2 pen in
  getStrokeBounds s = Some (mkRect 3 4 (3 - 3) (4 - 4))
  /\ inRect (mkPoint 3 4) (mkRect 3 4 (3 - 3) (4 - 4)).
Proof.
  intros s. split; [reflexivity |].
  apply (getStrokeBounds_encloses_points s (mkRect 3 4 (3 - 3) (4 - 4)));
    [reflexivity | now left].
Defined.

Lemma rectWithin_refl (a : Rect) : rectWithin a a.
Proof. unfold rectWithin. lra. Qed.

Lemma rectWithin_trans (a b c : Rect) :
  rectWithin a b -> rectWithin b c -> rectWithin a c.
Proof. unfold rectWithin. lra. Qed.

Lemma unionRect_contains (a b : Rect) :
  rectWithin a (unionRect a b) /\ rectWithin b (unionRect a b).
Proof.
  unfold rectWithin, unionRect. cbn [r_x r_y r_width r_height].
  assert (H1 := Rmin_l (r_x a) (r_x b)). assert (H2 := Rmin_r (r_x a) (r_x b)).
  assert (H3 := Rmin_l (r_y a) (r_y b)). assert (H4 := Rmin_r (r_y a) (r_y b)).
  assert (H5 := Rmax_l (r_x a + r_width a) (r_x b + r_width b)).
  assert (H6 := Rmax_r (r_x a + r_width a) (r_x b + r_width b)).
  assert (H7 := Rmax_l (r_y a + r_height a) (r_y b + r_height b)).
  assert (H8 := Rmax_r (r_y a + r_height a) (r_y b + r_height b)).
  split; lra.
Qed.

(** The step of the [reduce] in [getBounds]. *)
Lemma boundsStep_grows (a : Rect) (s : Stroke) :
  exists a', boundsStep (Some a) s = Some a' /\ rectWithin a a'.
Proof.
  unfold boundsStep. destruct (getStrokeBounds s) as [b |].
  - eexists. split; [reflexivity | apply unionRect_contains].
  - eexists. split; [reflexivity | apply rectWithin_refl].
Qed.

Lemma boundsStep_takes (acc : option Rect) (s : Stroke) (b : Rect) :
  getStrokeBounds s = Some b ->
  exists a', boundsStep acc s = Some a' /\ rectWithin b a'.
Proof.
  intros Hb. unfold boundsStep. rewrite Hb. destruct acc as [a |].
  - eexists. split; [reflexivity | apply unionRect_contains].
  - eexists. split; [reflexivity | apply rectWithin_refl].
Qed.

(** The accumulator of [getBounds] only grows, and takes in every stroke
    it visits. *)
Lemma getBounds_fold_grows (strokes_ : list Stroke) (a : Rect) :
  exists u, fold_left boundsStep strokes_ (Some a) = Some u /\ rectWithin a u.
Proof.
  revert a. induction strokes_ as [| s0 l IH]; intros a; cbn [fold_left].
  - exists a. split; [reflexivity | apply rectWithin_refl].
  - destruct (boundsStep_grows a s0) as (a' & -> & Ha).
    destruct (IH a') as (u & Hu & Hin). exists u. split; [exact Hu |].
    eapply rectWithin_trans; eassumption.
Qed.

Lemma getBounds_fold_takes (strokes_ : list Stroke) (acc : option Rect)
      (s : Stroke) (b : Rect) :
  In s strokes_ -> getStrokeBounds s = Some b ->
  exists u, fold_left boundsStep strokes_ acc = Some u /\ rectWithin b u.
Proof.
  revert acc. induction strokes_ as [| s0 l IH]; intros acc Hs Hb; [contradiction |].
  cbn [fold_left]. destruct Hs as [-> | Hs]; [| now apply IH].
  destruct (boundsStep_takes acc s b Hb) as (a' & -> & Ha).
  destruct (getBounds_fold_grows l a') as (u & Hu & Hin). exists u.
  split; [exact Hu |]. eapply rectWithin_trans; eassumption.
Qed.

(** X2.  The union computed by [getBounds] contains the bounds of every
    stroke of the list that has bounds: such a stroke makes [getBounds]
    return a rectangle, and its own rectangle lies within it. *)
Theorem getBounds_contains_each_stroke :
  forall (strokes_ : list Stroke) (s : Stroke) (b : Rect),
    In s strokes_ -> getStrokeBounds s = Some b ->
    exists u, getBounds strokes_ = Some u /\ rectWithin b u.
Proof.
  intros strokes_ s b Hs Hb.
  change (getBounds strokes_) with (fold_left boundsStep strokes_ None).
  now apply getBounds_fold_takes with (s := s).
Qed.

Lemma getBounds_contains_each_stroke_witness :
  let s := mkStroke "s" [mkPoint 3 4] "#000000" 2 pen in
  exists u, getBounds [s] = Some u /\ rectWithin (mkRect 3 4 (3 - 3) (4 - 4)) u.
Proof.
  intros s.
  apply (getBounds_contains_each_stroke [s] s (mkRect 3 4 (3 - 3) (4 - 4)));
    [now left | reflexivity].
Defined.

Lemma leb_true (a b : R) : a <= b -> (a <=? b) = true.
Proof. intros H. unfold Num.leb. destruct (Rle_dec a b); [reflexivity | contradiction]. Qed.

Lemma leb_false (a b : R) : b < a -> (a <=? b) = false.
Proof. intros H. unfold Num.leb. destruct (Rle_dec a b); [lra | reflexivity]. Qed.

Lemma leb_iff (a b : R) : (a <=? b) = true <-> a <= b.
Proof.
  unfold Num.leb. destruct (Rle_dec a b); split; intros; try reflexivity;
    try assumption; try discriminate; contradiction.
Qed.

Lemma geb_iff (a b : R) : (a >=? b) = true <-> b <= a.
Proof. apply leb_iff. Qed.

Lemma gtb_iff (a b : R) : (a >? b) = true <-> b < a.
Proof. apply ltb_iff. Qed.

Lemma doRectsIntersect_iff (r1 r2 : Rect) :
  doRectsIntersect r1 r2 = true
  <-> r_x r2 <= r_x r1 + r_width r1 /\ r_x r1 <= r_x r2 + r_width r2
      /\ r_y r2 <= r_y r1 + r_height r1 /\ r_y r1 <= r_y r2 + r_height r2.
Proof.
  unfold doRectsIntersect. rewrite negb_true_iff, !orb_false_iff.
  rewrite <- !not_true_iff_false, !gtb_iff, !ltb_iff. lra.
Qed.

(** X3.  For two rectangles of non-negative width and height,
    [doRectsIntersect] is [true] exactly when some point lies in both
    (edges included), and the test does not depend on the order of its
    arguments. *)
Theorem doRectsIntersect_common_point :
  forall r1 r2 : Rect,
    0 <= r_width r1 -> 0 <= r_height r1 -> 0 <= r_width r2 -> 0 <= r_height r2 ->
    (doRectsIntersect r1 r2 = true <-> exists p, inRect p r1 /\ inRect p r2)
    /\ doRectsIntersect r1 r2 = doRectsIntersect r2 r1.
Proof.
  intros r1 r2 Hw1 Hh1 Hw2 Hh2. split.
  - rewrite doRectsIntersect_iff. unfold inRect. split.
    + intros (H1 & H2 & H3 & H4).
      exists (mkPoint (Rmax (r_x r1) (r_x r2)) (Rmax (r_y r1) (r_y r2))).
      cbn [p_x p_y].
      assert (Ha := Rmax_l (r_x r1) (r_x r2)). assert (Hb := Rmax_r (r_x r1) (r_x r2)).
      assert (Hc := Rmax_l (r_y r1) (r_y r2)). assert (Hd := Rmax_r (r_y r1) (r_y r2)).
      assert (He : Rmax (r_x r1) (r_x r2) <= Rmin (r_x r1 + r_width r1) (r_x r2 + r_width r2)).
      { apply Rmax_lub; apply Rmin_glb; lra. }
      assert (Hf : Rmax (r_y r1) (r_y r2) <= Rmin (r_y r1 + r_height r1) (r_y r2 + r_height r2)).
      { apply Rmax_lub; apply Rmin_glb; lra. }
      assert (Hg := Rmin_l (r_x r1 + r_width r1) (r_x r2 + r_width r2)).
      assert (Hh := Rmin_r (r_x r1 + r_width r1) (r_x r2 + r_width r2)).
      assert (Hi := Rmin_l (r_y r1 + r_height r1) (r_y r2 + r_height r2)).
      assert (Hj := Rmin_r (r_y r1 + r_height r1) (r_y r2 + r_height r2)).
      repeat split; lra.
    + intros (p & H1 & H2). lra.
  - destruct (doRectsIntersect r1 r2) eqn:E1, (doRectsIntersect r2 r1) eqn:E2;
      try reflexivity.
    + apply doRectsIntersect_iff in E1.
      rewrite <- not_true_iff_false, doRectsIntersect_iff in E2. lra.
    + apply doRectsIntersect_iff in E2.
      rewrite <- not_true_iff_false, doRectsIntersect_iff in E1. lra.
Qed.

Lemma doRectsIntersect_common_point_witness :
  doRectsIntersect (mkRect 0 0 10 10) (mkRect 5 5 10 10)
  = doRectsIntersect (mkRect 5 5 10 10) (mkRect 0 0 10 10).
Proof.
  apply (doRectsIntersect_common_point (mkRect 0 0 10 10) (mkRect 5 5 10 10));
    cbn; lra.
Defined.

(** ** Distances, rotation and scaling *)

Lemma along_reverse (a b : Point) (t : R) :
  Spec.along b a t = Spec.along a b (1 - t).
Proof. unfold Spec.along. cbn [p_x p_y]. f_equal; ring. Qed.

Lemma pDistance_le_reverse (p a b : Point) :
  pDistanceToSegmentSquared p a b <= pDistanceToSegmentSquared p b a.
Proof.
  destruct (pDistance_attained p b a) as (t & Ht & ->).
  rewrite along_reverse. apply pDistance_minimal. lra.
Qed.

Lemma pDistance_nonneg (p a b : Point) : 0 <= pDistanceToSegmentSquared p a b.
Proof.
  destruct (pDistance_attained p a b) as (t & _ & ->). apply sum_sq_nonneg.
Qed.

(** X4.  [pDistanceToSegmentSquared] does not depend on the direction of
    the segment, is never negative, and is zero exactly when the point lies
    on the segment. *)
Theorem pDistanceToSegmentSquared_symmetric_and_zero :
  forall p a b : Point,
    pDistanceToSegmentSquared p a b = pDistanceToSegmentSquared p b a
    /\ 0 <= pDistanceToSegmentSquared p a b
    /\ (pDistanceToSegmentSquared p a b = 0 <-> onSegment p a b).
Proof.
  intros p a b. split; [| split].
  - apply Rle_antisym; apply pDistance_le_reverse.
  - apply pDistance_nonneg.
  - unfold onSegment. split.
    + intros H0. destruct (pDistance_attained p a b) as (t & Ht & E).
      exists t. split; [assumption |].
      rewrite H0 in E. symmetry in E. apply sum_sq_zero in E. destruct E as [Ex Ey].
      destruct p as [px py]. destruct (Spec.along a b t) as [qx qy].
      cbn [p_x p_y] in Ex, Ey. f_equal; lra.
    + intros (t & Ht & ->).
      apply Rle_antisym; [| apply pDistance_nonneg].
      eapply Rle_trans; [apply (pDistance_minimal _ a b t Ht) |].
      right. ring.
Qed.

Lemma cos2_sin2_one (a : R) : cos a * cos a + sin a * sin a = 1.
Proof. assert (H := sin2_cos2 a). unfold Rsqr in H. lra. Qed.

(** X5.  [rotatePoint] is a rigid motion: rotating two points about the
    same centre by the same angle leaves their distance unchanged. *)
Theorem rotatePoint_preserves_distance :
  forall (p q center : Point) (angle : R),
    Spec.distance (rotatePoint p center angle) (rotatePoint q center angle)
    = Spec.distance p q.
Proof.
  intros [px py] [qx qy] [cx cy] angle.
  unfold Spec.distance, rotatePoint. cbn [p_x p_y]. f_equal.
  assert (H := cos2_sin2_one angle).
  set (c := cos angle) in *. set (s := sin angle) in *.
  transitivity (((px - qx) ^ 2 + (py - qy) ^ 2) * (c * c + s * s)); [ring |].
  rewrite H. ring.
Qed.

(** X6.  Rotations about one centre compose by adding their angles, the
    zero angle is the identity, and rotating back by the opposite angle
    returns the point. *)
Theorem rotatePoint_composes :
  forall (p center : Point) (a b : R),
    rotatePoint (rotatePoint p center a) center b = rotatePoint p center (a + b)
    /\ rotatePoint p center 0 = p
    /\ rotatePoint (rotatePoint p center a) center (- a) = p.
Proof.
  intros [px py] [cx cy] a b.
  assert (Hcomp : forall a b,
             rotatePoint (rotatePoint (mkPoint px py) (mkPoint cx cy) a)
                         (mkPoint cx cy) b
             = rotatePoint (mkPoint px py) (mkPoint cx cy) (a + b)).
  { intros a' b'. unfold rotatePoint. cbn [p_x p_y].
    rewrite cos_plus, sin_plus. f_equal; ring. }
  assert (Hzero : rotatePoint (mkPoint px py) (mkPoint cx cy) 0 = mkPoint px py).
  { unfold rotatePoint. cbn [p_x p_y]. rewrite cos_0, sin_0. f_equal; ring. }
  split; [apply Hcomp |]. split; [exact Hzero |].
  rewrite Hcomp. replace (a + - a) with 0 by ring. exact Hzero.
Qed.

(** X7.  [scalePoint] multiplies every distance by the absolute value of
    the scale, keeps its origin fixed, and scalings about one origin
    compose by multiplying their factors. *)
Theorem scalePoint_scales_distance :
  forall (p q origin : Point) (s t : R),
    Spec.distance (scalePoint p origin s) (scalePoint q origin s)
    = Rabs s * Spec.distance p q
    /\ scalePoint origin origin s = origin
    /\ scalePoint (scalePoint p origin s) origin t = scalePoint p origin (s * t).
Proof.
  intros [px py] [qx qy] [ox oy] s t. split; [| split].
  - unfold Spec.distance, scalePoint. cbn [p_x p_y].
    rewrite <- sqrt_Rsqr_abs. rewrite <- sqrt_mult_alt by apply Rle_0_sqr.
    f_equal. unfold Rsqr. ring.
  - unfold scalePoint. cbn [p_x p_y]. f_equal; ring.
  - unfold scalePoint. cbn [p_x p_y]. f_equal; ring.
Qed.

(** ** Hit tests *)

(** The test of [isPointInTransformedRect], in terms of the point's
    coordinates in the image's own frame. *)
Lemma isPointInTransformedRect_iff (point : Point) (tr : ImageTransform) :
  let tx := p_x point - t_x tr in
  let ty := p_y point - t_y tr in
  let c := cos (t_rotation tr) in
  let s := sin (t_rotation tr) in
  isPointInTransformedRect point tr = true
  <-> - (t_width tr / 2) <= tx * c + ty * s <= t_width tr / 2
      /\ - (t_height tr / 2) <= ty * c - tx * s <= t_height tr / 2.
Proof.
  intros tx ty c s. unfold isPointInTransformedRect.
  rewrite cos_neg, sin_neg. fold tx ty c s.
  rewrite !andb_true_iff, !geb_iff, !leb_iff.
  replace (tx * c - ty * - s) with (tx * c + ty * s) by ring.
  replace (tx * - s + ty * c) with (ty * c - tx * s) by ring.
  tauto.
Qed.

Lemma worldCorner_xy (tr : ImageTransform) (lx ly : R) :
  worldCorner tr (mkPoint lx ly)
  = mkPoint (lx * cos (t_rotation tr) - ly * sin (t_rotation tr) + t_x tr)
            (lx * sin (t_rotation tr) + ly * cos (t_rotation tr) + t_y tr).
Proof. unfold worldCorner, rotatePoint. cbn [p_x p_y]. f_equal; ring. Qed.

Lemma min4_le (a b c d : R) :
  Rmin (Rmin (Rmin a b) c) d <= a /\ Rmin (Rmin (Rmin a b) c) d <= b
  /\ Rmin (Rmin (Rmin a b) c) d <= c /\ Rmin (Rmin (Rmin a b) c) d <= d.
Proof.
  assert (H1 := Rmin_l (Rmin (Rmin a b) c) d). assert (H2 := Rmin_r (Rmin (Rmin a b) c) d).
  assert (H3 := Rmin_l (Rmin a b) c). assert (H4 := Rmin_r (Rmin a b) c).
  assert (H5 := Rmin_l a b). assert (H6 := Rmin_r a b). lra.
Qed.

Lemma max4_ge (a b c d : R) :
  a <= Rmax (Rmax (Rmax a b) c) d /\ b <= Rmax (Rmax (Rmax a b) c) d
  /\ c <= Rmax (Rmax (Rmax a b) c) d /\ d <= Rmax (Rmax (Rmax a b) c) d.
Proof.
  assert (H1 := Rmax_l (Rmax (Rmax a b) c) d). assert (H2 := Rmax_r (Rmax (Rmax a b) c) d).
  assert (H3 := Rmax_l (Rmax a b) c). assert (H4 := Rmax_r (Rmax a b) c).
  assert (H5 := Rmax_l a b). assert (H6 := Rmax_r a b). lra.
Qed.

(** A linear form on a box is at most its value at one of the corners, and
    at least its value at one of them. *)
Lemma box_corner_bounds (hw hh lx ly u v : R) :
  - hw <= lx <= hw -> - hh <= ly <= hh ->
  (lx * u + ly * v <= hw * u + hh * v \/ lx * u + ly * v <= hw * u - hh * v
   \/ lx * u + ly * v <= - (hw * u) + hh * v
   \/ lx * u + ly * v <= - (hw * u) - hh * v)
  /\ (hw * u + hh * v <= lx * u + ly * v \/ hw * u - hh * v <= lx * u + ly * v
      \/ - (hw * u) + hh * v <= lx * u + ly * v
      \/ - (hw * u) - hh * v <= lx * u + ly * v).
Proof.
  intros Hx Hy.
  destruct (Rle_dec 0 u) as [Hu | Hu], (Rle_dec 0 v) as [Hv | Hv].
  - assert (0 <= (hw - lx) * u) by (apply Rmult_le_pos; lra).
    assert (0 <= (hw + lx) * u) by (apply Rmult_le_pos; lra).
    assert (0 <= (hh - ly) * v) by (apply Rmult_le_pos; lra).
    assert (0 <= (hh + ly) * v) by (apply Rmult_le_pos; lra).
    split; [left | right; right; right]; lra.
  - assert (0 <= (hw - lx) * u) by (apply Rmult_le_pos; lra).
    assert (0 <= (hw + lx) * u) by (apply Rmult_le_pos; lra).
    assert (0 <= (hh - ly) * - v) by (apply Rmult_le_pos; lra).
    assert (0 <= (hh + ly) * - v) by (apply Rmult_le_pos; lra).
    split; [right; left | right; right; left]; lra.
  - assert (0 <= (hw - lx) * - u) by (apply Rmult_le_pos; lra).
    assert (0 <= (hw + lx) * - u) by (apply Rmult_le_pos; lra).
    assert (0 <= (hh - ly) * v) by (apply Rmult_le_pos; lra).
    assert (0 <= (hh + ly) * v) by (apply Rmult_le_pos; lra).
    split; [right; right; left | right; left]; lra.
  - assert (0 <= (hw - lx) * - u) by (apply Rmult_le_pos; lra).
    assert (0 <= (hw + lx) * - u) by (apply Rmult_le_pos; lra).
    assert (0 <= (hh - ly) * - v) by (apply Rmult_le_pos; lra).
    assert (0 <= (hh + ly) * - v) by (apply Rmult_le_pos; lra).
    split; [right; right; right | left]; lra.
Qed.

(** X8.  A point that [isPointInTransformedRect] accepts for an image lies
    inside the axis-aligned rectangle that [getTransformedImageBounds]
    computes for it: whatever hits the image is within its selection box. *)
Theorem point_in_image_is_in_its_bounds :
  forall (point : Point) (tr : ImageTransform),
    isPointInTransformedRect point tr = true ->
    inRect point (getTransformedImageBounds tr).
Proof.
  intros point tr Hin. apply isPointInTransformedRect_iff in Hin.
  destruct Hin as [Hlx Hly].
  assert (H := cos2_sin2_one (t_rotation tr)).
  unfold inRect, getTransformedImageBounds, minOver, maxOver.
  rewrite !worldCorner_xy. cbn [fold_left p_x p_y r_x r_y r_width r_height].
  set (c := cos (t_rotation tr)) in *. set (s := sin (t_rotation tr)) in *.
  set (hw := t_width tr / 2) in *. set (hh := t_height tr / 2) in *.
  set (lx := (p_x point - t_x tr) * c + (p_y point - t_y tr) * s) in *.
  set (ly := (p_y point - t_y tr) * c - (p_x point - t_x tr) * s) in *.
  assert (Ex : p_x point = lx * c + ly * - s + t_x tr).
  { unfold lx, ly.
    transitivity ((p_x point - t_x tr) * (c * c + s * s) + t_x tr);
      [rewrite H; ring | ring]. }
  assert (Ey : p_y point = lx * s + ly * c + t_y tr).
  { unfold lx, ly.
    transitivity ((p_y point - t_y tr) * (c * c + s * s) + t_y tr);
      [rewrite H; ring | ring]. }
  destruct (box_corner_bounds hw hh lx ly c (- s) Hlx Hly) as [Ux Lx].
  destruct (box_corner_bounds hw hh lx ly s c Hlx Hly) as [Uy Ly].
  split.
  - match goal with
    | |- Rmin (Rmin (Rmin ?a ?b) ?c0) ?d <= _ <= _ =>
      destruct (min4_le a b c0 d) as (M1 & M2 & M3 & M4);
        destruct (max4_ge a b c0 d) as (N1 & N2 & N3 & N4)
    end.
    destruct Ux as [Ux | [Ux | [Ux | Ux]]], Lx as [Lx | [Lx | [Lx | Lx]]];
      split; lra.
  - match goal with
    | |- Rmin (Rmin (Rmin ?a ?b) ?c0) ?d <= _ <= _ =>
      destruct (min4_le a b c0 d) as (M1 & M2 & M3 & M4);
        destruct (max4_ge a b c0 d) as (N1 & N2 & N3 & N4)
    end.
    destruct Uy as [Uy | [Uy | [Uy | Uy]]], Ly as [Ly | [Ly | [Ly | Ly]]];
      split; lra.
Qed.

Lemma point_in_image_is_in_its_bounds_witness :
  inRect (mkPoint 10 5) (getTransformedImageBounds (mkImageTransform 0 0 100 50 0)).
Proof.
  apply point_in_image_is_in_its_bounds.
  apply isPointInTransformedRect_iff. cbn [p_x p_y t_x t_y t_width t_height t_rotation].
  rewrite cos_0, sin_0. lra.
Defined.

(** X9.  For a pen, line or dashed-line stroke and a non-negative reach
    [tolerance + lineWidth/2], [isPointOnStroke] never throws and answers
    [true] exactly when the distance from the point to some segment between
    two consecutive points of the stroke is strictly less than that reach
    (a point at exactly the reach is not hit); a stroke with fewer than two
    points is never hit. *)
Theorem isPointOnStroke_polyline :
  forall (point : Point) (stroke : Stroke) (tolerance : R),
    tool stroke = pen \/ tool stroke = line \/ tool stroke = dashed_line ->
    0 <= tolerance + lineWidth stroke / 2 ->
    exists hit,
      isPointOnStroke point stroke tolerance = Ok hit
      /\ (hit = true
          <-> Spec.withinOfPath point (points stroke)
                                (tolerance + lineWidth stroke / 2)).
Proof.
  intros point stroke tol Ht Hr.
  assert (E : isPointOnStroke point stroke tol
              = Ok (anySegment
                      (fun a b =>
                         pDistanceToSegmentSquared point a b
                         <? (tol + lineWidth stroke / 2) * (tol + lineWidth stroke / 2))
                      (points stroke))).
  { unfold isPointOnStroke. destruct Ht as [-> | [-> | ->]]; reflexivity. }
  rewrite E. eexists. split; [reflexivity |].
  rewrite anySegment_iff. unfold Spec.withinOfPath.
  split; intros (i & a & b & Ha & Hb & H); exists i, a, b; repeat split; try assumption.
  - apply pDistance_lt_iff; [assumption | now apply ltb_iff].
  - apply ltb_iff. now apply pDistance_lt_iff.
Qed.

Lemma isPointOnStroke_polyline_witness :
  let s := mkStroke "s" [mkPoint 0 0; mkPoint 100 0] "#000000" 4 pen in
  exists hit, isPointOnStroke (mkPoint 50 3) s 0 = Ok hit.
Proof.
  intros s.
  destruct (isPointOnStroke_polyline (mkPoint 50 3) s 0) as (hit & H & _).
  - now left.
  - cbn. lra.
  - exists hit. exact H.
Defined.

(** X10.  On a stroke with at least two points [isPointOnStroke] never
    throws, whatever the tool, the query point and the tolerance. *)
Theorem isPointOnStroke_two_points_no_throw :
  forall (point : Point) (stroke : Stroke) (tolerance : R),
    (2 <= List.length (points stroke))%nat ->
    exists hit, isPointOnStroke point stroke tolerance = Ok hit.
Proof.
  intros point stroke tol Hlen. unfold isPointOnStroke.
  destruct (points stroke) as [| a [| b rest]]; cbn in Hlen; try lia.
  destruct (tool stroke); eexists; reflexivity.
Qed.

Lemma isPointOnStroke_two_points_no_throw_witness :
  let s := mkStroke "r" [mkPoint 0 0; mkPoint 10 10] "#000000" 2 rectangle in
  exists hit, isPointOnStroke (mkPoint 5 0) s 1 = Ok hit.
Proof.
  intros s. apply (isPointOnStroke_two_points_no_throw (mkPoint 5 0) s 1).
  cbn. lia.
Defined.

(** ** Image handles *)

(** X11.  A single-image resize of an image of positive width and height
    from a corner handle keeps the diagonally opposite corner where it was:
    the world position of the opposite handle is the same for the initial
    and for the resized transform, whatever the pointer did and also when a
    minimum clamp applies. *)
Theorem resize_image_keeps_opposite_corner :
  forall (it : ImageTransform) (h : string) (startPoint_ finalCoords : Point)
         (zoom : R),
    isCornerHandle h = true ->
    0 < t_width it -> 0 < t_height it ->
    let ft := resizedImageTransform it (Some h) startPoint_ finalCoords in
    exists pos pos',
      map_get (getHandles it zoom) (oppositeHandle h) = Some pos
      /\ map_get (getHandles ft zoom) (oppositeHandle h) = Some pos'
      /\ worldCorner ft pos' = worldCorner it pos.
Proof.
  intros it h sp fc zoom Hc _ _ ft.
  destruct (isCornerHandle_cases h Hc) as [-> | [-> | [-> | ->]]];
    unfold ft, resizedImageTransform;
    destruct (proposedSize it _ sp fc) as [w' h'];
    cbn [includes Ascii.eqb Bool.eqb orb];
    (eexists; eexists; split; [reflexivity |]; split; [reflexivity |]);
    rewrite !worldCorner_xy; cbn [t_x t_y t_width t_height t_rotation];
    f_equal; field.
Qed.

Lemma resize_image_keeps_opposite_corner_witness :
  let it := mkImageTransform 0 0 100 50 0 in
  let ft := resizedImageTransform it (Some "br"%string) (mkPoint 0 0)
                                  (mkPoint (-70) 0) in
  exists pos pos',
    map_get (getHandles it 1) "tl" = Some pos
    /\ map_get (getHandles ft 1) "tl" = Some pos'
    /\ worldCorner ft pos' = worldCorner it pos.
Proof.
  intros it ft.
  apply (resize_image_keeps_opposite_corner it "br" (mkPoint 0 0) (mkPoint (-70) 0) 1).
  - reflexivity.
  - cbn; lra.
  - cbn; lra.
Defined.

Lemma inHandleSquare_iff (lx ly hs : R) (entry : string * Point) :
  inHandleSquare lx ly hs entry = true
  <-> p_x (snd entry) - hs / 2 <= lx <= p_x (snd entry) + hs / 2
      /\ p_y (snd entry) - hs / 2 <= ly <= p_y (snd entry) + hs / 2.
Proof.
  unfold inHandleSquare. rewrite !andb_true_iff, !geb_iff, !leb_iff. tauto.
Qed.

Lemma inHandleSquare_true (lx ly hs : R) (entry : string * Point) :
  p_x (snd entry) - hs / 2 <= lx <= p_x (snd entry) + hs / 2 ->
  p_y (snd entry) - hs / 2 <= ly <= p_y (snd entry) + hs / 2 ->
  inHandleSquare lx ly hs entry = true.
Proof. intros. apply inHandleSquare_iff. tauto. Qed.

Lemma inHandleSquare_false (lx ly hs : R) (entry : string * Point) :
  lx < p_x (snd entry) - hs / 2 \/ p_x (snd entry) + hs / 2 < lx
  \/ ly < p_y (snd entry) - hs / 2 \/ p_y (snd entry) + hs / 2 < ly ->
  inHandleSquare lx ly hs entry = false.
Proof.
  intros H. apply not_true_is_false. rewrite inHandleSquare_iff. lra.
Qed.

(** [getHandleAtPoint] at the world position of a local point looks the
    handles up with that local point. *)
Lemma getHandleAtPoint_world (tr : ImageTransform) (zoom : R) (pos : Point) :
  getHandleAtPoint (worldCorner tr pos) tr zoom
  = option_map fst (find (inHandleSquare (p_x pos) (p_y pos) (HANDLE_SIZE / zoom))
                         (getHandles tr zoom)).
Proof.
  unfold getHandleAtPoint. destruct pos as [lx ly]. rewrite worldCorner_xy.
  cbn [p_x p_y]. rewrite cos_neg, sin_neg.
  assert (H := cos2_sin2_one (t_rotation tr)).
  set (c := cos (t_rotation tr)) in *. set (s := sin (t_rotation tr)) in *.
  replace ((lx * c - ly * s + t_x tr - t_x tr) * c
           - (lx * s + ly * c + t_y tr - t_y tr) * - s) with lx
    by (transitivity (lx * (c * c + s * s)); [rewrite H; ring | ring]).
  replace ((lx * c - ly * s + t_x tr - t_x tr) * - s
           + (lx * s + ly * c + t_y tr - t_y tr) * c) with ly
    by (transitivity (ly * (c * c + s * s)); [rewrite H; ring | ring]).
  reflexivity.
Qed.

(** X12.  For a positive zoom and an image wider and higher than a handle
    ([HANDLE_SIZE / zoom]), [getHandleAtPoint] at the world position of each
    of the five handles of [getHandles] returns that handle's name. *)
Theorem getHandleAtPoint_finds_each_handle :
  forall (tr : ImageTransform) (zoom : R) (handleName : string) (pos : Point),
    0 < zoom ->
    HANDLE_SIZE / zoom < t_width tr -> HANDLE_SIZE / zoom < t_height tr ->
    In (handleName, pos) (getHandles tr zoom) ->
    getHandleAtPoint (worldCorner tr pos) tr zoom = Some handleName.
Proof.
  intros tr zoom handleName pos Hz Hw Hh Hin.
  rewrite getHandleAtPoint_world.
  assert (Hhs : 0 < HANDLE_SIZE / zoom).
  { unfold HANDLE_SIZE. apply Rdiv_lt_0_compat; lra. }
  assert (Hro : 0 < ROTATION_HANDLE_OFFSET / zoom).
  { unfold ROTATION_HANDLE_OFFSET. apply Rdiv_lt_0_compat; lra. }
  unfold getHandles in *.
  set (hs := HANDLE_SIZE / zoom) in *. set (ro := ROTATION_HANDLE_OFFSET / zoom) in *.
  set (w := t_width tr) in *. set (h := t_height tr) in *.
  cbn [In] in Hin.
  destruct Hin as [E | [E | [E | [E | [E | []]]]]]; inversion E; subst; clear E;
    cbn [find p_x p_y];
    repeat first
           [ rewrite inHandleSquare_true by (cbn [snd p_x p_y]; lra); reflexivity
           | rewrite inHandleSquare_false by (cbn [snd p_x p_y]; lra) ].
Qed.

Lemma getHandleAtPoint_finds_each_handle_witness :
  let tr := mkImageTransform 0 0 100 50 0 in
  getHandleAtPoint (worldCorner tr (mkPoint (100 / 2) (50 / 2))) tr 1 = Some "br"%string.
Proof.
  intros tr.
  apply (getHandleAtPoint_finds_each_handle tr 1 "br" (mkPoint (100 / 2) (50 / 2))).
  - lra.
  - unfold HANDLE_SIZE. cbn. lra.
  - unfold HANDLE_SIZE. cbn. lra.
  - cbn. right. right. right. left. reflexivity.
Defined.

(** ** Erasure: what the replacement strokes are *)

Lemma pushFragment_In (newFragments : list (list Point))
      (currentFragment frag : list Point) :
  In frag (pushFragment newFragments currentFragment) ->
  In frag newFragments
  \/ (frag = currentFragment /\ (2 <= List.length currentFragment)%nat).
Proof.
  unfold pushFragment.
  destruct (Nat.ltb_spec 1 (List.length currentFragment)) as [Hl | Hl]; [| now left].
  intros H. apply in_app_or in H. destruct H as [H | [<- | []]]; [now left |].
  right. split; [reflexivity | lia].
Qed.

Section FragmentInvariant.

Variable eraserStroke : Stroke.
Variable pointRadius : R.

(** What a fragment under construction holds: points that survive. *)
Variable kept : Point -> Prop.

Lemma pushFragment_good (newFragments : list (list Point))
      (currentFragment : list Point) :
  Forall (goodFragment kept) newFragments -> Forall kept currentFragment ->
  Forall (goodFragment kept) (pushFragment newFragments currentFragment).
Proof.
  intros Hn Hc. apply Forall_forall. intros frag Hin.
  apply pushFragment_In in Hin. destruct Hin as [Hin | [-> Hl]].
  - rewrite Forall_forall in Hn. now apply Hn.
  - split; assumption.
Qed.

Lemma penFragments_good (pts : list Point) :
  (forall p, In p pts -> isPointErased p eraserStroke pointRadius = false -> kept p) ->
  forall (currentFragment : list Point) (newFragments : list (list Point))
         (madeCut : bool),
    Forall kept currentFragment -> Forall (goodFragment kept) newFragments ->
    Forall (goodFragment kept)
           (fst (penFragments eraserStroke pointRadius pts currentFragment
                              newFragments madeCut)).
Proof.
  induction pts as [| p1 rest IH]; intros Hk cf nf mc Hcf Hnf.
  - cbn [penFragments fst]. now apply pushFragment_good.
  - cbn [penFragments].
    assert (Hk' : forall p, In p rest ->
                            isPointErased p eraserStroke pointRadius = false -> kept p).
    { intros p Hp. apply Hk. now right. }
    assert (Hcf' : Forall kept
                          (if isPointErased p1 eraserStroke pointRadius
                           then cf else cf ++ [p1])).
    { destruct (isPointErased p1 eraserStroke pointRadius) eqn:E; [assumption |].
      apply Forall_app. split; [assumption |]. constructor; [| constructor].
      apply Hk; [now left | assumption]. }
    destruct (isPointErased p1 eraserStroke pointRadius || _).
    + apply IH; [assumption | constructor |]. now apply pushFragment_good.
    + now apply IH.
Qed.

Lemma segmentFragments_good (samples : list Point) :
  (forall p, In p samples ->
             isPointErased p eraserStroke pointRadius = false -> kept p) ->
  forall (currentFragment : list Point) (newFragments : list (list Point)),
    Forall kept currentFragment -> Forall (goodFragment kept) newFragments ->
    Forall (goodFragment kept)
           (segmentFragments eraserStroke pointRadius samples currentFragment
                             newFragments).
Proof.
  induction samples as [| p rest IH]; intros Hk cf nf Hcf Hnf.
  - cbn [segmentFragments]. now apply pushFragment_good.
  - cbn [segmentFragments].
    assert (Hk' : forall q, In q rest ->
                            isPointErased q eraserStroke pointRadius = false -> kept q).
    { intros q Hq. apply Hk. now right. }
    destruct (isPointErased p eraserStroke pointRadius) eqn:E; cbn [negb].
    + apply IH; [assumption | constructor |]. now apply pushFragment_good.
    + apply IH; [assumption | | assumption].
      apply Forall_app. split; [assumption |]. constructor; [| constructor].
      apply Hk; [now left | assumption].
Qed.

Lemma shapeFragments_good (segments : list Segment) :
  (forall p, isPointErased p eraserStroke pointRadius = false -> kept p) ->
  Forall (goodFragment kept) (shapeFragments eraserStroke pointRadius segments).
Proof.
  intros Hk. unfold shapeFragments.
  assert (H : forall nf, Forall (goodFragment kept) nf ->
                         Forall (goodFragment kept)
                                (fold_left
                                   (fun newFragments seg =>
                                      segmentFragments eraserStroke pointRadius
                                                       (samplesOf seg) [] newFragments)
                                   segments nf)).
  { induction segments as [| seg l IH]; intros nf Hnf; [assumption |].
    cbn [fold_left]. apply IH.
    apply segmentFragments_good; [intros p _; apply Hk | constructor | assumption]. }
  apply H. constructor.
Qed.

End FragmentInvariant.

(** What [fragmentStroke] returns for a stroke it cuts: the stroke is not
    an eraser stroke, and every fragment has at least two points, none of
    them erased; the fragments of a pen stroke hold points of the stroke
    only. *)
Lemma fragmentStroke_fragments (eraserStroke : Stroke) (eraserBounds : Rect)
      (stroke : Stroke) (frags : list (list Point)) :
  fragmentStroke eraserStroke eraserBounds stroke = Some frags ->
  tool stroke <> eraser
  /\ forall frag, In frag frags ->
                  (2 <= List.length frag)%nat
                  /\ (forall p, In p frag ->
                                isPointErased p eraserStroke (lineWidth stroke / 2) = false)
                  /\ (tool stroke = pen -> forall p, In p frag -> In p (points stroke)).
Proof.
  unfold fragmentStroke.
  destruct (DrawingTool_eqb (tool stroke) eraser) eqn:Et; [discriminate |].
  destruct (getStrokeBounds stroke) as [sb |]; [| discriminate].
  destruct (negb (doRectsIntersect eraserBounds sb)); [discriminate |].
  destruct (strokeSegments stroke) as [[| seg segs] |]; try discriminate.
  intros H. split; [intros E; rewrite E in Et; discriminate |].
  set (r := lineWidth stroke / 2) in *.
  assert (Hall :
            Forall (goodFragment
                      (fun p => isPointErased p eraserStroke r = false
                                /\ (tool stroke = pen -> In p (points stroke))))
                   frags).
  { destruct (tool stroke) eqn:Etool.
    - (* pen *)
      pose proof (penFragments_good
                    eraserStroke r
                    (fun p => isPointErased p eraserStroke r = false
                              /\ (pen = pen -> In p (points stroke)))
                    (points stroke)) as Hpen.
      destruct (penFragments eraserStroke r (points stroke) [] [] false)
        as [nf mc] eqn:Epen.
      destruct mc; [| discriminate]. inversion H; subst.
      specialize (Hpen (fun p Hp He => conj He (fun _ => Hp)) [] [] false
                       (Forall_nil _) (Forall_nil _)).
      rewrite Epen in Hpen. exact Hpen.
    - discriminate.
    - destruct (_ >? 1); [| discriminate]. inversion H; subst.
      apply shapeFragments_good. intros p Hp. split; [assumption | discriminate].
    - destruct (_ >? 1); [| discriminate]. inversion H; subst.
      apply shapeFragments_good. intros p Hp. split; [assumption | discriminate].
    - destruct (_ >? 1); [| discriminate]. inversion H; subst.
      apply shapeFragments_good. intros p Hp. split; [assumption | discriminate].
    - destruct (_ >? 1); [| discriminate]. inversion H; subst.
      apply shapeFragments_good. intros p Hp. split; [assumption | discriminate].
    - destruct (_ >? 1); [| discriminate]. inversion H; subst.
      apply shapeFragments_good. intros p Hp. split; [assumption | discriminate]. }
  intros frag Hin. rewrite Forall_forall in Hall. destruct (Hall frag Hin) as [Hl Hk].
  rewrite Forall_forall in Hk.
  split; [assumption |]. split.
  - intros p Hp. apply (Hk p Hp).
  - intros Hpen p Hp. now apply (Hk p Hp).
Qed.

Lemma set_add_keeps (s : StringSet) (k x : string) : In x s -> In x (set_add s k).
Proof.
  unfold set_add. destruct (set_has s k); [auto |]. intros H. apply in_or_app. now left.
Qed.

Lemma set_add_here (s : StringSet) (k : string) : In k (set_add s k).
Proof.
  unfold set_add. destruct (set_has s k) eqn:E.
  - now apply set_has_In.
  - apply in_or_app. right. now left.
Qed.

Section ErasureFold.

Variable randomUUID : nat -> string.
Variable eraserStroke : Stroke.
Variable eraserBounds : Rect.


Lemma erasureStep_keeps_deleted (acc : Erasure * nat) (s : Stroke) (k : string) :
  In k (strokesToDelete (fst acc)) -> In k (strokesToDelete (fst ((erasureStep randomUUID eraserStroke eraserBounds) acc s))).
Proof.
  unfold erasureStep. destruct acc as [e calls].
  destruct (fragmentStroke eraserStroke eraserBounds s); [| auto].
  cbn [fst strokesToDelete]. apply set_add_keeps.
Qed.

Lemma erasureFold_keeps_deleted (l : list Stroke) (acc : Erasure * nat) (k : string) :
  In k (strokesToDelete (fst acc)) ->
  In k (strokesToDelete (fst (fold_left (erasureStep randomUUID eraserStroke eraserBounds) l acc))).
Proof.
  revert acc. induction l as [| s l IH]; intros acc H; [assumption |].
  cbn [fold_left]. apply IH. now apply erasureStep_keeps_deleted.
Qed.

(** Where an added stroke comes from. *)
Lemma erasureFold_added (l : list Stroke) (acc : Erasure * nat) (s' : Stroke) :
  In s' (strokesToAdd (fst (fold_left (erasureStep randomUUID eraserStroke eraserBounds) l acc))) ->
  In s' (strokesToAdd (fst acc))
  \/ exists s frags frag k,
      In s l /\ fragmentStroke eraserStroke eraserBounds s = Some frags
      /\ In frag frags
      /\ s' = mkStroke (fragmentId randomUUID k) frag (color s) (lineWidth s) pen
      /\ In (id s) (strokesToDelete (fst (fold_left (erasureStep randomUUID eraserStroke eraserBounds) l acc))).
Proof.
  revert acc. induction l as [| s0 l IH]; intros acc H; [now left |].
  cbn [fold_left] in *. destruct (IH _ H) as [Hin | (s & frags & frag & k & Hs & R)].
  - unfold erasureStep in Hin. destruct acc as [e calls].
    destruct (fragmentStroke eraserStroke eraserBounds s0) as [frags |] eqn:Ef;
      [| now left].
    cbn [fst strokesToAdd] in Hin. apply in_app_or in Hin.
    destruct Hin as [Hin | Hin]; [now left |]. right.
    unfold fragmentStrokes in Hin. apply in_map_iff in Hin.
    destruct Hin as ([k frag] & <- & Hkf).
    exists s0, frags, frag, (calls + k)%nat.
    split; [now left |]. split; [assumption |].
    split; [eapply in_combine_r; eassumption |]. split; [reflexivity |].
    apply erasureFold_keeps_deleted. unfold erasureStep. rewrite Ef.
    cbn [fst strokesToDelete]. apply set_add_here.
  - right. exists s, frags, frag, k. split; [now right | exact R].
Qed.

(** The ids of the added strokes are those of the UUIDs drawn, in order. *)
Lemma fragmentStrokes_ids (s : Stroke) (calls : nat) (frags : list (list Point)) :
  map id (fragmentStrokes randomUUID s calls frags)
  = map (fragmentId randomUUID) (seq calls (List.length frags)).
Proof.
  unfold fragmentStrokes.
  assert (H : forall start,
             map id
                 (map (fun '(k, fragPoints) =>
                         mkStroke (String.append "stroke_" (randomUUID (calls + k)))
                                  fragPoints (color s) (lineWidth s) pen)
                      (combine (seq start (List.length frags)) frags))
             = map (fragmentId randomUUID) (seq (calls + start) (List.length frags))).
  { induction frags as [| f frags IH]; intros start; [reflexivity |].
    cbn [List.length seq combine map id]. f_equal.
    rewrite IH. now rewrite Nat.add_succ_r. }
  rewrite (H 0%nat). now rewrite Nat.add_0_r.
Qed.

Lemma erasureFold_ids (l : list Stroke) (acc : Erasure * nat) :
  map id (strokesToAdd (fst acc)) = map (fragmentId randomUUID) (seq 0 (snd acc)) ->
  map id (strokesToAdd (fst (fold_left (erasureStep randomUUID eraserStroke eraserBounds) l acc)))
  = map (fragmentId randomUUID) (seq 0 (snd (fold_left (erasureStep randomUUID eraserStroke eraserBounds) l acc))).
Proof.
  revert acc. induction l as [| s l IH]; intros acc H; [assumption |].
  cbn [fold_left]. apply IH. unfold erasureStep. destruct acc as [e calls].
  destruct (fragmentStroke eraserStroke eraserBounds s) as [frags |]; [| assumption].
  cbn [fst snd strokesToAdd] in *. rewrite map_app, H, fragmentStrokes_ids.
  rewrite seq_app, map_app. reflexivity.
Qed.

End ErasureFold.

(** X13.  Every stroke that [applyErasure] adds is a ['pen'] stroke with at
    least two points, and it replaces a stroke of the input that is not an
    eraser stroke and whose id is in the set to delete, from which it has
    its color and line width. *)
Theorem applyErasure_added_strokes_replace_deleted :
  forall (randomUUID : nat -> string) (eraserStroke : Stroke)
         (currentStrokes : list Stroke) (s' : Stroke),
    In s' (strokesToAdd (applyErasure randomUUID eraserStroke currentStrokes)) ->
    tool s' = pen
    /\ (2 <= List.length (points s'))%nat
    /\ exists s,
        In s currentStrokes /\ tool s <> eraser
        /\ In (id s) (strokesToDelete
                        (applyErasure randomUUID eraserStroke currentStrokes))
        /\ color s' = color s /\ lineWidth s' = lineWidth s.
Proof.
  intros uuid e l s' Hin. unfold applyErasure in *.
  destruct (getStrokeBounds e) as [eb |]; [| contradiction].
  apply erasureFold_added in Hin.
  destruct Hin as [[] | (s & frags & frag & k & Hs & Hf & Hfrag & -> & Hdel)].
  destruct (fragmentStroke_fragments e eb s frags Hf) as [Hne Hall].
  destruct (Hall frag Hfrag) as (Hl & _ & _).
  cbn [tool points color lineWidth]. split; [reflexivity |]. split; [assumption |].
  exists s. auto.
Qed.

(** X14.  No point of a stroke that [applyErasure] adds is erased: each
    one fails [isPointErased] for the eraser stroke and half the line width
    of the stroke it replaces.  When the replaced stroke is a pen stroke,
    the added stroke holds points of that stroke only. *)
Theorem applyErasure_added_points_survive :
  forall (randomUUID : nat -> string) (eraserStroke : Stroke)
         (currentStrokes : list Stroke) (s' : Stroke),
    In s' (strokesToAdd (applyErasure randomUUID eraserStroke currentStrokes)) ->
    exists s,
      In s currentStrokes
      /\ lineWidth s' = lineWidth s
      /\ (forall p, In p (points s') ->
                    isPointErased p eraserStroke (lineWidth s / 2) = false)
      /\ (tool s = pen -> forall p, In p (points s') -> In p (points s)).
Proof.
  intros uuid e l s' Hin. unfold applyErasure in *.
  destruct (getStrokeBounds e) as [eb |]; [| contradiction].
  apply erasureFold_added in Hin.
  destruct Hin as [[] | (s & frags & frag & k & Hs & Hf & Hfrag & -> & Hdel)].
  destruct (fragmentStroke_fragments e eb s frags Hf) as [Hne Hall].
  destruct (Hall frag Hfrag) as (_ & Hun & Hpen).
  exists s. cbn [points lineWidth]. auto.
Qed.

Lemma fragmentId_inj (randomUUID : nat -> string) :
  (forall a b, randomUUID a = randomUUID b -> a = b) ->
  forall a b, fragmentId randomUUID a = fragmentId randomUUID b -> a = b.
Proof.
  intros Hinj a b H. apply Hinj. unfold fragmentId in H. cbn in H.
  now inversion H.
Qed.

Lemma NoDup_map_seq (f : nat -> string) (n : nat) :
  (forall a b, f a = f b -> a = b) -> NoDup (map f (seq 0 n)).
Proof.
  intros Hinj.
  assert (H : forall start, NoDup (map f (seq start n))).
  { induction n as [| n IH]; intros start; [constructor |].
    cbn [seq map]. constructor; [| apply IH].
    intros Hin. apply in_map_iff in Hin. destruct Hin as (k & Hk & Hseq).
    apply Hinj in Hk. subst k. apply in_seq in Hseq. lia. }
  apply H.
Qed.

(** X15.  When [crypto.randomUUID()] never returns the same value twice,
    the strokes that [applyErasure] adds have pairwise distinct ids. *)
Theorem applyErasure_added_ids_distinct :
  forall (randomUUID : nat -> string) (eraserStroke : Stroke)
         (currentStrokes : list Stroke),
    (forall a b, randomUUID a = randomUUID b -> a = b) ->
    NoDup (map id (strokesToAdd (applyErasure randomUUID eraserStroke currentStrokes))).
Proof.
  intros uuid e l Hinj. unfold applyErasure.
  destruct (getStrokeBounds e) as [eb |]; [| constructor].
  rewrite erasureFold_ids by reflexivity.
  apply NoDup_map_seq. now apply fragmentId_inj.
Qed.

Lemma tally_inj (a b : nat) : tally a = tally b -> a = b.
Proof.
  revert b. induction a as [| a IH]; intros [| b] H; cbn in H;
    try reflexivity; try discriminate.
  f_equal. apply IH. now inversion H.
Qed.

Lemma applyErasure_axisStroke_adds (randomUUID : nat -> string) :
  In (mkStroke (fragmentId randomUUID 0) [mkPoint 0 0; mkPoint 10 0]
               "#000000" 2 pen)
     (strokesToAdd (applyErasure randomUUID dotEraser [axisStroke])).
Proof.
  unfold applyErasure.
  change (getStrokeBounds dotEraser) with (Some (mkRect 15 0 (15 - 15) (0 - 0))).
  cbn [fold_left]. unfold erasureStep. rewrite fragmentStroke_axisStroke.
  left. reflexivity.
Qed.

Lemma applyErasure_added_strokes_replace_deleted_witness :
  tool (mkStroke (fragmentId tally 0) [mkPoint 0 0; mkPoint 10 0] "#000000" 2 pen)
  = pen.
Proof.
  apply (applyErasure_added_strokes_replace_deleted
           tally dotEraser [axisStroke]
           (mkStroke (fragmentId tally 0) [mkPoint 0 0; mkPoint 10 0] "#000000" 2 pen)).
  apply applyErasure_axisStroke_adds.
Defined.

Lemma applyErasure_added_points_survive_witness :
  exists s,
    In s [axisStroke]
    /\ lineWidth (mkStroke (fragmentId tally 0) [mkPoint 0 0; mkPoint 10 0]
                           "#000000" 2 pen)
       = lineWidth s.
Proof.
  destruct (applyErasure_added_points_survive
              tally dotEraser [axisStroke]
              (mkStroke (fragmentId tally 0) [mkPoint 0 0; mkPoint 10 0]
                        "#000000" 2 pen))
    as (s & Hs & Hl & _).
  - apply applyErasure_axisStroke_adds.
  - exists s. split; assumption.
Defined.

Lemma applyErasure_added_ids_distinct_witness :
  NoDup (map id (strokesToAdd (applyErasure tally dotEraser [axisStroke]))).
Proof.
  apply (applyErasure_added_ids_distinct tally dotEraser [axisStroke]).
  exact tally_inj.
Defined.

(** ** Drawing a stroke: from mouse down to mouse up *)

Lemma noRepeat_snoc (pts : list Point) (c : Point) :
  noRepeat pts ->
  (forall l, nth_error pts (List.length pts - 1) = Some l -> l <> c) ->
  noRepeat (pts ++ [c]).
Proof.
  induction pts as [| a [| b tl] IH]; intros Hn Hl.
  - exact I.
  - cbn. split; [apply Hl; reflexivity | exact I].
  - destruct Hn as [Hab Hn]. change ((a :: b :: tl) ++ [c])
      with (a :: (b :: tl) ++ [c]).
    cbn [app noRepeat]. split; [assumption |]. apply IH; [assumption |].
    intros l E. apply Hl. cbn [List.length] in *.
    replace (S (S (List.length tl)) - 1)%nat with (S (S (List.length tl) - 1))%nat by lia.
    exact E.
Qed.

(** What every frame keeps true of the stroke in progress. *)
Lemma drawingFrame_invariant (start : Point) (current : Stroke) (coords : Point) :
  (if isFreehand (tool current)
   then exists rest, points current = start :: rest /\ noRepeat (start :: rest)
   else exists last, points current = [start; last]) ->
  exists next,
    drawingFrame current coords = Ok next
    /\ id next = id current /\ tool next = tool current
    /\ color next = color current /\ lineWidth next = lineWidth current
    /\ (if isFreehand (tool next)
        then exists rest, points next = start :: rest /\ noRepeat (start :: rest)
        else exists last, points next = [start; last]).
Proof.
  unfold drawingFrame. destruct (isFreehand (tool current)) eqn:Ef.
  - intros (rest & Hp & Hn). rewrite Hp.
    destruct (nth_error (start :: rest) (List.length (start :: rest) - 1))
      as [lastPoint |] eqn:El.
    2:{ apply nth_error_None in El. cbn [List.length] in El. lia. }
    destruct (negb (p_x lastPoint =? p_x coords) || negb (p_y lastPoint =? p_y coords))
             eqn:Ed.
    + eexists. split; [reflexivity |]. cbn [id tool color lineWidth points].
      rewrite Ef. repeat split. exists (rest ++ [coords]). split; [reflexivity |].
      change (start :: rest ++ [coords]) with ((start :: rest) ++ [coords]).
      apply noRepeat_snoc; [assumption |].
      intros l E. rewrite El in E. inversion E; subst l. intros ->.
      rewrite !eqb_refl in Ed. discriminate.
    + exists current. rewrite Ef. repeat split. exists rest. now rewrite Hp.
  - intros (last & Hp). rewrite Hp. eexists. split; [reflexivity |].
    cbn [id tool color lineWidth points]. rewrite Ef. repeat split. now exists coords.
Qed.

(** X16.  A stroke started by [handleMouseDown] and grown by any number of
    frames of [drawingAnimationLoop] never makes the loop throw and keeps
    its id, tool, color and line width.  A shape has exactly two points,
    the first being the start point; a pen or eraser stroke starts at the
    start point and never has the same point twice in a row. *)
Theorem drawing_in_progress_is_well_formed :
  forall (id_ : string) (t : DrawingTool) (color_ : string) (lineWidth_ : R)
         (start : Point) (moves : list Point),
    exists s,
      drawingFrames (newStroke id_ t color_ lineWidth_ start) moves = Ok s
      /\ id s = id_ /\ tool s = t /\ color s = color_ /\ lineWidth s = lineWidth_
      /\ (if isFreehand t
          then exists rest, points s = start :: rest /\ noRepeat (start :: rest)
          else exists last, points s = [start; last]).
Proof.
  intros id_ t color_ lineWidth_ start moves.
  assert (Hgen : forall current,
             (if isFreehand (tool current)
              then exists rest, points current = start :: rest
                                /\ noRepeat (start :: rest)
              else exists last, points current = [start; last]) ->
             exists s,
               drawingFrames current moves = Ok s
               /\ id s = id current /\ tool s = tool current
               /\ color s = color current /\ lineWidth s = lineWidth current
               /\ (if isFreehand (tool s)
                   then exists rest, points s = start :: rest
                                     /\ noRepeat (start :: rest)
                   else exists last, points s = [start; last])).
  { induction moves as [| coords moves IH]; intros current Hinv.
    - exists current. cbn [drawingFrames].
      repeat (split; [reflexivity |]). exact Hinv.
    - cbn [drawingFrames].
      destruct (drawingFrame_invariant start current coords Hinv)
        as (next & -> & Hid & Ht & Hc & Hl & Hnext).
      destruct (IH next Hnext) as (s & Hs & Hid' & Ht' & Hc' & Hl' & Hinv').
      exists s. split; [exact Hs |].
      split; [congruence |]. split; [congruence |]. split; [congruence |].
      split; [congruence |]. exact Hinv'. }
  destruct (Hgen (newStroke id_ t color_ lineWidth_ start))
    as (s & Hs & Hid & Ht & Hc & Hl & Hinv).
  { unfold newStroke. cbn [tool points]. destruct (isFreehand t).
    - exists []. split; [reflexivity | exact I].
    - now exists start. }
  exists s. unfold newStroke in *. cbn [id tool color lineWidth] in *.
  rewrite Ht in Hinv.
  split; [exact Hs |]. repeat (split; [assumption |]). exact Hinv.
Qed.

(** *** Finishing the stroke *)

Lemma find_map_current (st : AppState) (f : Project -> Project) (l : list Project) :
  (forall p, isCurrent st (f p) = isCurrent st p) ->
  find (isCurrent st) (map (fun p => if isCurrent st p then f p else p) l)
  = option_map f (find (isCurrent st) l).
Proof.
  intros Hf. induction l as [| p l IH]; [reflexivity |].
  cbn [map find]. destruct (isCurrent st p) eqn:E.
  - now rewrite Hf, E.
  - now rewrite E.
Qed.

Lemma currentProject_setCurrentStrokes (st : AppState) (ns : list Stroke) :
  currentProject (setCurrentStrokes st ns)
  = option_map (fun p => mkProject (proj_id p) (name p) ns (images p))
               (currentProject st).
Proof.
  unfold currentProject, setCurrentStrokes. cbn [projects].
  rewrite <- (find_map_current
                st (fun p => mkProject (proj_id p) (name p) ns (images p)));
    [reflexivity | reflexivity].
Qed.

Lemma currentProject_setCurrentContent (st : AppState) (ns : list Stroke)
      (ni : list CanvasImage) :
  currentProject (setCurrentContent st ns ni)
  = option_map (fun p => mkProject (proj_id p) (name p) ns ni) (currentProject st).
Proof.
  unfold currentProject, setCurrentContent. cbn [projects].
  rewrite <- (find_map_current st (fun p => mkProject (proj_id p) (name p) ns ni));
    [reflexivity | reflexivity].
Qed.

Lemma currentProject_recordNewHistoryState (st : AppState) (s : list Stroke)
      (i : list CanvasImage) :
  currentProject (recordNewHistoryState st s i) = currentProject st.
Proof. reflexivity. Qed.

Lemma currentHistoryState_recorded (st : AppState) (s : list Stroke)
      (i : list CanvasImage) :
  historyOk st ->
  currentHistoryState (recordNewHistoryState st s i) = mkSnapshot s i.
Proof.
  intros H. unfold currentHistoryState.
  change (nth_error (history (recordNewHistoryState st s i))
                    (historyIndex (recordNewHistoryState st s i)))
    with (currentSnapshot (recordNewHistoryState st s i)).
  now rewrite recordNewHistoryState_current.
Qed.

(** The state after a commit of [ns] by the drawing path. *)
Lemma committed_strokes (st : AppState) (ns : list Stroke) (ni : list CanvasImage) :
  historyOk st -> currentProject st <> None ->
  let st' := setCurrentStrokes (recordNewHistoryState st ns ni) ns in
  historyOk st'
  /\ currentHistoryState st' = mkSnapshot ns ni
  /\ exists p', currentProject st' = Some p' /\ strokes p' = ns.
Proof.
  intros Hok Hcp st'. split; [| split].
  - apply (recordNewHistoryState_ok st ns ni) in Hok. exact Hok.
  - exact (currentHistoryState_recorded st ns ni Hok).
  - unfold st'. rewrite currentProject_setCurrentStrokes,
                currentProject_recordNewHistoryState.
    destruct (currentProject st) as [p |]; [| contradiction].
    eexists. split; reflexivity.
Qed.

Lemma applyErasure_added_pen (randomUUID : nat -> string) (e : Stroke)
      (l : list Stroke) (s' : Stroke) :
  In s' (strokesToAdd (applyErasure randomUUID e l)) -> tool s' = pen.
Proof.
  unfold applyErasure. destruct (getStrokeBounds e) as [eb |]; [| contradiction].
  intros H. apply erasureFold_added in H.
  destruct H as [[] | (s & frags & frag & k & _ & _ & _ & -> & _)]. reflexivity.
Qed.

(** X17.  When the mouse-up of a drawing gesture returns, either nothing
    changed, or one snapshot was committed and the current project's
    strokes are those of the new current snapshot.  An eraser stroke is
    never stored: if the current snapshot held no eraser stroke before, it
    holds none after, whatever stroke was drawn. *)
Theorem finishDrawing_never_stores_an_eraser :
  forall (randomUUID : nat -> string) (st st' : AppState) (finishedStroke : Stroke),
    historyOk st ->
    noEraser (snap_strokes (currentHistoryState st)) ->
    finishDrawing randomUUID st finishedStroke = Ok st' ->
    historyOk st'
    /\ noEraser (snap_strokes (currentHistoryState st'))
    /\ (st' = st
        \/ (List.length (history st') = historyIndex st + 2
            /\ exists p', currentProject st' = Some p'
                          /\ strokes p' = snap_strokes (currentHistoryState st'))%nat).
Proof.
  intros uuid st st' fs Hok Hne. unfold finishDrawing.
  destruct (currentProject st) as [cp |] eqn:Ecp.
  2:{ intros H; inversion H; subst. auto. }
  assert (Hcp : currentProject st <> None) by (rewrite Ecp; discriminate).
  assert (Hcommit :
            forall ns, noEraser ns ->
                       let s2 := setCurrentStrokes
                                   (recordNewHistoryState
                                      st ns (snap_images (currentHistoryState st))) ns in
                       historyOk s2
                       /\ noEraser (snap_strokes (currentHistoryState s2))
                       /\ (s2 = st
                           \/ (List.length (history s2) = historyIndex st + 2
                               /\ exists p', currentProject s2 = Some p'
                                             /\ strokes p'
                                                = snap_strokes (currentHistoryState s2))%nat)).
  { intros ns Hns s2.
    destruct (committed_strokes st ns (snap_images (currentHistoryState st)) Hok Hcp)
      as (H1 & H2 & p' & H3 & H4).
    fold s2 in H1, H2, H3. split; [assumption |]. rewrite H2. cbn [snap_strokes].
    split; [assumption |]. right. split.
    - destruct (recordNewHistoryState_history
                  st ns (snap_images (currentHistoryState st)) Hok) as (_ & Hl & _).
      exact Hl.
    - exists p'. auto. }
  destruct (DrawingTool_eqb (tool fs) eraser) eqn:Et.
  - destruct (1 <? List.length (points fs))%nat.
    2:{ intros H; inversion H; subst. auto. }
    destruct ((0 <? _)%nat || (0 <? _)%nat).
    2:{ intros H; inversion H; subst. auto. }
    intros H; inversion H; subst. apply Hcommit.
    intros s Hs. apply in_app_or in Hs. destruct Hs as [Hs | Hs].
    + apply filter_In in Hs. apply Hne. tauto.
    + apply applyErasure_added_pen in Hs. rewrite Hs. discriminate.
  - unfold strokeToAdd.
    assert (Hfs : tool fs <> eraser).
    { intros E. rewrite E in Et. discriminate. }
    assert (Hadd : noEraser (snap_strokes (currentHistoryState st) ++ [fs])).
    { intros s Hs. apply in_app_or in Hs. destruct Hs as [Hs | [<- | []]];
        [now apply Hne | assumption]. }
    destruct (DrawingTool_eqb (tool fs) pen).
    + destruct (1 <? List.length (points fs))%nat.
      * intros H; inversion H; subst. now apply Hcommit.
      * intros H; inversion H; subst. auto.
    + destruct (points fs) as [| a [| b rest]]; try discriminate.
      destruct (_ >? 2).
      * intros H; inversion H; subst. now apply Hcommit.
      * intros H; inversion H; subst. auto.
Qed.

Lemma finishDrawing_never_stores_an_eraser_witness :
  let st := resetHistory
              (mkAppState [mkProject "p" "Drawing 1" [] []] (Some "p"%string)
                          [] 0 [] [])
              [] [] in
  historyOk (setCurrentStrokes
               (recordNewHistoryState
                  st [mkStroke "s" [mkPoint 0 0; mkPoint 5 5] "#000000" 2 pen] [])
               [mkStroke "s" [mkPoint 0 0; mkPoint 5 5] "#000000" 2 pen]).
Proof.
  intros st.
  apply (finishDrawing_never_stores_an_eraser
           tally st _ (mkStroke "s" [mkPoint 0 0; mkPoint 5 5] "#000000" 2 pen)).
  - unfold historyOk. cbn. lia.
  - intros s [].
  - reflexivity.
Defined.





(** ** Transform gestures on strokes *)

Lemma transformPoint_drag (dx dy : R) (center : option Point) (p : Point) :
  transformPoint (mkGestureParams dx dy 0 1 None) center p
  = mkPoint (p_x p + dx) (p_y p + dy).
Proof.
  unfold transformPoint. cbn [g_anchor g_scale g_rotation g_dx g_dy].
  rewrite eqb_refl. cbn [negb]. now destruct center.
Qed.

(** X19.  A drag moves ink rigidly: when the pointer has moved from the
    start point, a stroke of the target set comes out of
    [calculateTransformedStrokes] with every point shifted by the pointer's
    displacement and with its id, color, line width and tool unchanged.
    The stroke table has unique ids and the stored properties are those
    taken at gesture start. *)
Theorem drag_translates_selected_strokes :
  forall (project : Project) (cur : Point) (st : TransformStart)
         (ids : StringSet) (s : Stroke),
    NoDup (map id (strokes project)) ->
    In s (strokes project) ->
    strokeIds st = Some ids -> In (id s) ids ->
    cur <> startPoint st ->
    let dx := p_x cur - p_x (startPoint st) in
    let dy := p_y cur - p_y (startPoint st) in
    let lastStrokeProperties :=
      strokePropertiesOf (filter (fun x => set_has ids (id x)) (strokes project)) in
    exists out,
      calculateTransformedStrokes (Some project) lastStrokeProperties cur (Some st)
                                  dragging = Ok out
      /\ In (mkStroke (id s)
                      (map (fun p => mkPoint (p_x p + dx) (p_y p + dy)) (points s))
                      (color s) (lineWidth s) (tool s))
            out.
Proof.
  intros project cur st ids s Hnd Hin Hids Hsel Hmoved dx dy props.
  assert (Hg : gestureParams cur st dragging = mkGestureParams dx dy 0 1 None)
    by reflexivity.
  assert (Hni : isIdentity (mkGestureParams dx dy 0 1 None) = false).
  { unfold isIdentity. cbn [g_dx g_dy g_rotation g_scale].
    destruct (dx =? 0) eqn:Ex; [| reflexivity].
    destruct (dy =? 0) eqn:Ey; [| reflexivity].
    apply eqb_iff in Ex. apply eqb_iff in Ey. exfalso. apply Hmoved.
    destruct cur as [cx cy]. destruct (startPoint st) as [sx sy].
    unfold dx, dy in *. cbn [p_x p_y] in *. f_equal; lra. }
  set (step := transformStroke (strokes project) props
                               (mkGestureParams dx dy 0 1 None) st dragging).
  destruct (transformStrokes_app step ids []) as (out & Hout & Hall).
  { intros i. apply transformStroke_no_throw. discriminate. }
  exists out. split.
  - unfold calculateTransformedStrokes. rewrite Hg, Hni, Hids. exact Hout.
  - apply (Hall (id s)); [assumption |].
    unfold step, transformStroke.
    rewrite (find_by_id _ _ Hnd Hin).
    unfold props. rewrite strokePropertiesOf_get.
    + cbn [sp_points sp_lineWidth Action_eqb andb].
      do 3 f_equal. apply map_ext. intros p. apply transformPoint_drag.
    + now apply NoDup_map_filter.
    + apply filter_In. split; [assumption | now apply set_has_In].
Qed.

Lemma drag_translates_selected_strokes_witness :
  let s := mkStroke "s1" [mkPoint 0 0; mkPoint 2 2] "#000000" 1 pen in
  let project := mkProject "p" "Drawing 1" [s] [] in
  let st := mkTransformStart (mkPoint 1 1) None None None None None
                             (Some ["s1"%string]) None in
  exists out,
    calculateTransformedStrokes
      (Some project)
      (strokePropertiesOf (filter (fun x => set_has ["s1"%string] (id x))
                                  (strokes project)))
      (mkPoint 4 5) (Some st) dragging = Ok out.
Proof.
  intros s project st.
  destruct (drag_translates_selected_strokes project (mkPoint 4 5) st ["s1"%string] s)
    as (out & Hout & _).
  - cbn. constructor; [intros [] | constructor].
  - cbn. now left.
  - reflexivity.
  - cbn. now left.
  - cbn [startPoint st]. intros E. inversion E. lra.
  - exists out. exact Hout.
Defined.

(** *** Committing the gesture *)

Lemma map_get_fold_origin {V : Type} (entries : list (string * V)) (m : JsMap V)
      (k : string) (v : V) :
  map_get (fold_left (fun m kv => map_set m (fst kv) (snd kv)) entries m) k = Some v ->
  In (k, v) entries \/ map_get m k = Some v.
Proof.
  revert m. induction entries as [| [k0 v0] entries IH]; intros m H; [now right |].
  cbn [fold_left fst snd] in H. apply IH in H. destruct H as [H | H].
  - left. now right.
  - rewrite map_get_set in H. destruct (String.eqb k0 k) eqn:E.
    + apply String.eqb_eq in E. inversion H; subst. left. now left.
    + now right.
Qed.

Lemma strokesById_get (finalStrokes : list Stroke) (k : string) (s' : Stroke) :
  map_get (strokesById finalStrokes) k = Some s' -> In s' finalStrokes /\ id s' = k.
Proof.
  unfold strokesById, map_of. intros H. apply map_get_fold_origin in H.
  destruct H as [H | H]; [| discriminate].
  apply in_map_iff in H. destruct H as (x & E & Hx). inversion E; subst. auto.
Qed.

Lemma strokesById_none (finalStrokes : list Stroke) (k : string) :
  ~ In k (map id finalStrokes) -> map_get (strokesById finalStrokes) k = None.
Proof.
  intros H. unfold strokesById, map_of. rewrite map_get_fold_other; [reflexivity |].
  now rewrite map_map.
Qed.

(** X20.  Committing a transform gesture never adds, removes or reorders
    anything: the updated stroke list has the ids of the project's strokes
    in the same order, and the updated image list has the same ids and
    bitmaps in the same order, whatever strokes the gesture computed. *)
Theorem transform_commit_keeps_ids_and_order :
  forall (projectStrokes finalStrokes : list Stroke)
         (projectImages : list CanvasImage)
         (lastImageProperties : JsMap ImageTransform)
         (startState : TransformStart) (finalCoords : Point),
    map id (updatedStrokes projectStrokes finalStrokes) = map id projectStrokes
    /\ map img_id (updatedImages projectImages lastImageProperties startState
                                 finalCoords)
       = map img_id projectImages
    /\ map dataUrl (updatedImages projectImages lastImageProperties startState
                                  finalCoords)
       = map dataUrl projectImages.
Proof.
  intros ps fs imgs props st fc. split; [| split].
  - unfold updatedStrokes. rewrite map_map. apply map_ext. intros s.
    destruct (map_get (strokesById fs) (id s)) as [s' |] eqn:E; [| reflexivity].
    now apply strokesById_get in E.
  - unfold updatedImages. rewrite map_map. apply map_ext. intros img.
    destruct (match imageIds st with Some ids => _ | None => _ end); [| reflexivity].
    now destruct (map_get props (img_id img)).
  - unfold updatedImages. rewrite map_map. apply map_ext. intros img.
    destruct (match imageIds st with Some ids => _ | None => _ end); [| reflexivity].
    now destruct (map_get props (img_id img)).
Qed.

Lemma transformStrokes_origin (step : string -> result (option Stroke))
      (ids : list string) (acc out : list Stroke) (s' : Stroke) :
  transformStrokes step ids acc = Ok out -> In s' out ->
  In s' acc \/ exists i, In i ids /\ step i = Ok (Some s').
Proof.
  revert acc. induction ids as [| i0 ids IH]; intros acc H Hin.
  - cbn in H. inversion H; subst. now left.
  - cbn [transformStrokes] in H. destruct (step i0) as [[s0 |] |] eqn:E;
      [| | discriminate].
    + destruct (IH _ H Hin) as [Hacc | (i & Hi & Hs)].
      * apply in_app_or in Hacc. destruct Hacc as [Hacc | [<- | []]]; [now left |].
        right. exists i0. split; [now left | assumption].
      * right. exists i. split; [now right | assumption].
    + destruct (IH _ H Hin) as [Hacc | (i & Hi & Hs)]; [now left |].
      right. exists i. split; [now right | assumption].
Qed.

Lemma transformStroke_id (ps : list Stroke) (props : JsMap StrokeProperties)
      (g : GestureParams) (st : TransformStart) (a : Action) (i : string)
      (s' : Stroke) :
  transformStroke ps props g st a i = Ok (Some s') -> id s' = i.
Proof.
  unfold transformStroke.
  destruct (find _ ps) as [s |] eqn:Ef; [| discriminate].
  apply find_some in Ef. destruct Ef as [_ Ei]. apply String.eqb_eq in Ei.
  destruct (map_get props i) as [op |]; [| discriminate].
  destruct (_ && _ && _).
  - destruct (sp_points op) as [| p0 [| p1 rest]]; try discriminate.
    destruct (selectionCenter st); [| discriminate].
    intros H. inversion H; subst. reflexivity.
  - intros H. inversion H; subst. reflexivity.
Qed.

(** The strokes a gesture computes all belong to the target set. *)
Lemma calculateTransformedStrokes_ids (project : Project)
      (props : JsMap StrokeProperties) (cur : Point) (st : TransformStart)
      (a : Action) (out : list Stroke) (s' : Stroke) :
  calculateTransformedStrokes (Some project) props cur (Some st) a = Ok out ->
  In s' out ->
  exists ids, strokeIds st = Some ids /\ In (id s') ids.
Proof.
  unfold calculateTransformedStrokes.
  destruct (isIdentity _).
  - intros H Hin. inversion H; subst. apply filter_In in Hin.
    destruct Hin as [_ Hin]. destruct (strokeIds st) as [ids |]; [| discriminate].
    exists ids. split; [reflexivity | now apply set_has_In].
  - destruct (strokeIds st) as [ids |].
    + intros H Hin. exists ids. split; [reflexivity |].
      destruct (transformStrokes_origin _ _ _ _ _ H Hin) as [[] | (i & Hi & Hs)].
      apply transformStroke_id in Hs. now subst.
    + intros H Hin. inversion H; subst. contradiction.
Qed.

(** X21.  A transform gesture leaves every stroke outside its target set
    as it is: after the commit, a project stroke whose id is not in
    [strokeIds] is at the same position of the stroke list, unchanged. *)
Theorem transform_commit_leaves_other_strokes :
  forall (project : Project) (lastStrokeProperties : JsMap StrokeProperties)
         (cur : Point) (st : TransformStart) (a : Action)
         (finalStrokes : list Stroke) (i : nat) (s : Stroke),
    calculateTransformedStrokes (Some project) lastStrokeProperties cur (Some st) a
    = Ok finalStrokes ->
    nth_error (strokes project) i = Some s ->
    (forall ids, strokeIds st = Some ids -> ~ In (id s) ids) ->
    nth_error (updatedStrokes (strokes project) finalStrokes) i = Some s.
Proof.
  intros project props cur st a fs i s Hcalc Hi Hout.
  unfold updatedStrokes. rewrite nth_error_map, Hi. cbn [option_map].
  rewrite strokesById_none; [reflexivity |].
  intros Hin. apply in_map_iff in Hin. destruct Hin as (s' & Hid & Hs').
  destruct (calculateTransformedStrokes_ids _ _ _ _ _ _ _ Hcalc Hs')
    as (ids & Hids & Hmem).
  apply (Hout ids Hids). now rewrite <- Hid.
Qed.

Lemma transform_commit_leaves_other_strokes_witness :
  let s1 := mkStroke "s1" [mkPoint 0 0; mkPoint 2 2] "#000000" 1 pen in
  let s2 := mkStroke "s2" [mkPoint 5 5; mkPoint 6 6] "#000000" 1 pen in
  let project := mkProject "p" "Drawing 1" [s1; s2] [] in
  let st := mkTransformStart (mkPoint 1 1) None None None None None
                             (Some ["s1"%string]) None in
  nth_error (updatedStrokes (strokes project) [s1]) 1 = Some s2.
Proof.
  intros s1 s2 project st.
  apply (transform_commit_leaves_other_strokes
           project [] (mkPoint 1 1) st dragging [s1] 1 s2).
  - unfold calculateTransformedStrokes.
    replace (isIdentity _) with true
      by (symmetry; apply (gestureParams_at_start st dragging)).
    reflexivity.
  - reflexivity.
  - intros ids E. inversion E; subst. cbn. intros [H | []]. discriminate.
Defined.

(** X22.  A stroke resize multiplies the stored line width by the gesture's
    scale, which is never below 0.01: a stroke of positive line width keeps
    a positive line width, and it keeps its tool and its number of points. *)
Theorem resize_scales_line_width :
  forall (cur : Point) (st : TransformStart) (b : Rect) (h : string)
         (ps : list Stroke) (props : JsMap StrokeProperties) (id_ : string)
         (s' : Stroke),
    initialBounds st = Some b -> handle st = Some h -> h <> EmptyString ->
    let g := gestureParams cur st resizing_strokes in
    transformStroke ps props g st resizing_strokes id_ = Ok (Some s') ->
    exists s op,
      find (fun x => String.eqb (id x) id_) ps = Some s
      /\ map_get props id_ = Some op
      /\ 1 / 100 <= g_scale g
      /\ lineWidth s' = sp_lineWidth op * g_scale g
      /\ (0 < sp_lineWidth op -> 0 < lineWidth s')
      /\ tool s' = tool s
      /\ List.length (points s') = List.length (sp_points op).
Proof.
  intros cur st b h ps props id_ s' Hb Hh Hne g Hs.
  destruct (gestureParams_resize cur st b h Hb Hh Hne) as (_ & _ & _ & _ & Hscale).
  fold g in Hscale.
  destruct (transformStroke_resize ps props g st id_ s' Hs) as (s & op & Hf & Hop & ->).
  exists s, op. cbn [lineWidth tool points]. rewrite length_map.
  repeat split; try assumption.
  intros Hpos. apply Rmult_lt_0_compat; lra.
Qed.

Lemma resize_scales_line_width_witness :
  let s := mkStroke "s1" [mkPoint 0 0; mkPoint 10 10] "#000000" 2 pen in
  let b := mkRect 0 0 10 10 in
  let st := mkTransformStart (mkPoint 10 0) None None (Some b) (Some "tr"%string)
                             None (Some ["s1"%string]) None in
  let g := gestureParams (mkPoint 20 (-10)) st resizing_strokes in
  1 / 100 <= g_scale g.
Proof.
  intros s b st g.
  destruct (resize_scales_line_width
              (mkPoint 20 (-10)) st b "tr" [s] (strokePropertiesOf [s]) "s1"
              (mkStroke "s1"
                        (map (transformPoint g (selectionCenter st)) (points s))
                        "#000000" (2 * g_scale g) pen))
    as (s0 & op & _ & _ & Hscale & _).
  - reflexivity.
  - reflexivity.
  - discriminate.
  - reflexivity.
  - exact Hscale.
Defined.

(** X23.  [finishTransform], the mouse-up of a drag, rotate or resize of
    strokes, never throws: the unguarded read of [selectionCenter] inside
    [calculateTransformedStrokes] cannot be reached, whatever the start
    state, the stored properties and the pointer position. *)
Theorem finishTransform_never_throws :
  forall (st : AppState) (lastStrokeProperties : JsMap StrokeProperties)
         (lastImageProperties : JsMap ImageTransform)
         (finalCoords : option Point) (startState : option TransformStart)
         (currentAction : Action),
    exists st',
      finishTransform st lastStrokeProperties lastImageProperties finalCoords
                      startState currentAction = Ok st'.
Proof.
  intros st props iprops fc start a. unfold finishTransform.
  destruct (currentProject st) as [p |]; [| eauto].
  destruct fc as [c |]; [| eauto]. destruct start as [s |]; [| eauto].
  destruct (calculateTransformedStrokes_total (Some p) props c (Some s) a)
    as (out & ->).
  eauto.
Qed.

(** ** Undo and redo *)

(** X24.  Undo and redo are inverse to each other on a history whose index
    points at a snapshot: when there is something to undo, undo followed by
    redo comes back to the same snapshot list, index and current snapshot;
    when there is something to redo, redo followed by undo does. *)
Theorem undo_and_redo_are_inverse :
  forall st : AppState,
    historyOk st ->
    ((0 < historyIndex st)%nat ->
     exists s1 s2,
       handleUndo st = Ok s1 /\ handleRedo s1 = Ok s2
       /\ historyIndex s1 = (historyIndex st - 1)%nat
       /\ history s2 = history st /\ historyIndex s2 = historyIndex st
       /\ currentSnapshot s2 = currentSnapshot st)
    /\ ((historyIndex st + 1 < List.length (history st))%nat ->
        exists s1 s2,
          handleRedo st = Ok s1 /\ handleUndo s1 = Ok s2
          /\ historyIndex s1 = (historyIndex st + 1)%nat
          /\ history s2 = history st /\ historyIndex s2 = historyIndex st
          /\ currentSnapshot s2 = currentSnapshot st).
Proof.
  intros st Hok. unfold historyOk in Hok. split; intros H.
  - destruct (goTo_ok st (historyIndex st - 1)) as (s1 & E1 & Hh1 & Hi1 & _); [lia |].
    destruct (goTo_ok s1 (historyIndex s1 + 1)) as (s2 & E2 & Hh2 & Hi2 & Hc2);
      [rewrite Hh1, Hi1; lia |].
    exists s1, s2. unfold handleUndo, handleRedo.
    replace (0 <? historyIndex st)%nat with true by (symmetry; apply Nat.ltb_lt; lia).
    replace (Z.of_nat (historyIndex s1) <? Z.of_nat (List.length (history s1)) - 1)%Z
      with true by (symmetry; apply Z.ltb_lt; rewrite Hh1, Hi1; lia).
    split; [assumption |]. split; [assumption |]. split; [assumption |].
    split; [congruence |]. split; [rewrite Hi2, Hi1; lia |].
    rewrite Hc2, Hh1, Hi1. unfold currentSnapshot. f_equal. lia.
  - destruct (goTo_ok st (historyIndex st + 1)) as (s1 & E1 & Hh1 & Hi1 & _); [lia |].
    destruct (goTo_ok s1 (historyIndex s1 - 1)) as (s2 & E2 & Hh2 & Hi2 & Hc2);
      [rewrite Hh1, Hi1; lia |].
    exists s1, s2. unfold handleUndo, handleRedo.
    replace (Z.of_nat (historyIndex st) <? Z.of_nat (List.length (history st)) - 1)%Z
      with true by (symmetry; apply Z.ltb_lt; lia).
    replace (0 <? historyIndex s1)%nat with true
      by (symmetry; apply Nat.ltb_lt; rewrite Hi1; lia).
    split; [assumption |]. split; [assumption |]. split; [assumption |].
    split; [congruence |]. split; [rewrite Hi2, Hi1; lia |].
    rewrite Hc2, Hh1, Hi1. unfold currentSnapshot. f_equal. lia.
Qed.

Lemma undo_and_redo_are_inverse_witness :
  let st := recordNewHistoryState
              (resetHistory (mkAppState [] None [] 0 [] []) [] [])
              [mkStroke "a" [] "#000000" 1 pen] [] in
  exists s1 s2, handleUndo st = Ok s1 /\ handleRedo s1 = Ok s2
                /\ historyIndex s2 = historyIndex st.
Proof.
  intros st.
  destruct (undo_and_redo_are_inverse st) as [Hundo _].
  - unfold historyOk. cbn. lia.
  - destruct Hundo as (s1 & s2 & H1 & H2 & _ & _ & H3 & _); [cbn; lia |].
    exists s1, s2. auto.
Defined.

(** ** Deleting the selection *)

Lemma filter_length_all {A : Type} (f : A -> bool) (l : list A) :
  List.length (filter f l) = List.length l <-> forall x, In x l -> f x = true.
Proof.
  induction l as [| a l IH]; cbn [filter List.length].
  - split; [intros _ ? [] | reflexivity].
  - assert (Hle := filter_length_le f l). destruct (f a) eqn:E; cbn [List.length].
    + split.
      * intros H x [<- | Hx]; [assumption |]. apply IH; [lia | assumption].
      * intros H. f_equal. apply IH. intros x Hx. apply H. now right.
    + split; [lia |]. intros H. rewrite H in E by now left. discriminate.
Qed.

(** X25.  With a current project and a non-empty selection,
    [handleDeleteSelection] commits one snapshot in which exactly the
    strokes and images with a selected id are gone (the others keep their
    order) and empties the selection, when some stroke or image of the
    project has a selected id; when none has, it returns the state as it
    was and records nothing. *)
Theorem handleDeleteSelection_removes_selected :
  forall (st : AppState) (p : Project),
    currentProject st = Some p ->
    hasSelection st = true ->
    let keptStrokes :=
      filter (fun s => negb (set_has (selectedStrokeIds st) (id s))) (strokes p) in
    let keptImages :=
      filter (fun i => negb (set_has (selectedImageIds st) (img_id i))) (images p) in
    ((exists s, In s (strokes p) /\ In (id s) (selectedStrokeIds st))
     \/ (exists i, In i (images p) /\ In (img_id i) (selectedImageIds st)) ->
     let st' := handleDeleteSelection st in
     currentProject st' = Some (mkProject (proj_id p) (name p) keptStrokes keptImages)
     /\ (forall s, In s keptStrokes
                   <-> In s (strokes p) /\ ~ In (id s) (selectedStrokeIds st))
     /\ (forall i, In i keptImages
                   <-> In i (images p) /\ ~ In (img_id i) (selectedImageIds st))
     /\ selectedStrokeIds st' = [] /\ selectedImageIds st' = []
     /\ historyIndex st' = (historyIndex st + 1)%nat
     /\ (historyOk st ->
         currentSnapshot st' = Some (mkSnapshot keptStrokes keptImages)))
    /\ ((forall s, In s (strokes p) -> ~ In (id s) (selectedStrokeIds st)) ->
        (forall i, In i (images p) -> ~ In (img_id i) (selectedImageIds st)) ->
        handleDeleteSelection st = st).
Proof.
  intros st p Hcp Hsel keptStrokes keptImages.
  assert (Hks : forall s, In s keptStrokes
                          <-> In s (strokes p) /\ ~ In (id s) (selectedStrokeIds st)).
  { intros s. unfold keptStrokes. rewrite filter_In, negb_true_iff.
    rewrite <- not_true_iff_false, set_has_In. tauto. }
  assert (Hki : forall i, In i keptImages
                          <-> In i (images p) /\ ~ In (img_id i) (selectedImageIds st)).
  { intros i. unfold keptImages. rewrite filter_In, negb_true_iff.
    rewrite <- not_true_iff_false, set_has_In. tauto. }
  unfold handleDeleteSelection. rewrite Hcp, Hsel. cbn [negb].
  fold keptStrokes keptImages. split.
  - intros Hpresent.
    assert (Hchanged :
              negb (Nat.eqb (List.length keptStrokes) (List.length (strokes p)))
              || negb (Nat.eqb (List.length keptImages) (List.length (images p)))
              = true).
    { apply orb_true_iff. destruct Hpresent as [(s & Hs & Hin) | (i & Hi & Hin)].
      - left. apply negb_true_iff. apply Nat.eqb_neq. intros E.
        unfold keptStrokes in E.
        pose proof (proj1 (filter_length_all _ _) E s Hs) as E'. clear E. rename E' into E.
        apply negb_true_iff in E. apply set_has_In in Hin. congruence.
      - right. apply negb_true_iff. apply Nat.eqb_neq. intros E.
        unfold keptImages in E.
        pose proof (proj1 (filter_length_all _ _) E i Hi) as E'. clear E. rename E' into E.
        apply negb_true_iff in E. apply set_has_In in Hin. congruence. }
    rewrite Hchanged. cbv zeta.
    split.
    { change (currentProject
                (clearSelection
                   (recordNewHistoryState
                      (setCurrentContent st keptStrokes keptImages)
                      keptStrokes keptImages)))
        with (currentProject (setCurrentContent st keptStrokes keptImages)).
      now rewrite currentProject_setCurrentContent, Hcp. }
    split; [exact Hks |]. split; [exact Hki |].
    split; [reflexivity |]. split; [reflexivity |]. split; [reflexivity |].
    intros Hok.
    apply (recordNewHistoryState_current
             (setCurrentContent st keptStrokes keptImages) keptStrokes keptImages).
    exact Hok.
  - intros Hs Hi.
    assert (E1 : List.length keptStrokes = List.length (strokes p)).
    { unfold keptStrokes. apply filter_length_all. intros s Hin. apply negb_true_iff.
      rewrite <- not_true_iff_false, set_has_In. now apply Hs. }
    assert (E2 : List.length keptImages = List.length (images p)).
    { unfold keptImages. apply filter_length_all. intros i Hin. apply negb_true_iff.
      rewrite <- not_true_iff_false, set_has_In. now apply Hi. }
    rewrite E1, E2, !Nat.eqb_refl. reflexivity.
Qed.

Lemma handleDeleteSelection_removes_selected_witness :
  let s1 := mkStroke "s1" [mkPoint 0 0; mkPoint 2 2] "#000000" 1 pen in
  let p := mkProject "p" "Drawing 1" [s1] [] in
  let st := mkAppState [p] (Some "p"%string) [mkSnapshot [s1] []] 0
                       ["s1"%string] [] in
  selectedStrokeIds (handleDeleteSelection st) = [].
Proof.
  intros s1 p st.
  destruct (handleDeleteSelection_removes_selected st p) as [H _].
  - reflexivity.
  - reflexivity.
  - destruct H as (_ & _ & _ & Hsel & _).
    + left. exists s1. split; cbn; now left.
    + exact Hsel.
Defined.

(** ** The view *)

(** X26.  Zooming with the wheel keeps the world point under the mouse
    where it is on screen, and the new zoom is always between 0.1 and 10. *)
Theorem handleWheel_zooms_about_the_mouse :
  forall (v : View) (deltaY : R) (mouse : Point),
    0 < v_zoom v ->
    let v' := handleWheel v deltaY mouse in
    toWorld (v_pan v') (v_zoom v') mouse = toWorld (v_pan v) (v_zoom v) mouse
    /\ 1 / 10 <= v_zoom v' <= 10.
Proof.
  intros [zoom [panx pany]] deltaY [mx my] Hz. cbn [v_zoom v_pan] in Hz.
  unfold handleWheel, toWorld. cbn [v_zoom v_pan p_x p_y].
  set (nz := Rmax (1 / 10) (Rmin 10 (zoom * (1 + - deltaY * (1 / 1000))))).
  assert (Hnz : 1 / 10 <= nz <= 10).
  { unfold nz. split; [apply Rmax_l |]. apply Rmax_lub; [lra | apply Rmin_l]. }
  split; [| exact Hnz]. f_equal; field; lra.
Qed.

Lemma handleWheel_zooms_about_the_mouse_witness :
  let v := mkView 1 (mkPoint 0 0) in
  1 / 10 <= v_zoom (handleWheel v 100 (mkPoint 50 50)) <= 10.
Proof.
  intros v. apply (handleWheel_zooms_about_the_mouse v 100 (mkPoint 50 50)).
  cbn. lra.
Defined.

(** X27.  [resetView] sets the zoom to 1 and keeps the world point shown
    at the centre of the viewport. *)
Theorem resetView_keeps_the_centre :
  forall (v : View) (viewportWidth viewportHeight : R),
    v_zoom v <> 0 ->
    let v' := resetView v viewportWidth viewportHeight in
    let centre := mkPoint (viewportWidth / 2) (viewportHeight / 2) in
    v_zoom v' = 1
    /\ toWorld (v_pan v') (v_zoom v') centre = toWorld (v_pan v) (v_zoom v) centre.
Proof.
  intros [zoom [panx pany]] vw vh Hz. cbn [v_zoom] in Hz.
  unfold resetView, toWorld. cbn [v_zoom v_pan p_x p_y].
  split; [reflexivity |]. f_equal; field; assumption.
Qed.

Lemma resetView_keeps_the_centre_witness :
  v_zoom (resetView (mkView 2 (mkPoint 30 40)) 800 600) = 1.
Proof.
  apply (resetView_keeps_the_centre (mkView 2 (mkPoint 30 40)) 800 600).
  cbn. lra.
Defined.

(** X28.  An uploaded image is placed with its own aspect ratio, centred
    on the world point at the middle of the viewport, unrotated, and fitted
    to 80% of the viewport: on screen neither side exceeds 80% of the
    viewport's and one side equals it. *)
Theorem initialImageTransform_fits_the_viewport :
  forall (imageWidth imageHeight viewportWidth viewportHeight : R) (v : View),
    0 < imageWidth -> 0 < imageHeight ->
    0 < viewportWidth -> 0 < viewportHeight -> 0 < v_zoom v ->
    let tr := initialImageTransform imageWidth imageHeight viewportWidth
                                    viewportHeight v in
    0 < t_width tr /\ 0 < t_height tr
    /\ t_width tr / t_height tr = imageWidth / imageHeight
    /\ t_width tr * v_zoom v <= viewportWidth * (8 / 10)
    /\ t_height tr * v_zoom v <= viewportHeight * (8 / 10)
    /\ (t_width tr * v_zoom v = viewportWidth * (8 / 10)
        \/ t_height tr * v_zoom v = viewportHeight * (8 / 10))
    /\ t_rotation tr = 0
    /\ mkPoint (t_x tr) (t_y tr)
       = toWorld (v_pan v) (v_zoom v)
                 (mkPoint (viewportWidth / 2) (viewportHeight / 2)).
Proof.
  intros iw ih vw vh [zoom [panx pany]] Hiw Hih Hvw Hvh Hz. cbn [v_zoom] in Hz.
  unfold initialImageTransform, toWorld. cbn [v_zoom v_pan p_x p_y].
  assert (Hq : 0 < iw / ih) by (apply Rdiv_lt_0_compat; assumption).
  assert (Hi : 0 < / ih) by (apply Rinv_0_lt_compat; assumption).
  assert (Hv : 0 < / vh) by (apply Rinv_0_lt_compat; assumption).
  destruct (iw / ih >? vw / vh) eqn:E; cbn [t_x t_y t_width t_height t_rotation].
  - apply gtb_iff in E.
    (* wider than the viewport: vw * ih < iw * vh *)
    assert (Hc : vw * ih < iw * vh).
    { apply (Rmult_lt_compat_r (ih * vh)) in E; [| nra].
      replace (vw / vh * (ih * vh)) with (vw * ih) in E by (field; lra).
      replace (iw / ih * (ih * vh)) with (iw * vh) in E by (field; lra). exact E. }
    assert (Hh : vw * (8 / 10) / (iw / ih) <= vh * (8 / 10)).
    { apply (Rmult_le_reg_r iw); [assumption |].
      replace (vw * (8 / 10) / (iw / ih) * iw) with (vw * ih * (8 / 10))
        by (field; lra).
      nra. }
    assert (Hpos : 0 < vw * (8 / 10) / (iw / ih)).
    { apply Rdiv_lt_0_compat; lra. }
    repeat split.
    + apply Rdiv_lt_0_compat; lra.
    + apply Rdiv_lt_0_compat; lra.
    + field. repeat split; lra.
    + right. field. lra.
    + replace (vw * (8 / 10) / (iw / ih) / zoom * zoom)
        with (vw * (8 / 10) / (iw / ih)) by (field; lra).
      exact Hh.
    + left. field. lra.
  - rewrite <- not_true_iff_false, gtb_iff in E. apply Rnot_lt_le in E.
    assert (Hc : iw * vh <= vw * ih).
    { apply (Rmult_le_compat_r (ih * vh)) in E; [| nra].
      replace (vw / vh * (ih * vh)) with (vw * ih) in E by (field; lra).
      replace (iw / ih * (ih * vh)) with (iw * vh) in E by (field; lra). exact E. }
    assert (Hw : vh * (8 / 10) * (iw / ih) <= vw * (8 / 10)).
    { apply (Rmult_le_reg_r ih); [assumption |].
      replace (vh * (8 / 10) * (iw / ih) * ih) with (iw * vh * (8 / 10))
        by (field; lra).
      nra. }
    assert (Hpos : 0 < vh * (8 / 10) * (iw / ih)).
    { apply Rmult_lt_0_compat; lra. }
    repeat split.
    + apply Rdiv_lt_0_compat; lra.
    + apply Rdiv_lt_0_compat; lra.
    + field. repeat split; lra.
    + replace (vh * (8 / 10) * (iw / ih) / zoom * zoom)
        with (vh * (8 / 10) * (iw / ih)) by (field; lra).
      exact Hw.
    + right. field. lra.
    + right. field. lra.
Qed.

Lemma initialImageTransform_fits_the_viewport_witness :
  0 < t_width (initialImageTransform 1920 1080 800 600 (mkView 1 (mkPoint 0 0))).
Proof.
  apply (initialImageTransform_fits_the_viewport
           1920 1080 800 600 (mkView 1 (mkPoint 0 0))); cbn; lra.
Defined.

(** ** A whole session: the project and the history stay together *)

Lemma inSync_intro (st : AppState) (ns : list Stroke) (ni : list CanvasImage) :
  (forall p, currentProject st = Some p -> strokes p = ns /\ images p = ni) ->
  currentSnapshot st = Some (mkSnapshot ns ni) ->
  inSync st.
Proof.
  intros Hp Hs p Hcp. destruct (Hp p Hcp) as [-> ->]. exact Hs.
Qed.

(** The state left by a commit of new content for the current project. *)
Lemma commit_content_ok (st : AppState) (ns : list Stroke) (ni : list CanvasImage) :
  historyOk st ->
  let st' := recordNewHistoryState (setCurrentContent st ns ni) ns ni in
  historyOk st' /\ inSync st'.
Proof.
  intros Hok st'.
  assert (Hok' : historyOk (setCurrentContent st ns ni)) by exact Hok.
  split; [now apply recordNewHistoryState_ok |].
  apply (inSync_intro st' ns ni).
  - intros p. unfold st'.
    rewrite currentProject_recordNewHistoryState, currentProject_setCurrentContent.
    destruct (currentProject st); cbn [option_map]; intros E; inversion E; auto.
  - now apply recordNewHistoryState_current.
Qed.

(** The same for a commit that replaces the strokes only: the images of the
    project must already be those of the current snapshot. *)
Lemma commit_strokes_ok (st : AppState) (ns : list Stroke) :
  historyOk st -> inSync st ->
  let st' := setCurrentStrokes
               (recordNewHistoryState st ns (snap_images (currentHistoryState st)))
               ns in
  historyOk st' /\ inSync st'.
Proof.
  intros Hok Hsync st'.
  split; [exact (recordNewHistoryState_ok st ns _ Hok) |].
  apply (inSync_intro st' ns (snap_images (currentHistoryState st))).
  - intros p. unfold st'.
    rewrite currentProject_setCurrentStrokes, currentProject_recordNewHistoryState.
    destruct (currentProject st) as [p0 |] eqn:Ecp; cbn [option_map];
      intros E; inversion E; subst. cbn [strokes images].
    split; [reflexivity |].
    specialize (Hsync p0 Ecp). unfold currentHistoryState.
    unfold currentSnapshot in Hsync. now rewrite Hsync.
  - exact (recordNewHistoryState_current st ns _ Hok).
Qed.

Lemma goTo_sync (st st' : AppState) (n : nat) :
  goTo st n = Ok st' -> (n < List.length (history st))%nat ->
  historyOk st' /\ inSync st'.
Proof.
  unfold goTo. destruct (nth_error (history st) n) as [snap |] eqn:E; [| discriminate].
  intros H Hn. inversion H; subst; clear H. split; [exact Hn |].
  apply (inSync_intro _ (snap_strokes snap) (snap_images snap)).
  - intros p. unfold currentProject. cbn [projects].
    change (isCurrent
              (mkAppState
                 (map (fun p0 => if isCurrent st p0
                                 then mkProject (proj_id p0) (name p0)
                                                (snap_strokes snap) (snap_images snap)
                                 else p0)
                      (projects st))
                 (currentProjectId st) (history st) n [] []))
      with (isCurrent st).
    rewrite (find_map_current
               st (fun p0 => mkProject (proj_id p0) (name p0) (snap_strokes snap)
                                       (snap_images snap)))
      by reflexivity.
    destruct (find (isCurrent st) (projects st)); cbn [option_map];
      intros E'; inversion E'; auto.
  - unfold currentSnapshot. cbn [history historyIndex]. rewrite E.
    now destruct snap.
Qed.

(** Each operation keeps the two invariants and does not throw. *)
Lemma runOp_keeps_sync (st : AppState) (op : UserOp) :
  historyOk st -> inSync st -> drawnOp op ->
  exists st', runOp st op = Ok st' /\ historyOk st' /\ inSync st'.
Proof.
  intros Hok Hsync Hdrawn. destruct op as [sids iids | uuid fs | props iprops fc start a
                                           | | confirmed | |]; cbn [runOp].
  - (* marquee selection *)
    cbn [drawnOp] in Hdrawn. unfold finishSelecting.
    destruct sids as [rect |]; [| eauto].
    destruct (currentProject st) as [cp |]; [| eauto].
    unfold isMultiSelect.
    destruct (shiftKey iids);
      [| destruct (nativeEvent iids) as [n |]; [| contradiction];
         destruct (ctrlKey n || metaKey n)];
      (eexists; split; [reflexivity |]; split; [exact Hok | exact Hsync]).
  - (* drawing *)
    unfold finishDrawing. destruct (currentProject st) as [cp |] eqn:Ecp; [| eauto].
    destruct (DrawingTool_eqb (tool fs) eraser) eqn:Et.
    + destruct (1 <? List.length (points fs))%nat; [| eauto].
      destruct ((0 <? _)%nat || (0 <? _)%nat); [| eauto].
      eexists. split; [reflexivity |]. now apply commit_strokes_ok.
    + unfold strokeToAdd. destruct (DrawingTool_eqb (tool fs) pen) eqn:Ep.
      * destruct (1 <? List.length (points fs))%nat; [| eauto].
        eexists. split; [reflexivity |]. now apply commit_strokes_ok.
      * assert (Hlen : (2 <= List.length (points fs))%nat).
        { cbn [drawnOp] in Hdrawn. destruct Hdrawn as [Hf | Hl]; [| exact Hl].
          destruct (tool fs); cbn in Hf, Et, Ep; discriminate. }
        destruct (points fs) as [| p0 [| p1 rest]]; cbn [List.length] in Hlen; try lia.
        destruct (_ >? 2); [| eauto].
        eexists. split; [reflexivity |]. now apply commit_strokes_ok.
  - (* transform *)
    unfold finishTransform. destruct (currentProject st) as [cp |]; [| eauto].
    destruct fc as [c |]; [| eauto]. destruct start as [s |]; [| eauto].
    destruct (calculateTransformedStrokes_total (Some cp) props c (Some s) a)
      as (out & ->).
    eexists. split; [reflexivity |]. now apply commit_content_ok.
  - (* delete selection *)
    unfold handleDeleteSelection. destruct (currentProject st) as [cp |]; [| eauto].
    destruct (negb (hasSelection st)); [eauto |].
    destruct (_ || _); [| eauto].
    eexists. split; [reflexivity |].
    exact (commit_content_ok st _ _ Hok).
  - (* clear canvas *)
    unfold clearCanvas. destruct (currentProject st) as [cp |]; [| eauto].
    destruct confirmed; [| eauto].
    eexists. split; [reflexivity |].
    exact (commit_content_ok st [] [] Hok).
  - (* undo *)
    unfold handleUndo. destruct (Nat.ltb_spec 0 (historyIndex st)); [| eauto].
    unfold historyOk in Hok.
    destruct (goTo_ok st (historyIndex st - 1)) as (st' & E & _); [lia |].
    exists st'. split; [exact E |]. apply (goTo_sync st st' _ E). lia.
  - (* redo *)
    unfold handleRedo.
    destruct (Z.ltb_spec (Z.of_nat (historyIndex st))
                         (Z.of_nat (List.length (history st)) - 1)); [| eauto].
    destruct (goTo_ok st (historyIndex st + 1)) as (st' & E & _); [lia |].
    exists st'. split; [exact E |]. apply (goTo_sync st st' _ E). lia.
Qed.

(** X29.  From a state in which the history index points at a snapshot and
    the current project shows that snapshot, any sequence of these handlers
    runs without a throw and ends in such a state again: the ['selecting']
    case of [handleMouseUp] on an event of React (one that has its
    [nativeEvent]), the ['drawing'] case of [handleMouseUp] on a stroke
    that, if a shape, has its two points, the stroke-transform case of
    [handleMouseUp], [handleDeleteSelection], [clearCanvas], [handleUndo]
    and [handleRedo].  The project on screen and the current history
    snapshot never drift apart. *)
Theorem session_keeps_project_and_history_in_sync :
  forall (ops : list UserOp) (st : AppState),
    historyOk st -> inSync st -> Forall drawnOp ops ->
    exists st', runOps st ops = Ok st' /\ historyOk st' /\ inSync st'.
Proof.
  induction ops as [| op ops IH]; intros st Hok Hsync Hops.
  - exists st. auto.
  - inversion Hops as [| ? ? Hop Hrest]; subst. cbn [runOps].
    destruct (runOp_keeps_sync st op Hok Hsync Hop) as (st1 & -> & Hok1 & Hsync1).
    now apply IH.
Qed.

Lemma session_keeps_project_and_history_in_sync_witness :
  let p := mkProject "p" "Drawing 1" [] [] in
  let st := mkAppState [p] (Some "p"%string) [mkSnapshot [] []] 0 [] [] in
  let ops := [OpDraw tally (mkStroke "s" [mkPoint 0 0; mkPoint 5 5] "#000000" 2 pen);
              OpSelect (Some (mkRect 0 0 10 10))
                       (mkMouseEvent false (Some (mkNativeEvent false false)));
              OpUndo; OpRedo] in
  exists st', runOps st ops = Ok st' /\ historyOk st' /\ inSync st'.
Proof.
  intros p st ops.
  apply (session_keeps_project_and_history_in_sync ops st).
  - unfold historyOk. cbn. lia.
  - intros q E. cbn in E. inversion E; subst. reflexivity.
  - repeat constructor. cbn. discriminate.
Defined.

(** ** Marquee selection *)

Lemma set_union_In (prev : StringSet) (ids : list string) (k : string) :
  In k (set_union prev ids) <-> In k prev \/ In k ids.
Proof.
  unfold set_union. revert prev.
  induction ids as [| x ids IH]; intros prev; cbn [fold_left].
  - cbn [In]. tauto.
  - rewrite IH. cbn [In]. split.
    + intros [H | H]; [| auto].
      apply set_add_In in H. destruct H as [H | ->]; auto.
    + intros [H | [<- | H]]; [left; now apply set_add_keeps | | auto].
      left. apply set_add_here.
Qed.

Lemma strokesInRect_In (rect : Rect) (project : Project) (k : string) :
  In k (strokesInRect rect project)
  <-> exists s b, In s (strokes project) /\ id s = k /\ tool s <> eraser
                  /\ getStrokeBounds s = Some b /\ doRectsIntersect rect b = true.
Proof.
  unfold strokesInRect. rewrite in_map_iff. split.
  - intros (s & Hid & Hin). apply filter_In in Hin. destruct Hin as [Hin Hf].
    destruct (DrawingTool_eqb (tool s) eraser) eqn:Et; [discriminate |].
    destruct (getStrokeBounds s) as [b |] eqn:Eb; [| discriminate].
    exists s, b. repeat split; auto.
    intros E. rewrite E in Et. discriminate.
  - intros (s & b & Hin & Hid & Ht & Hb & Hi). exists s. split; [assumption |].
    apply filter_In. split; [assumption |]. rewrite Hb.
    destruct (tool s); try assumption. contradiction.
Qed.

Lemma imagesInRect_In (rect : Rect) (project : Project) (k : string) :
  In k (imagesInRect rect project)
  <-> exists i, In i (images project) /\ img_id i = k
                /\ doRectsIntersect rect (getTransformedImageBounds (transform i))
                   = true.
Proof.
  unfold imagesInRect. rewrite in_map_iff. split.
  - intros (i & Hid & Hin). apply filter_In in Hin. destruct Hin as [Hin Hf]. eauto.
  - intros (i & Hin & Hid & Hf). exists i. split; [assumption |].
    apply filter_In. auto.
Qed.

(** X30.  The ['selecting'] case of [handleMouseUp] with a selection
    rectangle and a current project.  On an event of React it does not
    throw and touches nothing but the selection: the selected strokes are
    the strokes of the project that are not eraser strokes, have bounds and
    whose bounds [doRectsIntersect] the rectangle, the selected images are
    those whose transformed bounds do, and the previous selection is kept
    as well exactly when Shift, Ctrl or Meta is held.  On the event that
    [handleMouseLeave] passes, [new MouseEvent('mouseup')], it throws a
    [TypeError], because that event has no [nativeEvent]. *)
Theorem finishSelecting_selects_what_the_rectangle_meets :
  forall (st : AppState) (rect : Rect) (e : MouseEvent) (n : NativeEvent)
         (p : Project),
    currentProject st = Some p ->
    nativeEvent e = Some n ->
    let multi := shiftKey e || ctrlKey n || metaKey n in
    (exists st',
        finishSelecting st (Some rect) e = Ok st'
        /\ projects st' = projects st /\ currentProjectId st' = currentProjectId st
        /\ history st' = history st /\ historyIndex st' = historyIndex st
        /\ (forall k,
               In k (selectedStrokeIds st')
               <-> (multi = true /\ In k (selectedStrokeIds st))
                   \/ exists s b,
                       In s (strokes p) /\ id s = k /\ tool s <> eraser
                       /\ getStrokeBounds s = Some b
                       /\ doRectsIntersect rect b = true)
        /\ (forall k,
               In k (selectedImageIds st')
               <-> (multi = true /\ In k (selectedImageIds st))
                   \/ exists i,
                       In i (images p) /\ img_id i = k
                       /\ doRectsIntersect
                            rect (getTransformedImageBounds (transform i)) = true))
    /\ finishSelecting st (Some rect) mouseLeaveEvent = TypeError.
Proof.
  intros st rect e n p Hcp Hn multi. split.
  - unfold finishSelecting, isMultiSelect. rewrite Hcp, Hn.
    assert (Hm : (if shiftKey e then Ok true else Ok (ctrlKey n || metaKey n))
                 = Ok multi).
    { unfold multi. destruct (shiftKey e); reflexivity. }
    rewrite Hm. destruct multi.
    + eexists. split; [reflexivity |].
      cbn [setSelection projects currentProjectId history historyIndex
           selectedStrokeIds selectedImageIds].
      repeat split; try reflexivity.
      * rewrite set_union_In, strokesInRect_In. tauto.
      * rewrite set_union_In, strokesInRect_In. tauto.
      * rewrite set_union_In, imagesInRect_In. tauto.
      * rewrite set_union_In, imagesInRect_In. tauto.
    + eexists. split; [reflexivity |].
      cbn [setSelection projects currentProjectId history historyIndex
           selectedStrokeIds selectedImageIds].
      repeat split; try reflexivity.
      * rewrite set_union_In, strokesInRect_In. cbn [In]. tauto.
      * rewrite set_union_In, strokesInRect_In.
        intros [[H _] | H]; [discriminate | auto].
      * rewrite set_union_In, imagesInRect_In. cbn [In]. tauto.
      * rewrite set_union_In, imagesInRect_In.
        intros [[H _] | H]; [discriminate | auto].
  - unfold finishSelecting. now rewrite Hcp.
Qed.

Lemma finishSelecting_selects_what_the_rectangle_meets_witness :
  let s := mkStroke "s1" [mkPoint 0 0; mkPoint 5 5] "#000000" 2 line in
  let p := mkProject "p" "Drawing 1" [s] [] in
  let st := mkAppState [p] (Some "p"%string) [mkSnapshot [s] []] 0 [] [] in
  let e := mkMouseEvent true (Some (mkNativeEvent false false)) in
  (exists st', finishSelecting st (Some (mkRect 0 0 10 10)) e = Ok st'
               /\ history st' = history st)
  /\ finishSelecting st (Some (mkRect 0 0 10 10)) mouseLeaveEvent = TypeError.
Proof.
  intros s p st e.
  destruct (finishSelecting_selects_what_the_rectangle_meets
              st (mkRect 0 0 10 10) e (mkNativeEvent false false) p)
    as ((st' & Hrun & _ & _ & Hhist & _) & Hthrow).
  - reflexivity.
  - reflexivity.
  - split; [exists st'; auto | exact Hthrow].
Defined.
